(** * A to-do list manager: the task store and its line-oriented file format

    Shallow embedding of [todo-app/main.cpp].  The class [Task] keeps two
    static members, the vector [tasks] and the counter [nextId]; every static
    method is modelled as a function on a [World] that holds those two members
    together with the file system and the text written to [cerr].

    The C++ standard library is modelled by what the standard says about it:
    - [std::ifstream] is an input buffer with the [eofbit] and [failbit]
      flags; [getline], [operator>>] on integers, [peek] and [ignore] follow
      the rules of unformatted and formatted input;
    - [operator<<] on integers prints the decimal digits, with a leading
      minus sign for negative numbers;
    - [std::sort] is known by its postcondition only (a permutation that is
      ordered for the comparison), so it is a relation;
    - [double] is IEEE 754 binary64 with rounding to nearest, ties to even,
      as the standard library's [SpecFloat] defines it.
    The integers [id] and [nextId] are unbounded here: overflowing a signed
    [int] is undefined in C++, the model describes the defined executions. *)

From Stdlib Require Import ZArith String Ascii List Bool Lia Permutation Sorted.
From Stdlib Require Import QArith Qpower Qabs Lqa SpecFloat.
Import ListNotations.

Open Scope Z_scope.

(** ** Text *)

Definition text := list ascii.

Definition isspace (c : ascii) : bool :=
  let n := nat_of_ascii c in
  (Nat.eqb n 32 || (Nat.leb 9 n && Nat.leb n 13))%bool.

Definition isdigit (c : ascii) : bool :=
  let n := nat_of_ascii c in (Nat.leb 48 n && Nat.leb n 57)%bool.

Definition digit_val (c : ascii) : Z := Z.of_nat (nat_of_ascii c) - 48.

Definition digit_char (d : Z) : ascii := ascii_of_nat (Z.to_nat (48 + d)).

Definition PIPE : ascii := "|"%char.
Definition NEWLINE : ascii := "010"%char.
Definition SPACE : ascii := " "%char.
Definition MINUS : ascii := "-"%char.
Definition PLUS : ascii := "+"%char.

(** ** Formatted output of integers: [os << n] *)

Fixpoint put_digits (fuel : nat) (n : Z) (acc : text) : text :=
  let acc' := digit_char (n mod 10) :: acc in
  match fuel with
  | O => acc'
  | S fuel' => if n / 10 =? 0 then acc' else put_digits fuel' (n / 10) acc'
  end.

Definition show_unsigned (n : Z) : text :=
  put_digits (Z.to_nat (Z.log2 n)) n [].

Definition show_Z (n : Z) : text :=
  if n <? 0 then MINUS :: show_unsigned (- n) else show_unsigned n.

(** [os << b] without [boolalpha] prints 1 or 0. *)
Definition show_bool (b : bool) : text := show_Z (if b then 1 else 0).

(** ** Input streams *)

Record istream := mkIstream { buf : text; eofbit : bool; failbit : bool }.

Definition good (s : istream) : bool := negb (eofbit s) && negb (failbit s).

Definition open_istream (t : text) : istream := mkIstream t false false.

(** What an input function does when the stream is not good on entry: the
    sentry sets [failbit] and nothing is read. *)
Definition sentry_failed (s : istream) : istream :=
  mkIstream (buf s) (eofbit s) true.

(** [file.peek()]: [None] stands for [EOF]; meeting the end sets [eofbit]. *)
Definition peek (s : istream) : option ascii * istream :=
  if good s then
    match buf s with
    | [] => (None, mkIstream [] true false)
    | c :: _ => (Some c, s)
    end
  else (None, sentry_failed s).

(** The characters before the first [d], and what follows that [d] if there
    is one. *)
Fixpoint take_until (d : ascii) (t : text) : text * option text :=
  match t with
  | [] => ([], None)
  | c :: t' =>
      if Ascii.eqb c d then ([], Some t')
      else let (a, r) := take_until d t' in (c :: a, r)
  end.

(** [getline(file, str, d)] into an empty [str]: characters are taken up to
    the delimiter, which is consumed but not stored; meeting the end of the
    input sets [eofbit], and [failbit] too when nothing at all was taken. *)
Definition getline (s : istream) (d : ascii) : text * istream :=
  if good s then
    match take_until d (buf s) with
    | (str, Some rest) => (str, mkIstream rest false false)
    | (str, None) =>
        (str, mkIstream [] true (match str with [] => true | _ => false end))
    end
  else ([], sentry_failed s).

(** [file.ignore(numeric_limits<streamsize>::max(), d)]. *)
Definition ignore (s : istream) (d : ascii) : istream :=
  if good s then
    match take_until d (buf s) with
    | (_, Some rest) => mkIstream rest false false
    | (_, None) => mkIstream [] true false
    end
  else sentry_failed s.

Fixpoint skipws (t : text) : text :=
  match t with
  | c :: t' => if isspace c then skipws t' else t
  | [] => []
  end.

Fixpoint span_digits (t : text) : text * text :=
  match t with
  | c :: t' =>
      if isdigit c then let (ds, r) := span_digits t' in (c :: ds, r)
      else ([], t)
  | [] => ([], [])
  end.

Definition digits_from (a : Z) (ds : text) : Z :=
  fold_left (fun a c => a * 10 + digit_val c) ds a.

Definition digits_value (ds : text) : Z := digits_from 0 ds.

Definition at_end (t : text) : bool :=
  match t with [] => true | _ => false end.

(** The digits of a number, after its sign: the longest run of digits is
    taken.  No digit: [failbit], 0 is stored.  A value outside [lo..hi]:
    [failbit], the nearest bound is stored.  Reading up to the end of the
    input sets [eofbit]. *)
Definition read_digits (lo hi : Z) (neg : bool) (t : text) : Z * istream :=
  let '(ds, rest) := span_digits t in
  match ds with
  | [] => (0, mkIstream rest (at_end rest) true)
  | _ =>
      let v := if neg then - digits_value ds else digits_value ds in
      if v <? lo then (lo, mkIstream rest (at_end rest) true)
      else if hi <? v then (hi, mkIstream rest (at_end rest) true)
      else (v, mkIstream rest (at_end rest) false)
  end.

(** [file >> n] for a signed integer type with values [lo..hi], decimal base,
    into a variable that holds 0: white space is skipped, then an optional
    sign and the digits are read. *)
Definition read_int (lo hi : Z) (s : istream) : Z * istream :=
  if good s then
    match skipws (buf s) with
    | [] => (0, mkIstream [] true true)
    | c :: t =>
        if Ascii.eqb c MINUS then read_digits lo hi true t
        else if Ascii.eqb c PLUS then read_digits lo hi false t
        else read_digits lo hi false (c :: t)
    end
  else (0, sentry_failed s).

Definition INT_MIN : Z := - 2 ^ 31.
Definition INT_MAX : Z := 2 ^ 31 - 1.
(** [time_t] is a signed 64-bit integer. *)
Definition TIME_MIN : Z := - 2 ^ 63.
Definition TIME_MAX : Z := 2 ^ 63 - 1.

Definition read_int32 : istream -> Z * istream := read_int INT_MIN INT_MAX.
Definition read_time_t : istream -> Z * istream := read_int TIME_MIN TIME_MAX.

(** ** The file system

    [readable p] is the content an [ifstream] on [p] gets, [None] when the
    file cannot be opened; [writable p] tells whether an [ofstream] on [p]
    opens. *)

Record fsys := mkFsys {
  readable : string -> option text;
  writable : string -> bool
}.

Definition write_file (fs : fsys) (p : string) (data : text) : fsys :=
  mkFsys (fun q => if String.eqb q p then Some data else readable fs q)
         (writable fs).

(** ** Tasks *)

(** [enum Priority]: an unscoped enumeration, so a [Priority] can hold
    integers other than the five enumerators; [validateTask] tests for that. *)
Definition Priority := Z.
Definition HIGHEST : Priority := 1.
Definition HIGH : Priority := 2.
Definition MEDIUM : Priority := 3.
Definition LOW : Priority := 4.
Definition LOWEST : Priority := 5.

Record Task := mkTask {
  id : Z;
  description : text;
  priority : Priority;
  completed : bool;
  dueDate : Z
}.

Record World := mkWorld {
  tasks : list Task;
  nextId : Z;
  disk : fsys;
  cerr : list string
}.

(** The state of the static members when the process starts. *)
Definition initial_world (fs : fsys) : World := mkWorld [] 1 fs [].

Definition set_tasks (ts : list Task) (w : World) : World :=
  mkWorld ts (nextId w) (disk w) (cerr w).
Definition set_nextId (n : Z) (w : World) : World :=
  mkWorld (tasks w) n (disk w) (cerr w).
Definition set_disk (fs : fsys) (w : World) : World :=
  mkWorld (tasks w) (nextId w) fs (cerr w).
Definition say (msgs : list string) (w : World) : World :=
  mkWorld (tasks w) (nextId w) (disk w) (cerr w ++ msgs).

Definition MSG_EMPTY_DESCRIPTION : string := "Error: Description cannot be empty.".
Definition MSG_BAD_PRIORITY : string := "Error: Priority must be between 1 and 5.".
Definition MSG_SKIP_LINE : string := "Skipping invalid task from file.".
Definition MSG_CANNOT_SAVE : string := "Error: Unable to open file for saving.".
Definition MSG_UPDATE_DESCRIPTION : string := "Update failed due to invalid description.".
Definition MSG_UPDATE_PRIORITY : string := "Update failed due to invalid priority.".
Definition MSG_NOT_FOUND (i : Z) : string :=
  ("Warning: No task found with ID " ++ string_of_list_ascii (show_Z i) ++ ".")%string.
Definition MSG_NOT_SAVED (i : Z) : string :=
  ("Error: Invalid Task with ID " ++ string_of_list_ascii (show_Z i)
   ++ " - not saved.")%string.

(** [Task::validateTask]: the verdict, and what it writes to [cerr]. *)
Definition validateTask (desc : text) (prio : Priority) : bool * list string :=
  match desc with
  | [] => (false, [MSG_EMPTY_DESCRIPTION])
  | _ =>
      if (prio <? HIGHEST) || (LOWEST <? prio)
      then (false, [MSG_BAD_PRIORITY])
      else (true, [])
  end.

(** The constructor [Task(desc, prio, due)]: [id(nextId++)]. *)
Definition Task_new (desc : text) (prio : Priority) (due : Z) (w : World)
  : Task * World :=
  (mkTask (nextId w) desc prio false due, set_nextId (nextId w + 1) w).

Definition push_back (t : Task) (w : World) : World :=
  set_tasks (tasks w ++ [t]) w.

Definition set_description (d : text) (t : Task) : Task :=
  mkTask (id t) d (priority t) (completed t) (dueDate t).
Definition set_priority (p : Priority) (t : Task) : Task :=
  mkTask (id t) (description t) p (completed t) (dueDate t).
Definition set_completed (c : bool) (t : Task) : Task :=
  mkTask (id t) (description t) (priority t) c (dueDate t).
Definition set_dueDate (d : Z) (t : Task) : Task :=
  mkTask (id t) (description t) (priority t) (completed t) d.

(** ** [Task::loadTasksFromFile] *)

(** One turn of the [while (true)] loop: [Break] when the turn leaves the
    loop, [Continue] with the stream and the state at the end of the turn
    (also after the [continue] of a skipped line). *)
Inductive turn := Break | Continue (file : istream) (w : World).

Definition load_turn (file : istream) (w : World) : turn :=
  if negb (good file) then Break else
  match peek file with
  | (None, _) => Break
  | (Some _, file0) =>
      let (desc, file1) := getline file0 PIPE in
      if negb (good file1) then Break else
      let (prioInt, file2) := read_int32 file1 in
      if negb (good file2) then Break else
      let (compInt, file3) := read_int32 file2 in
      if negb (good file3) then Break else
      let (due, file4) := read_time_t file3 in
      if negb (good file4) then Break else
      let file5 := ignore file4 NEWLINE in
      if at_end desc || (prioInt <? HIGHEST) || (LOWEST <? prioInt)
      then Continue file5 (say [MSG_SKIP_LINE] w)
      else
        let (task, w1) := Task_new desc prioInt due w in
        Continue file5 (push_back (set_completed (negb (compInt =? 0)) task) w1)
  end.

(** The loop.  Each turn that does not leave it consumes the delimiter of one
    description, so the length of the input bounds the number of turns;
    [None] means that [fuel] turns were not enough. *)
Fixpoint load_loop (fuel : nat) (file : istream) (w : World) : option World :=
  match fuel with
  | O => None
  | S fuel' =>
      match load_turn file w with
      | Break => Some w
      | Continue file' w' => load_loop fuel' file' w'
      end
  end.

(** The loop that follows the reading: the largest id, 0 at least. *)
Definition max_id (ts : list Task) : Z :=
  fold_left (fun maxID t => if maxID <? id t then id t else maxID) ts 0.

Definition loadTasksFromFile (filename : string) (w : World) : option World :=
  match readable (disk w) filename with
  | None => Some w
  | Some content =>
      match load_loop (S (length content)) (open_istream content)
                      (set_tasks [] w) with
      | None => None
      | Some w1 => Some (set_nextId (max_id (tasks w1) + 1) w1)
      end
  end.

(** ** [Task::saveTasksToFile] *)

Definition save_line (t : Task) : text :=
  description t ++ PIPE :: show_Z (priority t) ++ SPACE ::
  show_bool (completed t) ++ SPACE :: show_Z (dueDate t) ++ [NEWLINE].

Fixpoint save_loop (ts : list Task) (out : text) (err : list string)
  : text * list string :=
  match ts with
  | [] => (out, err)
  | t :: ts' =>
      let (ok, msgs) := validateTask (description t) (priority t) in
      if ok then save_loop ts' (out ++ save_line t) (err ++ msgs)
      else save_loop ts' out (err ++ msgs ++ [MSG_NOT_SAVED (id t)])
  end.

Definition saveTasksToFile (filename : string) (w : World) : World :=
  if writable (disk w) filename then
    let (out, err) := save_loop (tasks w) [] [] in
    say err (set_disk (write_file (disk w) filename out) w)
  else say [MSG_CANNOT_SAVE] w.

(** ** [Task::addTask], [Task::deleteTask], [Task::updateTask] *)

Definition addTask (desc : text) (prio : Priority) (due : Z) (w : World)
  : World :=
  let (ok, msgs) := validateTask desc prio in
  if ok then
    let (t, w1) := Task_new desc prio due (say msgs w) in push_back t w1
  else say msgs w.

Definition deleteTask (i : Z) (w : World) : World :=
  let kept := filter (fun t => negb (id t =? i)) (tasks w) in
  let w1 := set_tasks kept w in
  if Nat.eqb (length kept) (length (tasks w)) then say [MSG_NOT_FOUND i] w1
  else w1.

Definition apply_opt {A} (f : A -> Task -> Task) (o : option A) (t : Task)
  : Task :=
  match o with Some a => f a t | None => t end.

(** The body of the [if (task.id == id)] branch of [updateTask], up to its
    [return]: the record as it is left, and the messages. *)
Definition update_record (task : Task) (desc : option text)
    (prio : option Priority) (comp : option bool) (due : option Z)
  : Task * list string :=
  let after_desc : option Task * list string :=
    match desc with
    | Some d =>
        let (ok, msgs) := validateTask d (priority task) in
        if ok then (Some (set_description d task), msgs)
        else (None, msgs ++ [MSG_UPDATE_DESCRIPTION])
    | None => (Some task, [])
    end in
  match after_desc with
  | (None, msgs) => (task, msgs)
  | (Some task1, msgs1) =>
      let after_prio : option Task * list string :=
        match prio with
        | Some p =>
            let (ok, msgs) := validateTask (description task1) p in
            if ok then (Some (set_priority p task1), msgs)
            else (None, msgs ++ [MSG_UPDATE_PRIORITY])
        | None => (Some task1, [])
        end in
      match after_prio with
      | (None, msgs2) => (task1, msgs1 ++ msgs2)
      | (Some task2, msgs2) =>
          (apply_opt set_dueDate due (apply_opt set_completed comp task2),
           msgs1 ++ msgs2)
      end
  end.

(** The [for (auto& task : tasks)] loop of [updateTask]; [None] when no
    record has the id. *)
Fixpoint update_loop (ts : list Task) (i : Z) (desc : option text)
    (prio : option Priority) (comp : option bool) (due : option Z)
  : option (list Task * list string) :=
  match ts with
  | [] => None
  | t :: ts' =>
      if id t =? i then
        let (t', msgs) := update_record t desc prio comp due in
        Some (t' :: ts', msgs)
      else
        match update_loop ts' i desc prio comp due with
        | Some (ts'', msgs) => Some (t :: ts'', msgs)
        | None => None
        end
  end.

Definition updateTask (i : Z) (desc : option text) (prio : option Priority)
    (comp : option bool) (due : option Z) (w : World) : World :=
  match update_loop (tasks w) i desc prio comp due with
  | Some (ts, msgs) => say msgs (set_tasks ts w)
  | None => say [MSG_NOT_FOUND i] w
  end.

(** ** [Task::sortTasksByPriority], [Task::sortTasksByDueDate] *)

(** The two comparison lambdas. *)
Definition by_priority (ascending : bool) (a b : Task) : bool :=
  if ascending then priority a <? priority b else priority a >? priority b.

Definition by_dueDate (ascending : bool) (a b : Task) : bool :=
  if ascending then dueDate a <? dueDate b else dueDate a >? dueDate b.

(** Both lambdas compare one field. *)
Definition by_key (key : Task -> Z) (ascending : bool) (a b : Task) : bool :=
  if ascending then key a <? key b else key a >? key b.

(** [std::sort(first, last, comp)] is specified by its result only: the range
    holds the same elements, and no element compares less than one placed
    before it.  Nothing is said about elements that compare equivalent. *)
Fixpoint is_sorted (comp : Task -> Task -> bool) (l : list Task) : bool :=
  match l with
  | [] => true
  | a :: l' => forallb (fun b => negb (comp b a)) l' && is_sorted comp l'
  end.

Definition std_sort (comp : Task -> Task -> bool) (l l' : list Task) : Prop :=
  Permutation l l' /\ is_sorted comp l' = true.

Definition sortTasksByPriority (ascending : bool) (w w' : World) : Prop :=
  std_sort (by_priority ascending) (tasks w) (tasks w') /\
  w' = set_tasks (tasks w') w.

Definition sortTasksByDueDate (ascending : bool) (w w' : World) : Prop :=
  std_sort (by_dueDate ascending) (tasks w) (tasks w') /\
  w' = set_tasks (tasks w') w.

(** The order that a sort on [key] aims at. *)
Definition ordered (key : Task -> Z) (ascending : bool) (a b : Task) : Prop :=
  if ascending then key a <= key b else key b <= key a.

(** Insertion sort, one way to meet the postcondition of [std::sort]. *)
Fixpoint insert_sorted (comp : Task -> Task -> bool) (t : Task) (l : list Task)
  : list Task :=
  match l with
  | [] => [t]
  | a :: l' => if comp t a then t :: l else a :: insert_sorted comp t l'
  end.

Definition insertion_sort (comp : Task -> Task -> bool) (l : list Task)
  : list Task :=
  fold_right (insert_sorted comp) [] l.

(** A sort is stable for a key when the tasks of each key value keep their
    relative order. *)
Definition stable_for (key : Task -> Z) (l l' : list Task) : Prop :=
  forall k, filter (fun t => key t =? k) l' = filter (fun t => key t =? k) l.

(** ** [Task::displayCompletionPercentage] *)

Definition double := spec_float.

(** [static_cast<double>(n)], and the literal [100.0]. *)
Definition double_of_Z (n : Z) : double := binary_normalize 53 1024 n 0 false.

Definition double_div : double -> double -> double := SFdiv 53 1024.
Definition double_mul : double -> double -> double := SFmul 53 1024.

(** The number that a [double] stands for; infinities and NaN stand for
    nothing and are given 0. *)
Definition double_value (x : double) : Q :=
  match x with
  | S754_finite s m e => (inject_Z (cond_Zopp s (Zpos m)) * 2 ^ e)%Q
  | _ => 0%Q
  end.

(** [(static_cast<double>(completedCount) / tasks.size()) * 100.0] *)
Definition percentage_of (completedCount size : Z) : double :=
  double_mul (double_div (double_of_Z completedCount) (double_of_Z size))
             (double_of_Z 100).

(** The loop that counts the completed tasks. *)
Definition count_completed (ts : list Task) : Z :=
  fold_left (fun completedCount t =>
               if completed t then completedCount + 1 else completedCount)
            ts 0.

(** What the function writes to [cout]: the message for an empty collection,
    which shows the literal 0, or the percentage, which is then printed with
    two decimals. *)
Inductive percentage_output :=
  | NoTasks
  | Percentage (percentage : double).

Definition displayCompletionPercentage (w : World) : percentage_output :=
  match tasks w with
  | [] => NoTasks
  | _ => Percentage (percentage_of (count_completed (tasks w))
                                   (Z.of_nat (length (tasks w))))
  end.

Definition shown_percentage (o : percentage_output) : double :=
  match o with
  | NoTasks => S754_zero false
  | Percentage p => p
  end.

(** ** Lines of the task file *)

(** A line as [saveTasksToFile] lays it out, for any three numbers. *)
Record line := mkLine { l_desc : text; l_prio : Z; l_comp : Z; l_due : Z }.

Definition render_line (l : line) : text :=
  l_desc l ++ PIPE :: show_Z (l_prio l) ++ SPACE ::
  show_Z (l_comp l) ++ SPACE :: show_Z (l_due l) ++ [NEWLINE].

Definition render_file (ls : list line) : text := concat (map render_line ls).

(** The description stops at the first delimiter and the three numbers fit
    their C++ types. *)
Definition line_wf (l : line) : Prop :=
  ~ In PIPE (l_desc l) /\
  INT_MIN <= l_prio l <= INT_MAX /\
  INT_MIN <= l_comp l <= INT_MAX /\
  TIME_MIN <= l_due l <= TIME_MAX.

(** The test that [loadTasksFromFile] applies to a line it has read. *)
Definition line_ok (l : line) : bool :=
  negb (at_end (l_desc l) || (l_prio l <? HIGHEST) || (LOWEST <? l_prio l)).

(** The tasks that the accepted lines give when the counter stands at [k]. *)
Fixpoint tasks_of_lines (k : Z) (ls : list line) : list Task :=
  match ls with
  | [] => []
  | l :: ls' =>
      if line_ok l
      then mkTask k (l_desc l) (l_prio l) (negb (l_comp l =? 0)) (l_due l)
           :: tasks_of_lines (k + 1) ls'
      else tasks_of_lines k ls'
  end.

Definition line_of_task (t : Task) : line :=
  mkLine (description t) (priority t) (if completed t then 1 else 0) (dueDate t).

(** Whether the three numbers that follow a delimiter can be read. *)
Definition trailer_parses (t : text) : bool :=
  let (_, f2) := read_int32 (open_istream t) in
  let (_, f3) := read_int32 f2 in
  let (_, f4) := read_time_t f3 in
  good f2 && good f3 && good f4.

(** What follows a number in the file: a character that is not a digit. *)
Definition ends_number (rest : text) : Prop :=
  match rest with c :: _ => isdigit c = false | [] => False end.

(** The state after the loop has gone through the lines [ls]. *)
Definition skipped (ls : list line) : list string :=
  map (fun _ => MSG_SKIP_LINE) (filter (fun l => negb (line_ok l)) ls).

Definition after_lines (ls : list line) (w : World) : World :=
  mkWorld (tasks w ++ tasks_of_lines (nextId w) ls)
          (nextId w + Z.of_nat (length (filter line_ok ls)))
          (disk w)
          (cerr w ++ skipped ls).

(** What stops the loop: no delimiter in what is left of the file (which
    covers the end of the file), or a delimiter followed by text from which
    the three numbers cannot be read. *)
Definition stops_load (rest : text) : Prop :=
  ~ In PIPE rest \/
  exists desc tr,
    rest = desc ++ PIPE :: tr /\ ~ In PIPE desc /\ trailer_parses tr = false.

(** What a task holds besides its id. *)
Definition payload (t : Task) : text * Priority * bool * Z :=
  (description t, priority t, completed t, dueDate t).

(** What an accepted line gives to its task. *)
Definition line_payload (l : line) : text * Priority * bool * Z :=
  (l_desc l, l_prio l, negb (l_comp l =? 0), l_due l).

Definition valid_task (t : Task) : Prop :=
  description t <> [] /\ ~ In PIPE (description t) /\
  HIGHEST <= priority t <= LOWEST /\
  TIME_MIN <= dueDate t <= TIME_MAX.

(** The ids [k], [k+1], ..., [k+n-1]. *)
Fixpoint ids_from (k : Z) (n : nat) : list Z :=
  match n with
  | O => []
  | S n' => k :: ids_from (k + 1) n'
  end.

(** ** The process: operations applied one after the other *)

Inductive op :=
  | OpLoad (filename : string)
  | OpSave (filename : string)
  | OpAdd (desc : text) (prio : Priority) (due : Z)
  | OpDelete (i : Z)
  | OpUpdate (i : Z) (desc : option text) (prio : option Priority)
             (comp : option bool) (due : option Z)
  | OpSortByPriority (ascending : bool)
  | OpSortByDueDate (ascending : bool).

Definition step (w : World) (o : op) (w' : World) : Prop :=
  match o with
  | OpLoad f => loadTasksFromFile f w = Some w'
  | OpSave f => w' = saveTasksToFile f w
  | OpAdd d p due => w' = addTask d p due w
  | OpDelete i => w' = deleteTask i w
  | OpUpdate i d p c due => w' = updateTask i d p c due w
  | OpSortByPriority a => sortTasksByPriority a w w'
  | OpSortByDueDate a => sortTasksByDueDate a w w'
  end.

(** The ids that an operation hands out: the constructor runs once in a
    successful [addTask] and once for each task that a load builds. *)
Definition new_ids (w : World) (o : op) (w' : World) : list Z :=
  match o with
  | OpAdd d p _ => if fst (validateTask d p) then [nextId w] else []
  | OpLoad f =>
      match readable (disk w) f with
      | Some _ => map id (tasks w')
      | None => []
      end
  | _ => []
  end.

(** A load that opens its file and builds no task puts the counter back
    to 1. *)
Definition restarts (w : World) (o : op) (w' : World) : bool :=
  match o with
  | OpLoad f =>
      match readable (disk w) f, tasks w' with
      | Some _, [] => true
      | _, _ => false
      end
  | _ => false
  end.

(** A process: the state, all ids handed out so far ([ever]), and those
    handed out since the counter was last put back to 1 ([since_restart]). *)
Record process := mkProcess {
  mem : World;
  ever : list Z;
  since_restart : list Z
}.

Definition boot (fs : fsys) : process := mkProcess (initial_world fs) [] [].

Definition exec (p : process) (o : op) (p' : process) : Prop :=
  step (mem p) o (mem p') /\
  ever p' = ever p ++ new_ids (mem p) o (mem p') /\
  since_restart p' =
    if restarts (mem p) o (mem p') then []
    else since_restart p ++ new_ids (mem p) o (mem p').

Inductive run : process -> list op -> process -> Prop :=
  | run_nil : forall p, run p [] p
  | run_cons : forall p o p1 os p2,
      exec p o p1 -> run p1 os p2 -> run p (o :: os) p2.
Definition is_load (o : op) : bool :=
  match o with OpLoad _ => true | _ => false end.

(** The way [main] uses the operations: a load, if any, comes first. *)
Definition load_only_first (os : list op) : bool :=
  forallb (fun o => negb (is_load o)) (tl os).

(** What holds of every process: the counter is positive and lies above
    every id of the collection and every id handed out since the counter
    was last put back to 1. *)
Definition counter_above (p : process) : Prop :=
  1 <= nextId (mem p) /\
  (forall t, In t (tasks (mem p)) -> id t < nextId (mem p)) /\
  (forall i, In i (since_restart p) -> i < nextId (mem p)).

(** ** Sample data for worked examples *)

(** The file name that [main] uses. *)
Definition TASKS_TXT : string := "tasks.txt".

(** A disk that holds [TASKS_TXT] with the given content, or no file at all;
    every path can be written. *)
Definition disk_with (content : option text) : fsys :=
  mkFsys (fun p => if String.eqb p TASKS_TXT then content else None)
         (fun _ => true).

Definition txt (s : string) : text := list_ascii_of_string s.

(** Lines are joined with the newline character. *)
Fixpoint file_of_lines (ls : list string) : text :=
  match ls with
  | [] => []
  | l :: ls' => txt l ++ NEWLINE :: file_of_lines ls'
  end.

(** Five lines as [saveTasksToFile] lays them out: the second has an empty
    description, the third a priority outside the five ranks, the fourth and
    the fifth a completion field that is neither 0 nor 1. *)
Definition sample_lines : list line :=
  [ mkLine (txt "buy milk") 3 0 1700000000;
    mkLine [] 2 0 1;
    mkLine (txt "b") 9 1 5;
    mkLine (txt "c") 1 (-1) 7;
    mkLine (txt "d e") 5 2 (-86400) ].

(** Two more lines; the numbers of the first cannot be read. *)
Definition sample_rest : text := file_of_lines ["d|x 0 1"; "e|1 0 5"]%string.

(** Four tasks, one of them completed. *)
Definition four_tasks : list Task :=
  [ mkTask 1 (txt "a") HIGH false 10;
    mkTask 2 (txt "b") LOW true 20;
    mkTask 3 (txt "c") MEDIUM false 30;
    mkTask 4 (txt "d") LOWEST false 40 ].

(** A hundred tasks with the ids 1 to 100; the first seven are completed. *)
Definition hundred_tasks : list Task :=
  map (fun k => mkTask (Z.of_nat k) (txt "t") MEDIUM (Nat.leb k 7) 0)
      (seq 1 100).

Definition sample_tasks : list Task :=
  [ mkTask 1 (txt "buy milk") MEDIUM false 1700000000;
    mkTask 2 (txt "call home") HIGHEST true (-86400);
    mkTask 5 (txt "x") LOWEST false 0 ].

(** ** [priorityToString], [stringToPrioritySafe] *)

Definition priorityToString (prio : Priority) : string :=
  match prio with
  | 1 => "Highest"
  | 2 => "High"
  | 3 => "Medium"
  | 4 => "Low"
  | 5 => "Lowest"
  | _ => "Unknown"
  end.

(** [str == "1"] and so on. *)
Definition text_is (str : text) (lit : string) : bool :=
  String.eqb (string_of_list_ascii str) lit.

Definition stringToPrioritySafe (str : text) : option Priority :=
  if text_is str "1" then Some HIGHEST
  else if text_is str "2" then Some HIGH
  else if text_is str "3" then Some MEDIUM
  else if text_is str "4" then Some LOW
  else if text_is str "5" then Some LOWEST
  else None.

(** ** Records that [validateTask] accepts *)

Definition record_ok (t : Task) : bool :=
  fst (validateTask (description t) (priority t)).

(** The record that a successful [updateTask] leaves: every field that was
    provided is stored. *)
Definition with_fields (t : Task) (desc : option text) (prio : option Priority)
    (comp : option bool) (due : option Z) : Task :=
  mkTask (id t)
         (match desc with Some d => d | None => description t end)
         (match prio with Some p => p | None => priority t end)
         (match comp with Some c => c | None => completed t end)
         (match due with Some d => d | None => dueDate t end).

(** A line of the file without its final newline. *)
Definition render_unfinished (l : line) : text := removelast (render_line l).

(** The call that choice 4 of [main] makes:
    [Task::updateTask(id, {}, {}, true, {})]. *)
Definition mark_completed (i : Z) (w : World) : World :=
  updateTask i None None (Some true) None w.

Definition is_save (o : op) : bool :=
  match o with OpSave _ => true | _ => false end.

(** ** A sample session

    [main] loads a file of one line, the user adds a task and deletes the
    loaded one. *)
Definition session_disk : fsys :=
  disk_with (Some (file_of_lines ["a|1 0 0"]%string)).

Definition session_ops : list op :=
  [OpLoad TASKS_TXT; OpAdd (txt "x") LOW 5; OpDelete 1].

Definition session_end : process :=
  mkProcess (mkWorld [mkTask 2 (txt "x") LOW false 5] 3 session_disk [])
            [1; 2] [1; 2].

(** Text from which [operator>>] reads no integer: at its start stands a
    character that is neither white space, nor a sign, nor a digit. *)
Definition starts_no_number (t : text) : bool :=
  match t with
  | [] => false
  | c :: _ =>
      negb (isspace c || isdigit c || Ascii.eqb c MINUS || Ascii.eqb c PLUS)
  end.

(** Three tasks; the description of the second one holds the delimiter. *)
Definition tasks_with_delimiter : list Task :=
  [ mkTask 1 (txt "a") HIGH false 10;
    mkTask 2 (txt "b|c") LOW true 20;
    mkTask 3 (txt "d") MEDIUM false 30 ].

(** ** [Task::displayTasks], [Task::filterTasksByStatus]

    Both write a table to [cout]; the functions below give the text written.
    [cout << left << setw(n) << s] writes [s] and then blanks up to the
    width; a longer [s] is written in full. *)
Definition setw_left (n : nat) (s : text) : text :=
  s ++ repeat SPACE (n - length s).

Definition table_row (c1 c2 c3 c4 c5 : text) : text :=
  setw_left 5 c1 ++ setw_left 25 c2 ++ setw_left 10 c3 ++ setw_left 10 c4 ++
  setw_left 20 c5 ++ [NEWLINE].

Definition table_header : text :=
  table_row (txt "ID") (txt "Description") (txt "Priority") (txt "Status")
            (txt "Due Date").

Definition status_text (c : bool) : text :=
  txt (if c then "Completed" else "Pending").

(** The content of [buffer]: what [strftime] makes of the local time of the
    due date, or the fallback when [localtime_s] fails.  The calendar of the
    machine is not part of the program: [local_date] stands for
    [localtime_s] followed by [strftime(.., "%Y-%m-%d", ..)], [None] for its
    failure. *)
Definition date_buffer (local_date : Z -> option text) (due : Z) : text :=
  match local_date due with
  | Some s => s
  | None => txt "InvalidDate"
  end.

Definition task_row (local_date : Z -> option text) (t : Task) : text :=
  table_row (show_Z (id t)) (description t)
            (txt (priorityToString (priority t)))
            (status_text (completed t))
            (date_buffer local_date (dueDate t)).

Definition displayTasks (local_date : Z -> option text) (w : World) : text :=
  match tasks w with
  | [] => txt "No tasks available." ++ [NEWLINE]
  | _ => table_header ++ concat (map (task_row local_date) (tasks w))
  end.

(** The loop of [filterTasksByStatus]: the flag [foundAny] and the rows
    written so far. *)
Fixpoint filter_loop (local_date : Z -> option text) (completedStatus : bool)
    (ts : list Task) (foundAny : bool) (out : text) : bool * text :=
  match ts with
  | [] => (foundAny, out)
  | t :: ts' =>
      if Bool.eqb (completed t) completedStatus
      then filter_loop local_date completedStatus ts' true
                       (out ++ task_row local_date t)
      else filter_loop local_date completedStatus ts' foundAny out
  end.

Definition filterTasksByStatus (local_date : Z -> option text)
    (completedStatus : bool) (w : World) : text :=
  let (foundAny, out) :=
    filter_loop local_date completedStatus (tasks w) false table_header in
  if foundAny then out
  else out ++ txt "No tasks found with status: "
           ++ status_text completedStatus ++ [NEWLINE].

(** ** The console: [cin], [cout], and the functions that talk to the user

    [cin] is an input stream like the file; [cout] is the list of the pieces
    written, text or a [double] in [fixed] notation with two decimals; what
    goes to [cerr] is kept in the [World], one line per entry as before. *)

Inductive out_item :=
  | Text (t : text)
  | Fixed2 (x : double).

Record Session := mkSession {
  world : World;
  cin : istream;
  cout : list out_item
}.

(** What is outside the program: [mktime] on a [tm] with the given
    [tm_year], [tm_mon] and [tm_mday], [tm_hour] 12 and zero elsewhere (-1
    when the time cannot be represented); [localtime_s] followed by
    [strftime]; and the permutation that [std::sort] picks. *)
Record machine := mkMachine {
  mktime : Z -> Z -> Z -> Z;
  local_date : Z -> option text;
  sort_impl : (Task -> Task -> bool) -> list Task -> list Task
}.

(** A function that talks to the user returns a value and leaves a session,
    or its behaviour is undefined (a signed overflow, the use of a variable
    that was never given a value), or its loop is still running when the
    fuel is spent. *)
Inductive outcome (A : Type) : Type :=
  | Returned (a : A) (s : Session)
  | Undefined
  | Unfinished.
Arguments Returned {A} a s.
Arguments Undefined {A}.
Arguments Unfinished {A}.

Definition M (A : Type) : Type := Session -> outcome A.

Definition ret {A : Type} (a : A) : M A := fun s => Returned a s.

Definition bind {A B : Type} (m : M A) (k : A -> M B) : M B :=
  fun s =>
    match m s with
    | Returned a s' => k a s'
    | Undefined => Undefined
    | Unfinished => Unfinished
    end.

Notation "x <- m ;; k" := (bind m (fun x => k))
  (at level 61, m at next level, right associativity).
Notation "m ;;; k" := (bind m (fun _ => k))
  (at level 61, right associativity).

Definition undefined {A : Type} : M A := fun _ => Undefined.
Definition unfinished {A : Type} : M A := fun _ => Unfinished.

(** [cout << t] *)
Definition print (t : text) : M unit :=
  fun s => Returned tt (mkSession (world s) (cin s) (cout s ++ [Text t])).

Definition print_line (l : string) : M unit := print (txt l ++ [NEWLINE]).

(** [cerr << msg] *)
Definition complain (msg : string) : M unit :=
  fun s => Returned tt (mkSession (say [msg] (world s)) (cin s) (cout s)).

(** An input function applied to [cin]. *)
Definition extract {A : Type} (f : istream -> A * istream) : M A :=
  fun s =>
    let (a, c) := f (cin s) in Returned a (mkSession (world s) c (cout s)).

(** [!cin] *)
Definition cin_fails : M bool := fun s => Returned (failbit (cin s)) s.

(** [cin.clear()] *)
Definition clear (s : istream) : istream := mkIstream (buf s) false false.

Definition cin_clear : M unit := extract (fun c => (tt, clear c)).

(** [cin.ignore(numeric_limits<streamsize>::max(), '\n')] *)
Definition cin_ignore_line : M unit :=
  extract (fun c => (tt, ignore c NEWLINE)).

(** A static method of [Task] applied to the static members. *)
Definition call (f : World -> World) : M unit :=
  fun s => Returned tt (mkSession (f (world s)) (cin s) (cout s)).

(** The body of every [if (!cin)]: the flags are cleared, the rest of the
    line is dropped, the message is written. *)
Definition recover (msg : string) : M unit :=
  cin_clear ;;; cin_ignore_line ;;; complain msg.

(** [cin >> str] for a [std::string]: white space is skipped, then the
    characters up to the next white space are taken; meeting the end of the
    input sets [eofbit], and [failbit] too when no character was left. *)
Fixpoint span_word (t : text) : text * text :=
  match t with
  | c :: t' =>
      if isspace c then ([], t)
      else let (wd, r) := span_word t' in (c :: wd, r)
  | [] => ([], [])
  end.

Definition read_word (s : istream) : text * istream :=
  if good s then
    match skipws (buf s) with
    | [] => ([], mkIstream [] true true)
    | c :: t =>
        let (wd, rest) := span_word (c :: t) in
        (wd, mkIstream rest (at_end rest) false)
    end
  else ([], sentry_failed s).

(** [cin >> c] for a [char]: white space is skipped and one character is
    taken; [None] when nothing is stored in [c]. *)
Definition read_char (s : istream) : option ascii * istream :=
  if good s then
    match skipws (buf s) with
    | [] => (None, mkIstream [] true true)
    | c :: t => (Some c, mkIstream t false false)
    end
  else (None, sentry_failed s).

(** ** [promptForPriority], [promptForDueDate] *)

Definition PROMPT_PRIORITY : text :=
  txt "Enter priority (1=Highest, 2=High, 3=Medium, 4=Low, 5=Lowest): ".
Definition MSG_PRIORITY_INPUT : string :=
  "Invalid input. Please enter a number (1-5).".
Definition MSG_PRIORITY_RANGE : string := "Invalid priority. Must be 1 to 5.".
Definition PROMPT_DUE_DATE : text := txt "Enter due date (YYYY MM DD): ".
Definition MSG_DATE_INPUT : string := "Invalid date input. Please try again.".
Definition MSG_DATE_FAILED : string :=
  "Failed to parse that date. Please try again.".

Fixpoint promptForPriority (fuel : nat) : M Priority :=
  match fuel with
  | O => unfinished
  | S fuel' =>
      print PROMPT_PRIORITY ;;;
      prioStr <- extract read_word ;;
      failed <- cin_fails ;;
      if failed then
        recover MSG_PRIORITY_INPUT ;;; promptForPriority fuel'
      else
        match stringToPrioritySafe prioStr with
        | Some prio => ret prio
        | None => complain MSG_PRIORITY_RANGE ;;; promptForPriority fuel'
        end
  end.

(** [year - 1900] and [month - 1] are computed in [int]. *)
Fixpoint promptForDueDate (mc : machine) (fuel : nat) : M Z :=
  match fuel with
  | O => unfinished
  | S fuel' =>
      print PROMPT_DUE_DATE ;;;
      year <- extract read_int32 ;;
      month <- extract read_int32 ;;
      day <- extract read_int32 ;;
      failed <- cin_fails ;;
      if failed then
        recover MSG_DATE_INPUT ;;; promptForDueDate mc fuel'
      else if (year - 1900 <? INT_MIN) || (month - 1 <? INT_MIN) then undefined
      else
        let due := mktime mc (year - 1900) (month - 1) day in
        if due =? -1 then
          complain MSG_DATE_FAILED ;;; promptForDueDate mc fuel'
        else ret due
  end.

(** ** [main] *)

Definition MENU : text :=
  NEWLINE ::
  file_of_lines
    [ "========== TO-DO LIST MANAGER ==========";
      "1. Add Task";
      "2. Edit Task";
      "3. Delete Task";
      "4. Mark Task as Completed";
      "5. Display All Tasks";
      "6. Filter by Status (Completed/Pending)";
      "7. Sort Tasks by Priority";
      "8. Sort Tasks by Due Date";
      "9. Display Completion Percentage";
      "10. Save Tasks";
      "0. Exit";
      "========================================" ]%string
  ++ txt "Enter your choice: ".

Definition MENU_STATUS : text :=
  file_of_lines ["Filter tasks by status:"; "1. Completed"; "2. Pending"]%string
  ++ txt "Enter your choice: ".
Definition MENU_SORT_PRIORITY : text :=
  file_of_lines ["Sort by priority:"; "1. Ascending"; "2. Descending"]%string
  ++ txt "Enter your choice: ".
Definition MENU_SORT_DUE_DATE : text :=
  file_of_lines ["Sort by due date:"; "1. Ascending"; "2. Descending"]%string
  ++ txt "Enter your choice: ".

Definition MSG_INPUT : string := "Invalid input. Try again.".
Definition MSG_ID : string := "Invalid ID.".
Definition MSG_COMPLETION : string := "Invalid input for completion.".
Definition MSG_CHOICE : string := "Invalid choice.".
Definition MSG_MENU_CHOICE : string := "Invalid menu choice. Please try again.".
Definition SAVED : text := txt "Tasks saved to file." ++ [NEWLINE].
Definition GOODBYE : text := txt "Exiting program. Goodbye." ++ [NEWLINE].

(** [cin >> option] into a [char] that was not initialized, followed by
    [option == 'y' || option == 'Y']: when nothing was read the comparison
    uses an indeterminate value. *)
Definition answers_yes : M bool :=
  o <- extract read_char ;;
  match o with
  | Some c => ret (Ascii.eqb c "y" || Ascii.eqb c "Y")
  | None => undefined
  end.

(** [cin >> n] into an [int], then the [if (!cin)] that ends the case with
    a message: [None] when that happened. *)
Definition read_number (msg : string) : M (option Z) :=
  n <- extract read_int32 ;;
  failed <- cin_fails ;;
  if failed then recover msg ;;; ret None else ret (Some n).

Definition case_add (mc : machine) (fuel : nat) : M unit :=
  cin_ignore_line ;;;
  print (txt "Enter task description: ") ;;;
  desc <- extract (fun c => getline c NEWLINE) ;;
  prio <- promptForPriority fuel ;;
  due <- promptForDueDate mc fuel ;;
  call (addTask desc prio due) ;;;
  print_line "Task added successfully.".

Definition case_edit (mc : machine) (fuel : nat) : M unit :=
  print (txt "Enter task ID to edit: ") ;;;
  read <- read_number MSG_ID ;;
  match read with
  | None => ret tt
  | Some i =>
      cin_ignore_line ;;;
      print (txt "Update description? (y/n): ") ;;;
      dOption <- answers_yes ;;
      descOpt <- (if dOption then
                    cin_ignore_line ;;;
                    print (txt "New description: ") ;;;
                    newDesc <- extract (fun c => getline c NEWLINE) ;;
                    ret (Some newDesc)
                  else ret None) ;;
      print (txt "Update priority? (y/n): ") ;;;
      pOption <- answers_yes ;;
      prioOpt <- (if pOption then
                    newPrio <- promptForPriority fuel ;; ret (Some newPrio)
                  else ret None) ;;
      print (txt "Update completion status? (y/n): ") ;;;
      cOption <- answers_yes ;;
      compRead <- (if cOption then
                     print (txt "Mark as completed? (1=Yes, 0=No): ") ;;;
                     compVal <- read_number MSG_COMPLETION ;;
                     match compVal with
                     | None => ret None
                     | Some v => ret (Some (Some (negb (v =? 0))))
                     end
                   else ret (Some None)) ;;
      match compRead with
      | None => ret tt
      | Some compOpt =>
          print (txt "Update due date? (y/n): ") ;;;
          dateOption <- answers_yes ;;
          dueOpt <- (if dateOption then
                       newDue <- promptForDueDate mc fuel ;; ret (Some newDue)
                     else ret None) ;;
          call (updateTask i descOpt prioOpt compOpt dueOpt) ;;;
          print_line "Task updated (if ID was valid)."
      end
  end.

Definition case_delete : M unit :=
  print (txt "Enter task ID to delete: ") ;;;
  read <- read_number MSG_ID ;;
  match read with
  | None => ret tt
  | Some i => call (deleteTask i) ;;; print_line "Task deleted (if ID was valid)."
  end.

Definition case_mark : M unit :=
  print (txt "Enter task ID to mark as completed: ") ;;;
  read <- read_number MSG_ID ;;
  match read with
  | None => ret tt
  | Some i =>
      call (mark_completed i) ;;;
      print_line "Task marked as completed (if ID was valid)."
  end.

Definition case_display (mc : machine) : M unit :=
  fun s => print (displayTasks (local_date mc) (world s)) s.

Definition case_filter (mc : machine) : M unit :=
  print MENU_STATUS ;;;
  read <- read_number MSG_CHOICE ;;
  match read with
  | None => ret tt
  | Some 1 =>
      fun s => print (filterTasksByStatus (local_date mc) true (world s)) s
  | Some 2 =>
      fun s => print (filterTasksByStatus (local_date mc) false (world s)) s
  | Some _ => complain MSG_CHOICE
  end.

(** [std::sort] on the collection with one of the two lambdas. *)
Definition sort_tasks (mc : machine) (comp : Task -> Task -> bool) (w : World)
  : World :=
  set_tasks (sort_impl mc comp (tasks w)) w.

Definition case_sort (mc : machine) (menu : text)
    (lambda : bool -> Task -> Task -> bool) : M unit :=
  print menu ;;;
  read <- read_number MSG_CHOICE ;;
  match read with
  | None => ret tt
  | Some 1 => call (sort_tasks mc (lambda true))
  | Some 2 => call (sort_tasks mc (lambda false))
  | Some _ => complain MSG_CHOICE
  end.

Definition case_percentage : M unit :=
  fun s =>
    match displayCompletionPercentage (world s) with
    | NoTasks => print_line "No tasks. Completion percentage: 0%" s
    | Percentage x =>
        Returned tt
          (mkSession (world s) (cin s)
                     (cout s ++ [Text (txt "Completion Percentage: "); Fixed2 x;
                                 Text (txt "%" ++ [NEWLINE])]))
    end.

Definition case_save : M unit :=
  call (saveTasksToFile TASKS_TXT) ;;; print SAVED.

(** One turn of [while (running)]; the value is [running] at its end. *)
Definition menu_turn (mc : machine) (fuel : nat) : M bool :=
  print MENU ;;;
  choice <- extract read_int32 ;;
  failed <- cin_fails ;;
  if failed then recover MSG_INPUT ;;; ret true
  else
    match choice with
    | 1 => case_add mc fuel ;;; ret true
    | 2 => case_edit mc fuel ;;; ret true
    | 3 => case_delete ;;; ret true
    | 4 => case_mark ;;; ret true
    | 5 => case_display mc ;;; ret true
    | 6 => case_filter mc ;;; ret true
    | 7 => case_sort mc MENU_SORT_PRIORITY by_priority ;;; ret true
    | 8 => case_sort mc MENU_SORT_DUE_DATE by_dueDate ;;; ret true
    | 9 => case_percentage ;;; ret true
    | 10 => case_save ;;; ret true
    | 0 => ret false
    | _ => complain MSG_MENU_CHOICE ;;; ret true
    end.

Fixpoint menu_loop (mc : machine) (fuel : nat) : M unit :=
  match fuel with
  | O => unfinished
  | S fuel' =>
      running <- menu_turn mc fuel' ;;
      if running then menu_loop mc fuel' else ret tt
  end.

(** [main] on a file system and the text that [cin] will give. *)
Definition main (mc : machine) (fuel : nat) (fs : fsys) (input : text)
  : outcome unit :=
  match loadTasksFromFile TASKS_TXT (initial_world fs) with
  | None => Unfinished
  | Some w =>
      (menu_loop mc fuel ;;; print GOODBYE)
        (mkSession w (open_istream input) [])
  end.

(** ** Notions used to state what the console functions do *)

(** A word as [cin >> str] takes it: not empty, no white space in it. *)
Definition plain_word (wd : text) : Prop :=
  wd <> [] /\ Forall (fun c => isspace c = false) wd.

(** Words typed one per line. *)
Definition typed_lines (wds : list text) : text :=
  concat (map (fun wd => wd ++ [NEWLINE]) wds).

(** Every session that [m] returns is related to the one it started from. *)
Definition respects {A : Type} (R : Session -> Session -> Prop) (m : M A)
  : Prop :=
  forall s a s', m s = Returned a s' -> R s s'.

(** The collection as every process has it: ids that differ from one
    another, are positive and lie below the counter, on records that
    [validateTask] accepts. *)
Definition store_sound (w : World) : Prop :=
  1 <= nextId w /\
  NoDup (map id (tasks w)) /\
  Forall (fun t => record_ok t = true /\ 1 <= id t < nextId w) (tasks w).

(** The static members and the files are those of [s]; [cerr] may have
    grown. *)
Definition same_store (s s' : Session) : Prop :=
  tasks (world s') = tasks (world s) /\
  nextId (world s') = nextId (world s) /\
  disk (world s') = disk (world s).

(** A [mktime] for the examples: days of 86400 seconds, months of 31 days. *)
Definition sample_machine : machine :=
  mkMachine (fun y m d => (((y - 70) * 12 + m) * 31 + d) * 86400 + 43200)
            (fun _ => None)
            insertion_sort.

(** Nothing but white space is left to read. *)
Definition exhausted (s : Session) : Prop := skipws (buf (cin s)) = [].

(** What a user types to add a task, save and leave. *)
Definition sample_input : text :=
  file_of_lines ["1"; "buy milk"; "3"; "2024 1 5"; "10"; "0"]%string.

(** The session in which that input leaves the program, on a machine
    without tasks.txt. *)
Definition sample_exit : Session :=
  match main sample_machine 8 (disk_with None) sample_input with
  | Returned _ s => s
  | _ => mkSession (initial_world (disk_with None)) (open_istream []) []
  end.

(** Two states of the static members and the files that differ in what was
    written to [cerr] at most. *)
Definition alike (w w' : World) : Prop :=
  tasks w' = tasks w /\ nextId w' = nextId w /\ disk w' = disk w.

(** From [a] to [b] the program has applied operations of the process, none
    of them a load: a process that stands where [a] stands can follow. *)
Definition performs (a b : Session) : Prop :=
  forall p, alike (world a) (mem p) ->
  exists os p',
    forallb (fun o => negb (is_load o)) os = true /\
    run p os p' /\ alike (world b) (mem p').

(** The sessions in which the menu is shown again: [s'] comes from [s]
    through turns of the loop that left [running] true. *)
Inductive loop_reaches (mc : machine) : Session -> Session -> Prop :=
  | reaches_here : forall s, loop_reaches mc s s
  | reaches_next : forall fuel s s1 s2,
      menu_turn mc fuel s = Returned true s1 ->
      loop_reaches mc s1 s2 -> loop_reaches mc s s2.

(** * Properties *)

(** ** Decimal digits *)

Section Decimal.

Lemma digit_cases (d : Z) :
  0 <= d < 10 ->
  d = 0 \/ d = 1 \/ d = 2 \/ d = 3 \/ d = 4 \/
  d = 5 \/ d = 6 \/ d = 7 \/ d = 8 \/ d = 9.
Proof. lia. Qed.

Lemma digit_char_val (d : Z) : 0 <= d < 10 -> digit_val (digit_char d) = d.
Proof.
  intros H. destruct (digit_cases d H) as [E|[E|[E|[E|[E|[E|[E|[E|[E|E]]]]]]]]];
    subst d; reflexivity.
Qed.

Lemma digit_char_isdigit (d : Z) : 0 <= d < 10 -> isdigit (digit_char d) = true.
Proof.
  intros H. destruct (digit_cases d H) as [E|[E|[E|[E|[E|[E|[E|[E|[E|E]]]]]]]]];
    subst d; reflexivity.
Qed.

(** A digit is neither white space, nor a sign, nor one of the separators. *)
Lemma isdigit_plain (c : ascii) :
  isdigit c = true ->
  isspace c = false /\ Ascii.eqb c MINUS = false /\ Ascii.eqb c PLUS = false.
Proof.
  unfold isdigit, isspace. intros H.
  apply andb_true_iff in H. destruct H as [H1 H2].
  apply Nat.leb_le in H1. apply Nat.leb_le in H2.
  repeat split.
  - apply orb_false_iff. split.
    + apply Nat.eqb_neq. lia.
    + apply andb_false_iff. right. apply Nat.leb_gt. lia.
  - apply Ascii.eqb_neq. intros E. subst c. cbn in H1. lia.
  - apply Ascii.eqb_neq. intros E. subst c. cbn in H1. lia.
Qed.

Lemma put_digits_value (fuel : nat) :
  forall n acc, 0 <= n < 10 * 2 ^ Z.of_nat fuel ->
  digits_from 0 (put_digits fuel n acc) = digits_from n acc.
Proof.
  induction fuel as [|fuel IH]; intros n acc Hn.
  - cbn [put_digits]. unfold digits_from. cbn [fold_left].
    change (2 ^ Z.of_nat 0) with 1 in Hn.
    rewrite Z.mod_small by lia. rewrite digit_char_val by lia.
    f_equal.
  - cbn [put_digits].
    pose proof (Z.div_mod n 10 ltac:(lia)) as Hdm.
    pose proof (Z.mod_pos_bound n 10 ltac:(lia)) as Hm.
    destruct (n / 10 =? 0) eqn:Hq.
    + apply Z.eqb_eq in Hq. unfold digits_from. cbn [fold_left].
      rewrite digit_char_val by lia. f_equal. lia.
    + apply Z.eqb_neq in Hq.
      rewrite IH.
      * unfold digits_from. cbn [fold_left].
        rewrite digit_char_val by lia. f_equal. lia.
      * rewrite Nat2Z.inj_succ, Z.pow_succ_r in Hn by lia.
        split; [apply Z.div_pos; lia|].
        apply Z.div_lt_upper_bound; lia.
Qed.

Lemma put_digits_all_digits (fuel : nat) :
  forall n acc, 0 <= n -> Forall (fun c => isdigit c = true) acc ->
  Forall (fun c => isdigit c = true) (put_digits fuel n acc).
Proof.
  induction fuel as [|fuel IH]; intros n acc Hn Hacc; cbn [put_digits].
  - constructor; [apply digit_char_isdigit, Z.mod_pos_bound; lia | exact Hacc].
  - destruct (n / 10 =? 0).
    + constructor; [apply digit_char_isdigit, Z.mod_pos_bound; lia | exact Hacc].
    + apply IH; [apply Z.div_pos; lia|].
      constructor; [apply digit_char_isdigit, Z.mod_pos_bound; lia | exact Hacc].
Qed.

Lemma put_digits_nonempty (fuel : nat) :
  forall n acc, put_digits fuel n acc <> [].
Proof.
  induction fuel as [|fuel IH]; intros n acc; cbn [put_digits].
  - discriminate.
  - destruct (n / 10 =? 0); [discriminate | apply IH].
Qed.

Lemma show_unsigned_value (n : Z) : 0 <= n -> digits_value (show_unsigned n) = n.
Proof.
  intros Hn. unfold show_unsigned.
  unfold digits_value.
  rewrite put_digits_value; [reflexivity|].
  rewrite Z2Nat.id by apply Z.log2_nonneg.
  destruct (Z.eq_dec n 0) as [->|Hz]; [cbn; lia|].
  pose proof (Z.log2_spec n ltac:(lia)) as [_ Hs].
  rewrite Z.pow_succ_r in Hs by apply Z.log2_nonneg. lia.
Qed.

Lemma show_unsigned_digits (n : Z) :
  0 <= n -> Forall (fun c => isdigit c = true) (show_unsigned n).
Proof. intros Hn. apply put_digits_all_digits; [exact Hn | constructor]. Qed.

Lemma show_unsigned_nonempty (n : Z) : show_unsigned n <> [].
Proof. apply put_digits_nonempty. Qed.

Lemma span_digits_app (ds rest : text) :
  Forall (fun c => isdigit c = true) ds ->
  match rest with [] => True | c :: _ => isdigit c = false end ->
  span_digits (ds ++ rest) = (ds, rest).
Proof.
  intros Hds Hrest. induction Hds as [|c ds Hc _ IH]; cbn [app span_digits].
  - destruct rest as [|c r]; [reflexivity | cbn [span_digits]; rewrite Hrest; reflexivity].
  - rewrite Hc, IH. reflexivity.
Qed.

End Decimal.

(** ** Reading what was written *)

Section Streams.

Lemma take_until_app (d : ascii) (a r : text) :
  ~ In d a -> take_until d (a ++ d :: r) = (a, Some r).
Proof.
  induction a as [|c a IH]; intros Hd; cbn [app take_until].
  - rewrite Ascii.eqb_refl. reflexivity.
  - destruct (Ascii.eqb c d) eqn:E.
    + apply Ascii.eqb_eq in E. subst c. exfalso. apply Hd. left. reflexivity.
    + rewrite IH; [reflexivity|]. intros Hin. apply Hd. right. exact Hin.
Qed.

Lemma take_until_shorter (d : ascii) (t a r : text) :
  take_until d t = (a, Some r) -> (length r < length t)%nat.
Proof.
  revert a r. induction t as [|c t IH]; intros a r; cbn [take_until].
  - discriminate.
  - destruct (Ascii.eqb c d).
    + intros E. injection E as _ E. subst r. cbn. lia.
    + destruct (take_until d t) as [a' [r'|]] eqn:Et; intros E;
        [|discriminate].
      injection E as _ E. subst r'. specialize (IH _ _ eq_refl). cbn. lia.
Qed.

Lemma read_int_show_Z (lo hi v : Z) (rest : text) :
  lo <= v <= hi -> ends_number rest ->
  read_int lo hi (mkIstream (show_Z v ++ rest) false false)
  = (v, mkIstream rest false false).
Proof.
  intros Hv Hrest.
  assert (Hend : at_end rest = false) by (destruct rest; [destruct Hrest | reflexivity]).
  assert (Hspan : forall n, 0 <= n ->
            span_digits (show_unsigned n ++ rest) = (show_unsigned n, rest)).
  { intros n Hn. apply span_digits_app; [apply show_unsigned_digits, Hn|].
    destruct rest; [exact I | exact Hrest]. }
  unfold read_int, read_digits, show_Z. cbn [good eofbit failbit negb andb buf].
  destruct (v <? 0) eqn:Hneg.
  - apply Z.ltb_lt in Hneg.
    cbn [app skipws]. change (isspace MINUS) with false. cbv iota.
    rewrite Ascii.eqb_refl, Hspan by lia.
    pose proof (show_unsigned_value (- v) ltac:(lia)) as Hval.
    destruct (show_unsigned (- v)) as [|c ds] eqn:E;
      [exfalso; exact (show_unsigned_nonempty _ E)|].
    rewrite Hval, Z.opp_involutive, Hend.
    destruct (v <? lo) eqn:E1; [apply Z.ltb_lt in E1; lia|].
    destruct (hi <? v) eqn:E2; [apply Z.ltb_lt in E2; lia|].
    reflexivity.
  - apply Z.ltb_ge in Hneg.
    pose proof (show_unsigned_value v Hneg) as Hval.
    pose proof (show_unsigned_digits v Hneg) as Hds.
    specialize (Hspan v Hneg).
    destruct (show_unsigned v) as [|c ds] eqn:E;
      [exfalso; exact (show_unsigned_nonempty _ E)|].
    assert (Hc : isdigit c = true) by (inversion Hds; assumption).
    destruct (isdigit_plain c Hc) as (Hsp & Hm & Hp).
    cbn [app skipws]. rewrite Hsp, Hm, Hp.
    change (c :: ds ++ rest) with ((c :: ds) ++ rest). rewrite Hspan.
    rewrite Hval, Hend.
    destruct (v <? lo) eqn:E1; [apply Z.ltb_lt in E1; lia|].
    destruct (hi <? v) eqn:E2; [apply Z.ltb_lt in E2; lia|].
    reflexivity.
Qed.

(** The same after the blank that separates two numbers. *)
Lemma read_int_blank_show_Z (lo hi v : Z) (rest : text) :
  lo <= v <= hi -> ends_number rest ->
  read_int lo hi (mkIstream (SPACE :: show_Z v ++ rest) false false)
  = (v, mkIstream rest false false).
Proof.
  intros Hv Hrest. rewrite <- (read_int_show_Z lo hi v rest Hv Hrest).
  unfold read_int. cbn [good eofbit failbit negb andb buf skipws].
  change (isspace SPACE) with true. cbv iota. reflexivity.
Qed.

Lemma render_line_app (l : line) (tail : text) :
  render_line l ++ tail =
  l_desc l ++ PIPE :: show_Z (l_prio l) ++ SPACE :: show_Z (l_comp l) ++
  SPACE :: show_Z (l_due l) ++ NEWLINE :: tail.
Proof.
  unfold render_line.
  repeat (rewrite <- app_assoc; cbn [app]). reflexivity.
Qed.

(** One turn of the loop on a line in the layout of [saveTasksToFile]. *)
Lemma load_turn_line (l : line) (tail : text) (w : World) :
  line_wf l ->
  load_turn (open_istream (render_line l ++ tail)) w =
  Continue (open_istream tail)
    (if line_ok l
     then push_back (mkTask (nextId w) (l_desc l) (l_prio l)
                            (negb (l_comp l =? 0)) (l_due l))
                    (set_nextId (nextId w + 1) w)
     else say [MSG_SKIP_LINE] w).
Proof.
  intros (Hpipe & Hp & Hc & Hd).
  rewrite render_line_app.
  unfold load_turn, open_istream.
  cbn [good eofbit failbit negb andb].
  unfold peek. cbn [good eofbit failbit negb andb buf].
  assert (Hne : exists c r,
    l_desc l ++ PIPE :: show_Z (l_prio l) ++ SPACE :: show_Z (l_comp l) ++
      SPACE :: show_Z (l_due l) ++ NEWLINE :: tail = c :: r).
  { destruct (l_desc l); cbn [app]; eauto. }
  destruct Hne as (c0 & r0 & Hne). rewrite Hne. rewrite <- Hne. clear c0 r0 Hne.
  unfold getline. cbn [good eofbit failbit negb andb buf].
  rewrite take_until_app by exact Hpipe.
  cbn [good eofbit failbit negb andb].
  unfold read_int32.
  rewrite read_int_show_Z; [|exact Hp | reflexivity].
  cbn [good eofbit failbit negb andb].
  rewrite read_int_blank_show_Z; [|exact Hc | reflexivity].
  cbn [good eofbit failbit negb andb].
  unfold read_time_t.
  rewrite read_int_blank_show_Z; [|exact Hd | reflexivity].
  cbn [good eofbit failbit negb andb].
  unfold ignore. cbn [good eofbit failbit negb andb buf take_until].
  change (Ascii.eqb NEWLINE NEWLINE) with true. cbv iota.
  unfold line_ok.
  destruct (at_end (l_desc l) || (l_prio l <? HIGHEST) || (LOWEST <? l_prio l));
    reflexivity.
Qed.

End Streams.

(** ** The load loop on a file of well-formed lines *)

Section LoadLines.

Lemma world_eq (w w' : World) :
  tasks w = tasks w' -> nextId w = nextId w' -> disk w = disk w' ->
  cerr w = cerr w' -> w = w'.
Proof. destruct w, w'; cbn; intros; subst; reflexivity. Qed.

Lemma after_lines_cons (l : line) (ls : list line) (w : World) :
  after_lines ls
    (if line_ok l
     then push_back (mkTask (nextId w) (l_desc l) (l_prio l)
                            (negb (l_comp l =? 0)) (l_due l))
                    (set_nextId (nextId w + 1) w)
     else say [MSG_SKIP_LINE] w)
  = after_lines (l :: ls) w.
Proof.
  unfold after_lines, skipped. cbn [tasks_of_lines filter map].
  destruct (line_ok l); cbn [negb map length]; apply world_eq; cbn;
    rewrite <- ?app_assoc; try reflexivity; lia.
Qed.

Lemma load_loop_lines (ls : list line) :
  forall (fuel : nat) (tail : text) (w : World),
  Forall line_wf ls ->
  load_loop (length ls + fuel) (open_istream (render_file ls ++ tail)) w
  = load_loop fuel (open_istream tail) (after_lines ls w).
Proof.
  induction ls as [|l ls IH]; intros fuel tail w Hwf.
  - cbn [render_file map concat app length Nat.add].
    f_equal. apply world_eq; cbn; rewrite ?app_nil_r; try reflexivity; lia.
  - inversion Hwf as [|? ? Hl Hls]; subst.
    unfold render_file. cbn [map concat length Nat.add load_loop].
    rewrite <- app_assoc. rewrite load_turn_line by exact Hl.
    fold (render_file ls). rewrite IH by exact Hls.
    rewrite after_lines_cons. reflexivity.
Qed.

Lemma load_turn_end (w : World) : load_turn (open_istream []) w = Break.
Proof. reflexivity. Qed.

Lemma take_until_absent (d : ascii) (t : text) :
  ~ In d t -> take_until d t = (t, None).
Proof.
  induction t as [|c t IH]; intros Hd; cbn [take_until]; [reflexivity|].
  destruct (Ascii.eqb c d) eqn:E.
  - apply Ascii.eqb_eq in E. subst c. exfalso. apply Hd. left. reflexivity.
  - rewrite IH; [reflexivity|]. intros Hin. apply Hd. right. exact Hin.
Qed.

(** No delimiter in what is left: [getline] meets the end, the loop is left. *)
Lemma load_turn_no_delimiter (t : text) (w : World) :
  ~ In PIPE t -> load_turn (open_istream t) w = Break.
Proof.
  intros Hd. unfold load_turn, open_istream, peek, getline.
  cbn [good eofbit failbit negb andb buf].
  destruct t as [|c t]; [reflexivity|].
  rewrite take_until_absent by exact Hd. reflexivity.
Qed.

(** The numbers after a delimiter cannot be read: the loop is left. *)
Lemma load_turn_bad_trailer (desc tr : text) (w : World) :
  ~ In PIPE desc -> trailer_parses tr = false ->
  load_turn (open_istream (desc ++ PIPE :: tr)) w = Break.
Proof.
  intros Hd Htr. unfold load_turn, open_istream, peek.
  cbn [good eofbit failbit negb andb buf].
  assert (Hne : exists c r, desc ++ PIPE :: tr = c :: r)
    by (destruct desc; cbn [app]; eauto).
  destruct Hne as (c0 & r0 & Hne). rewrite Hne. rewrite <- Hne. clear c0 r0 Hne.
  unfold getline. cbn [good eofbit failbit negb andb buf].
  rewrite take_until_app by exact Hd.
  cbn [good eofbit failbit negb andb].
  unfold trailer_parses, open_istream in Htr.
  destruct (read_int32 _) as [p f2].
  destruct (good f2); cbn [negb]; [|reflexivity].
  destruct (read_int32 f2) as [c f3].
  destruct (good f3); cbn [negb]; [|reflexivity].
  destruct (read_time_t f3) as [d f4].
  destruct (good f4); cbn [negb]; [|reflexivity].
  discriminate Htr.
Qed.

Lemma render_file_length (ls : list line) :
  (length ls <= length (render_file ls))%nat.
Proof.
  induction ls as [|l ls IH]; [apply Nat.le_refl|].
  unfold render_file in *. cbn [map concat length].
  rewrite length_app. unfold render_line at 1.
  rewrite length_app. cbn [length]. lia.
Qed.

End LoadLines.

(** ** The load loop on any input *)

Section LoadAny.

Lemma skipws_length (t : text) : (length (skipws t) <= length t)%nat.
Proof.
  induction t as [|c t IH]; cbn [skipws]; [apply Nat.le_refl|].
  destruct (isspace c); cbn [length]; lia.
Qed.

Lemma span_digits_length (t : text) :
  (length (snd (span_digits t)) <= length t)%nat.
Proof.
  induction t as [|c t IH]; cbn [span_digits]; [apply Nat.le_refl|].
  destruct (isdigit c); [|apply Nat.le_refl].
  destruct (span_digits t) as [ds r]. cbn [snd length] in *. lia.
Qed.

Lemma read_digits_length (lo hi : Z) (neg : bool) (t : text) :
  (length (buf (snd (read_digits lo hi neg t))) <= length t)%nat.
Proof.
  unfold read_digits. pose proof (span_digits_length t) as Hd.
  destruct (span_digits t) as [ds rest]. cbn [snd] in Hd.
  destruct ds; [exact Hd|]. cbv zeta.
  destruct (_ <? lo); [exact Hd|]. destruct (hi <? _); exact Hd.
Qed.

Lemma read_int_length (lo hi : Z) (s : istream) :
  (length (buf (snd (read_int lo hi s))) <= length (buf s))%nat.
Proof.
  unfold read_int. destruct (good s); [|apply Nat.le_refl].
  pose proof (skipws_length (buf s)) as Hs.
  destruct (skipws (buf s)) as [|c t]; [cbn; lia|].
  pose proof (read_digits_length lo hi true t).
  pose proof (read_digits_length lo hi false t).
  pose proof (read_digits_length lo hi false (c :: t)).
  cbn [length] in *.
  destruct (Ascii.eqb c MINUS); [lia|]. destruct (Ascii.eqb c PLUS); lia.
Qed.

Lemma ignore_length (s : istream) (d : ascii) :
  (length (buf (ignore s d)) <= length (buf s))%nat.
Proof.
  unfold ignore. destruct (good s); [|apply Nat.le_refl].
  destruct (take_until d (buf s)) as [a [r|]] eqn:E; cbn [buf length]; [|lia].
  apply take_until_shorter in E. lia.
Qed.

(** A turn that stays in the loop consumes input, leaves the disk alone, and
    either reports a skipped line or appends one task that carries the
    current value of the counter. *)
Lemma load_turn_continue (file file' : istream) (w w' : World) :
  load_turn file w = Continue file' w' ->
  (length (buf file') < length (buf file))%nat /\
  disk w' = disk w /\
  ((tasks w' = tasks w /\ nextId w' = nextId w /\
    cerr w' = cerr w ++ [MSG_SKIP_LINE]) \/
   (exists t, tasks w' = tasks w ++ [t] /\ id t = nextId w /\
              nextId w' = nextId w + 1 /\ cerr w' = cerr w)).
Proof.
  unfold load_turn. destruct (good file) eqn:Hg; cbn [negb]; [|discriminate].
  unfold peek. rewrite Hg.
  destruct (buf file) as [|c0 r0] eqn:Hbuf; [discriminate|].
  unfold getline. rewrite Hg, Hbuf.
  destruct (take_until PIPE (c0 :: r0)) as [desc [rest|]] eqn:Etu.
  2:{ destruct desc; cbn; discriminate. }
  apply take_until_shorter in Etu.
  cbn [good eofbit failbit negb andb].
  pose proof (read_int_length INT_MIN INT_MAX (mkIstream rest false false)) as L2.
  fold read_int32 in L2.
  destruct (read_int32 (mkIstream rest false false)) as [p f2].
  destruct (good f2); cbn [negb]; [|discriminate].
  pose proof (read_int_length INT_MIN INT_MAX f2) as L3. fold read_int32 in L3.
  destruct (read_int32 f2) as [c f3].
  destruct (good f3); cbn [negb]; [|discriminate].
  pose proof (read_int_length TIME_MIN TIME_MAX f3) as L4. fold read_time_t in L4.
  destruct (read_time_t f3) as [d f4].
  destruct (good f4); cbn [negb]; [|discriminate].
  pose proof (ignore_length f4 NEWLINE) as L5.
  cbn [snd buf] in *.
  destruct (at_end desc || (p <? HIGHEST) || (LOWEST <? p));
    intros E; injection E as E1 E2; subst file' w'.
  - split; [lia|]. split; [reflexivity|]. left. repeat split.
  - split; [lia|]. split; [reflexivity|]. right.
    eexists. cbn. repeat split.
Qed.

Lemma load_loop_total (fuel : nat) :
  forall (file : istream) (w : World),
  (length (buf file) < fuel)%nat -> exists w', load_loop fuel file w = Some w'.
Proof.
  induction fuel as [|fuel IH]; intros file w Hlen; [lia|].
  cbn [load_loop]. destruct (load_turn file w) as [|file' w1] eqn:E.
  - eexists. reflexivity.
  - apply load_turn_continue in E. apply IH. lia.
Qed.

(** The function returns on every input. *)
Lemma loadTasksFromFile_total (f : string) (w : World) :
  exists w', loadTasksFromFile f w = Some w'.
Proof.
  unfold loadTasksFromFile.
  destruct (readable (disk w) f) as [content|]; [|eexists; reflexivity].
  destruct (load_loop_total (S (length content)) (open_istream content)
              (set_tasks [] w)) as (w1 & E); [cbn; lia|].
  rewrite E. eexists. reflexivity.
Qed.

Lemma ids_from_app (n m : nat) :
  forall k, ids_from k (n + m) = ids_from k n ++ ids_from (k + Z.of_nat n) m.
Proof.
  induction n as [|n IH]; intros k.
  - cbn. f_equal. lia.
  - cbn [Nat.add ids_from app]. rewrite IH. do 3 f_equal. lia.
Qed.

Lemma ids_from_length (n : nat) : forall k, length (ids_from k n) = n.
Proof. induction n as [|n IH]; intros k; cbn; [|rewrite IH]; reflexivity. Qed.

(** Whatever the input holds, the loop appends tasks whose ids count up from
    the counter, and touches neither the tasks already there nor the disk. *)
Lemma load_loop_ids (fuel : nat) :
  forall (file : istream) (w w' : World),
  load_loop fuel file w = Some w' ->
  exists new,
    tasks w' = tasks w ++ new /\
    map id new = ids_from (nextId w) (length new) /\
    nextId w' = nextId w + Z.of_nat (length new) /\
    disk w' = disk w.
Proof.
  induction fuel as [|fuel IH]; intros file w w' H; [discriminate|].
  cbn [load_loop] in H. destruct (load_turn file w) as [|file' w1] eqn:E.
  - injection H as <-. exists []. cbn. rewrite app_nil_r.
    repeat split. lia.
  - apply load_turn_continue in E.
    destruct E as (_ & Hdisk & [(Ht & Hn & _) | (t & Ht & Hid & Hn & _)]);
      destruct (IH _ _ _ H) as (new & Ht' & Hids & Hn' & Hd').
    + exists new. rewrite Ht', Ht, Hn', Hids, Hd', Hn, Hdisk. repeat split.
    + exists (t :: new). rewrite Ht', Ht, Hn', Hd', Hdisk, Hn.
      rewrite <- app_assoc. cbn [app map length ids_from].
      rewrite Hids, Hid, Hn. repeat split. lia.
Qed.

Lemma max_id_app (ts : list Task) : forall m,
  fold_left (fun maxID t => if maxID <? id t then id t else maxID) ts m
  = fold_left Z.max (map id ts) m.
Proof.
  induction ts as [|t ts IH]; intros m; cbn [fold_left map]; [reflexivity|].
  rewrite IH. f_equal. destruct (m <? id t) eqn:E.
  - apply Z.ltb_lt in E. lia.
  - apply Z.ltb_ge in E. lia.
Qed.

Lemma fold_max_ids_from (n : nat) : forall k m,
  fold_left Z.max (ids_from k n) m
  = match n with O => m | S _ => Z.max m (k + Z.of_nat n - 1) end.
Proof.
  induction n as [|n IH]; intros k m; cbn [ids_from fold_left]; [reflexivity|].
  rewrite IH. destruct n; lia.
Qed.

(** The largest id of tasks numbered from a positive counter. *)
Lemma max_id_ids_from (ts : list Task) (k : Z) :
  1 <= k -> map id ts = ids_from k (length ts) ->
  max_id ts + 1 = match ts with [] => 1 | _ => k + Z.of_nat (length ts) end.
Proof.
  intros Hk Hids. unfold max_id. rewrite max_id_app, Hids, fold_max_ids_from.
  destruct ts; cbn [length]; lia.
Qed.

End LoadAny.

(** ** Update *)

Section Update.

(** The failing description path returns before anything is written. *)
Lemma update_record_bad_description (t : Task) (d : text) (prio : option Priority)
    (comp : option bool) (due : option Z) :
  fst (validateTask d (priority t)) = false ->
  fst (update_record t (Some d) prio comp due) = t.
Proof.
  intros H. unfold update_record.
  destruct (validateTask d (priority t)) as [ok msgs]. cbn [fst] in H.
  subst ok. reflexivity.
Qed.

(** A valid description with a priority outside the five ranks: the
    description is stored, and nothing else. *)
Lemma update_record_bad_priority (t : Task) (d : text) (p : Priority)
    (comp : option bool) (due : option Z) :
  fst (validateTask d (priority t)) = true ->
  p < HIGHEST \/ LOWEST < p ->
  fst (update_record t (Some d) (Some p) comp due) = set_description d t.
Proof.
  intros Hd Hp.
  assert (Hne : d <> []) by (intros ->; discriminate Hd).
  unfold update_record.
  destruct (validateTask d (priority t)) as [ok msgs]. cbn [fst] in Hd.
  subst ok. cbn [set_description description].
  unfold validateTask. destruct d as [|c d]; [contradiction|].
  assert (E : (p <? HIGHEST) || (LOWEST <? p) = true).
  { apply orb_true_iff. destruct Hp as [Hp|Hp]; [left|right];
      apply Z.ltb_lt, Hp. }
  rewrite E. reflexivity.
Qed.

Lemma update_record_id (t : Task) (desc : option text) (prio : option Priority)
    (comp : option bool) (due : option Z) :
  id (fst (update_record t desc prio comp due)) = id t.
Proof.
  unfold update_record.
  destruct desc as [d|].
  - destruct (validateTask d (priority t)) as [[|] m1]; [|reflexivity].
    destruct prio as [p|].
    + destruct (validateTask _ p) as [[|] m2]; [|reflexivity].
      destruct comp, due; reflexivity.
    + destruct comp, due; reflexivity.
  - destruct prio as [p|].
    + destruct (validateTask _ p) as [[|] m2]; [|reflexivity].
      destruct comp, due; reflexivity.
    + destruct comp, due; reflexivity.
Qed.

Lemma update_loop_ids (ts : list Task) (i : Z) (desc : option text)
    (prio : option Priority) (comp : option bool) (due : option Z) :
  forall ts' msgs, update_loop ts i desc prio comp due = Some (ts', msgs) ->
  map id ts' = map id ts.
Proof.
  induction ts as [|t ts IH]; intros ts' msgs; cbn [update_loop]; [discriminate|].
  destruct (id t =? i).
  - pose proof (update_record_id t desc prio comp due) as Hid.
    destruct (update_record t desc prio comp due) as [t' m]. cbn [fst] in Hid.
    intros E. injection E as <- _. cbn [map]. rewrite Hid. reflexivity.
  - destruct (update_loop ts i desc prio comp due) as [[ts2 m]|]; [|discriminate].
    intros E. injection E as <- _. cbn [map]. rewrite (IH _ _ eq_refl).
    reflexivity.
Qed.

Lemma updateTask_ids (i : Z) (desc : option text) (prio : option Priority)
    (comp : option bool) (due : option Z) (w : World) :
  map id (tasks (updateTask i desc prio comp due w)) = map id (tasks w) /\
  nextId (updateTask i desc prio comp due w) = nextId w.
Proof.
  unfold updateTask.
  destruct (update_loop (tasks w) i desc prio comp due) as [[ts m]|] eqn:E.
  - apply update_loop_ids in E. cbn. split; [exact E | reflexivity].
  - split; reflexivity.
Qed.

(** C1.  The spec asks that an update applies every provided field or none.
    On a record with a valid new description and a priority outside the five
    ranks, [updateTask] reports that the update failed and returns, but the
    description has been replaced by then: the record is left changed in its
    description, and the completion flag and due date that came with the call
    are dropped. *)
Theorem updateTask_partial_on_bad_priority :
  let old := mkTask 1 (list_ascii_of_string "old") MEDIUM false 100 in
  let w := mkWorld [old] 2 (mkFsys (fun _ => None) (fun _ => true)) [] in
  let w' := updateTask 1 (Some (list_ascii_of_string "new")) (Some 0)
                       (Some true) (Some 200) w in
  tasks w' = [mkTask 1 (list_ascii_of_string "new") MEDIUM false 100] /\
  tasks w' <> tasks w /\
  cerr w' = [MSG_BAD_PRIORITY; MSG_UPDATE_PRIORITY].
Proof.
  cbv zeta. split; [reflexivity|]. split; [|reflexivity].
  vm_compute. discriminate.
Qed.

End Update.

(** ** Load and save *)

Ltac no_pipe :=
  let H := fresh in
  intros H; vm_compute in H;
  repeat (destruct H as [H|H]; [discriminate H|]); exact H.

Ltac in_range := vm_compute; discriminate.

Section LoadSave.

(** C2, as stated, fails: when the file cannot be opened the function returns
    before [tasks.clear()], so a collection that is not empty stays as it
    is. *)
Lemma load_missing_file_keeps_tasks :
  let w := addTask (txt "a") HIGHEST 0 (initial_world (disk_with None)) in
  readable (disk w) TASKS_TXT = None /\
  loadTasksFromFile TASKS_TXT w = Some w /\
  tasks w <> [].
Proof. cbv zeta. repeat split. vm_compute. discriminate. Qed.

(** C2, amended.  Loading from a file that cannot be opened succeeds, writes
    nothing to [cerr] and leaves the whole state as it was: the collection and
    the counter are kept, so the result is the empty collection exactly when
    the collection was empty before. *)
Theorem load_missing_file_unchanged (w : World) (f : string) :
  readable (disk w) f = None ->
  loadTasksFromFile f w = Some w /\
  (tasks w = [] -> forall w', loadTasksFromFile f w = Some w' -> tasks w' = []).
Proof.
  intros H. unfold loadTasksFromFile. rewrite H. split; [reflexivity|].
  intros He w' E. injection E as <-. exact He.
Qed.

Lemma load_missing_file_unchanged_witness :
  loadTasksFromFile TASKS_TXT (initial_world (disk_with None))
    = Some (initial_world (disk_with None)) /\
  (tasks (initial_world (disk_with None)) = [] ->
   forall w', loadTasksFromFile TASKS_TXT (initial_world (disk_with None))
                = Some w' -> tasks w' = []).
Proof.
  apply (load_missing_file_unchanged (initial_world (disk_with None)) TASKS_TXT).
  reflexivity.
Defined.

(** Loading a file that starts with well-formed lines [ls] and goes on with
    [rest]: the loop goes through [ls], then sees [rest]. *)
Lemma load_lines_then (w : World) (f : string) (ls : list line) (rest : text) :
  Forall line_wf ls ->
  readable (disk w) f = Some (render_file ls ++ rest) ->
  load_turn (open_istream rest) (after_lines ls (set_tasks [] w)) = Break ->
  loadTasksFromFile f w =
    Some (set_nextId (max_id (tasks_of_lines (nextId w) ls) + 1)
                     (after_lines ls (set_tasks [] w))).
Proof.
  intros Hwf Hr Hbreak. unfold loadTasksFromFile. rewrite Hr.
  pose proof (render_file_length ls) as Hlen.
  replace (S (length (render_file ls ++ rest)))
    with (length ls + S (length (render_file ls ++ rest) - length ls))%nat
    by (rewrite length_app in *; lia).
  rewrite load_loop_lines by exact Hwf.
  cbn [load_loop]. rewrite Hbreak. reflexivity.
Qed.

Lemma stops_load_break (rest : text) (w : World) :
  stops_load rest -> load_turn (open_istream rest) w = Break.
Proof.
  intros [H | (desc & tr & -> & Hd & Htr)].
  - apply load_turn_no_delimiter, H.
  - apply load_turn_bad_trailer; assumption.
Qed.

Lemma tasks_of_lines_payload (ls : list line) : forall k,
  map payload (tasks_of_lines k ls) = map line_payload (filter line_ok ls).
Proof.
  induction ls as [|l ls IH]; intros k; cbn [tasks_of_lines filter map];
    [reflexivity|].
  destruct (line_ok l); cbn [map]; rewrite IH; reflexivity.
Qed.

Lemma tasks_of_lines_ids (ls : list line) : forall k,
  map id (tasks_of_lines k ls) = ids_from k (length (tasks_of_lines k ls)).
Proof.
  induction ls as [|l ls IH]; intros k; cbn [tasks_of_lines]; [reflexivity|].
  destruct (line_ok l); cbn [map length ids_from id]; rewrite <- IH; reflexivity.
Qed.

(** C3, as stated, fails: a line whose numbers cannot be read is not skipped,
    it ends the load.  The well-formed line that follows is not loaded and
    nothing is written to [cerr]. *)
Lemma load_stops_at_unreadable_numbers :
  let content := file_of_lines ["a|x 0 1"; "b|1 0 5"]%string in
  exists w',
    loadTasksFromFile TASKS_TXT (initial_world (disk_with (Some content)))
      = Some w' /\
    tasks w' = [] /\ cerr w' = [].
Proof. cbv zeta. eexists. split; [vm_compute; reflexivity|]. split; reflexivity. Qed.

(** C3, amended.  The file is read record by record: a record is a
    description, which ends at the next delimiter and may be empty or span
    several lines, followed by three numbers and the end of their line.  On a
    file that holds records in the layout of [saveTasksToFile] and then a
    remainder, every record with an empty description or a priority outside
    1..5 is skipped with one diagnostic and the load goes on with the next
    record, so every accepted record is loaded, in order.  The load ends at
    the remainder, without a diagnostic, when the remainder holds no
    delimiter at all or when the three numbers after its first delimiter
    cannot be read: the tasks loaded before it are kept, nothing of the
    remainder is loaded. *)
Theorem load_skips_invalid_and_stops_at_unreadable
    (w : World) (f : string) (ls : list line) (rest : text) :
  Forall line_wf ls -> stops_load rest ->
  readable (disk w) f = Some (render_file ls ++ rest) ->
  exists w',
    loadTasksFromFile f w = Some w' /\
    tasks w' = tasks_of_lines (nextId w) ls /\
    map payload (tasks w') = map line_payload (filter line_ok ls) /\
    cerr w' = cerr w ++ skipped ls.
Proof.
  intros Hwf Hstop Hr. eexists. split.
  - apply (load_lines_then w f ls rest); [exact Hwf | exact Hr |].
    apply stops_load_break, Hstop.
  - cbn. split; [reflexivity|]. split; [|reflexivity].
    apply tasks_of_lines_payload.
Qed.


Lemma sample_lines_wf : Forall line_wf sample_lines.
Proof.
  unfold sample_lines.
  repeat (constructor; [unfold line_wf; cbn [l_desc l_prio l_comp l_due];
                        split; [no_pipe | repeat split; in_range]|]).
  constructor.
Qed.

Lemma sample_rest_stops : stops_load sample_rest.
Proof.
  right. exists (txt "d"), (skipn 2 sample_rest).
  split; [reflexivity|]. split; [no_pipe | reflexivity].
Qed.

Lemma load_skips_invalid_and_stops_at_unreadable_witness :
  exists w',
    loadTasksFromFile TASKS_TXT
      (initial_world (disk_with (Some (render_file sample_lines ++ sample_rest))))
      = Some w' /\
    tasks w' = tasks_of_lines 1 sample_lines /\
    map payload (tasks w') = map line_payload (filter line_ok sample_lines) /\
    cerr w' = [] ++ skipped sample_lines.
Proof.
  apply (load_skips_invalid_and_stops_at_unreadable
           (initial_world (disk_with (Some (render_file sample_lines ++ sample_rest))))
           TASKS_TXT sample_lines sample_rest).
  - exact sample_lines_wf.
  - exact sample_rest_stops.
  - reflexivity.
Defined.

Lemma In_ids_from (n : nat) : forall k i,
  In i (ids_from k n) <-> k <= i < k + Z.of_nat n.
Proof.
  induction n as [|n IH]; intros k i; cbn [ids_from In].
  - split; [intros [] | lia].
  - rewrite IH. lia.
Qed.

(** C4, as stated, fails: the ids of the loaded tasks start at the value the
    counter has when the load begins, which is 1 only if no id was handed
    out before. *)
Lemma load_ids_continue_from_counter :
  let fs := disk_with (Some (file_of_lines ["c|1 0 0"]%string)) in
  let w := addTask (txt "b") LOW 0 (addTask (txt "a") HIGHEST 0 (initial_world fs)) in
  exists w',
    loadTasksFromFile TASKS_TXT w = Some w' /\
    map id (tasks w') = [3] /\
    map id (tasks w') <> ids_from 1 (length (tasks w')).
Proof.
  cbv zeta. eexists. split; [vm_compute; reflexivity|].
  split; [reflexivity | vm_compute; discriminate].
Qed.

(** C4, amended.  A load that opens its file takes no id from the content of
    the file: the loaded tasks are numbered in file order from the value of
    the counter at the start of the load (from 1 when the counter stands at
    1, as it does when the process starts), and afterwards the counter is
    1 + the largest loaded id (1 when nothing was loaded). *)
Theorem load_ids_from_counter (w : World) (f : string) (content : text) :
  readable (disk w) f = Some content -> 1 <= nextId w ->
  exists w',
    loadTasksFromFile f w = Some w' /\
    map id (tasks w') = ids_from (nextId w) (length (tasks w')) /\
    (nextId w = 1 -> map id (tasks w') = ids_from 1 (length (tasks w'))) /\
    nextId w' = 1 + max_id (tasks w') /\
    Forall (fun t => id t < nextId w') (tasks w') /\
    match tasks w' with
    | [] => nextId w' = 1
    | _ => In (nextId w' - 1) (map id (tasks w'))
    end.
Proof.
  intros Hr Hk. unfold loadTasksFromFile. rewrite Hr.
  destruct (load_loop_total (S (length content)) (open_istream content)
              (set_tasks [] w)) as (w1 & E); [cbn; lia|].
  rewrite E. eexists. split; [reflexivity|].
  destruct (load_loop_ids _ _ _ _ E) as (new & Ht & Hids & Hn & _).
  cbn [set_tasks tasks nextId app] in Ht, Hids, Hn.
  cbn [set_nextId tasks nextId]. rewrite Ht.
  pose proof (max_id_ids_from new (nextId w) Hk Hids) as Hmax.
  split; [exact Hids|].
  split; [intros E1; rewrite <- E1; exact Hids|].
  split; [lia|].
  split.
  - apply Forall_forall. intros t Ht'.
    assert (Hin : In (id t) (map id new)) by (apply in_map, Ht').
    rewrite Hids in Hin. apply In_ids_from in Hin.
    destruct new; [destruct Ht' | lia].
  - destruct new as [|t0 new']; [exact Hmax|].
    rewrite Hids. apply In_ids_from. cbn [length] in *. lia.
Qed.

Lemma load_ids_from_counter_witness :
  exists w',
    loadTasksFromFile TASKS_TXT
      (mkWorld sample_tasks 6 (disk_with (Some (render_file sample_lines))) [])
      = Some w' /\
    map id (tasks w') = ids_from 6 (length (tasks w')) /\
    ((6 = 1) -> map id (tasks w') = ids_from 1 (length (tasks w'))) /\
    nextId w' = 1 + max_id (tasks w') /\
    Forall (fun t => id t < nextId w') (tasks w') /\
    match tasks w' with
    | [] => nextId w' = 1
    | _ => In (nextId w' - 1) (map id (tasks w'))
    end.
Proof.
  apply (load_ids_from_counter
           (mkWorld sample_tasks 6 (disk_with (Some (render_file sample_lines))) [])
           TASKS_TXT (render_file sample_lines)).
  - reflexivity.
  - cbn. lia.
Defined.

End LoadSave.

(** ** Save, and save followed by load *)

Section SaveLoad.

Lemma save_line_render (t : Task) : save_line t = render_line (line_of_task t).
Proof. unfold save_line, render_line, line_of_task, show_bool. reflexivity. Qed.

Lemma valid_task_validate (t : Task) :
  valid_task t -> validateTask (description t) (priority t) = (true, []).
Proof.
  intros (Hne & _ & Hp & _). unfold validateTask, HIGHEST, LOWEST in *.
  destruct (description t); [contradiction|].
  destruct (priority t <? 1) eqn:E1; [apply Z.ltb_lt in E1; lia|].
  destruct (5 <? priority t) eqn:E2; [apply Z.ltb_lt in E2; lia|].
  reflexivity.
Qed.

Lemma save_loop_valid (ts : list Task) : forall out err,
  Forall valid_task ts ->
  save_loop ts out err = (out ++ render_file (map line_of_task ts), err).
Proof.
  induction ts as [|t ts IH]; intros out err Hv; cbn [save_loop map].
  - unfold render_file. cbn. rewrite app_nil_r. reflexivity.
  - inversion Hv as [|? ? Ht Hts]; subst.
    rewrite valid_task_validate by exact Ht.
    rewrite IH by exact Hts. rewrite app_nil_r, save_line_render.
    unfold render_file. cbn [map concat]. rewrite app_assoc. reflexivity.
Qed.

Lemma valid_task_line (t : Task) :
  valid_task t -> line_wf (line_of_task t) /\ line_ok (line_of_task t) = true.
Proof.
  intros (Hne & Hpipe & Hp & Hd).
  unfold line_wf, line_ok, line_of_task, HIGHEST, LOWEST, INT_MIN, INT_MAX in *.
  cbn [l_desc l_prio l_comp l_due]. split.
  - split; [exact Hpipe|]. split; [lia|]. split; [destruct (completed t); lia|].
    exact Hd.
  - destruct (description t); [contradiction|]. cbn [at_end orb].
    destruct (priority t <? 1) eqn:E1; [apply Z.ltb_lt in E1; lia|].
    destruct (5 <? priority t) eqn:E2; [apply Z.ltb_lt in E2; lia|].
    reflexivity.
Qed.

Lemma valid_tasks_lines (ts : list Task) :
  Forall valid_task ts ->
  Forall line_wf (map line_of_task ts) /\
  filter line_ok (map line_of_task ts) = map line_of_task ts.
Proof.
  induction 1 as [|t ts Ht _ [IH1 IH2]]; cbn [map filter].
  - split; [constructor | reflexivity].
  - destruct (valid_task_line t Ht) as [Hwf Hok]. rewrite Hok, IH2.
    split; [constructor; assumption | reflexivity].
Qed.

Lemma line_payload_of_task (t : Task) : line_payload (line_of_task t) = payload t.
Proof.
  unfold line_payload, line_of_task, payload. cbn [l_desc l_prio l_comp l_due].
  destruct (completed t); reflexivity.
Qed.

(** C6.  Saving to a file that can be opened for writing and loading it again
    gives back the collection: for tasks that are valid (description neither
    empty nor containing the delimiter, priority among the five ranks) the
    reloaded collection has the same number of tasks, with the same
    descriptions, priorities, completion flags and due dates, in the same
    order, numbered anew in line order; the empty collection comes back
    empty. *)
Theorem save_then_load_roundtrip (w : World) (f : string) :
  writable (disk w) f = true -> Forall valid_task (tasks w) ->
  exists w',
    loadTasksFromFile f (saveTasksToFile f w) = Some w' /\
    map payload (tasks w') = map payload (tasks w) /\
    length (tasks w') = length (tasks w) /\
    (tasks w = [] -> tasks w' = []) /\
    map id (tasks w') = ids_from (nextId w) (length (tasks w)).
Proof.
  intros Hw Hv.
  destruct (valid_tasks_lines _ Hv) as [Hwf Hok].
  assert (Hpay : map payload (tasks_of_lines (nextId w) (map line_of_task (tasks w)))
                 = map payload (tasks w)).
  { rewrite tasks_of_lines_payload, Hok, map_map.
    apply map_ext, line_payload_of_task. }
  assert (Hlen : length (tasks_of_lines (nextId w) (map line_of_task (tasks w)))
                 = length (tasks w)).
  { rewrite <- (length_map payload), Hpay. apply length_map. }
  eexists. split.
  - unfold saveTasksToFile. rewrite Hw.
    rewrite save_loop_valid by exact Hv. cbn [app].
    apply (load_lines_then _ f (map line_of_task (tasks w)) []).
    + exact Hwf.
    + cbn. rewrite String.eqb_refl, app_nil_r. reflexivity.
    + apply load_turn_end.
  - cbn [set_nextId after_lines set_tasks say set_disk tasks nextId app].
    split; [exact Hpay|]. split; [exact Hlen|]. split.
    + intros E. rewrite E. reflexivity.
    + rewrite tasks_of_lines_ids, Hlen. reflexivity.
Qed.

Lemma sample_tasks_valid : Forall valid_task sample_tasks.
Proof.
  unfold sample_tasks.
  repeat (constructor;
          [unfold valid_task; cbn [description priority dueDate];
           split; [discriminate|]; split; [no_pipe | repeat split; in_range]|]).
  constructor.
Qed.

Lemma save_then_load_roundtrip_witness :
  exists w',
    loadTasksFromFile TASKS_TXT
      (saveTasksToFile TASKS_TXT (mkWorld sample_tasks 6 (disk_with None) []))
      = Some w' /\
    map payload (tasks w') = map payload sample_tasks /\
    length (tasks w') = length sample_tasks /\
    (sample_tasks = [] -> tasks w' = []) /\
    map id (tasks w') = ids_from 6 (length sample_tasks).
Proof.
  apply (save_then_load_roundtrip (mkWorld sample_tasks 6 (disk_with None) [])
                                  TASKS_TXT).
  - reflexivity.
  - exact sample_tasks_valid.
Defined.

(** C9.  Saving never changes the collection or the counter, whether the
    file opens or not; when it does not open, the failure is reported on
    [cerr] and the disk is left as it was. *)
Theorem save_keeps_memory (w : World) (f : string) :
  tasks (saveTasksToFile f w) = tasks w /\
  nextId (saveTasksToFile f w) = nextId w /\
  (writable (disk w) f = false ->
   disk (saveTasksToFile f w) = disk w /\
   cerr (saveTasksToFile f w) = cerr w ++ [MSG_CANNOT_SAVE]).
Proof.
  unfold saveTasksToFile. destruct (writable (disk w) f).
  - destruct (save_loop (tasks w) [] []) as [out err].
    repeat split; discriminate.
  - repeat split.
Qed.

Lemma save_keeps_memory_witness :
  let w := mkWorld sample_tasks 6 (mkFsys (fun _ => None) (fun _ => false)) [] in
  tasks (saveTasksToFile TASKS_TXT w) = tasks w /\
  nextId (saveTasksToFile TASKS_TXT w) = nextId w /\
  (writable (disk w) TASKS_TXT = false ->
   disk (saveTasksToFile TASKS_TXT w) = disk w /\
   cerr (saveTasksToFile TASKS_TXT w) = cerr w ++ [MSG_CANNOT_SAVE]).
Proof.
  exact (save_keeps_memory
           (mkWorld sample_tasks 6 (mkFsys (fun _ => None) (fun _ => false)) [])
           TASKS_TXT).
Defined.

(** C10.  The completion field of a line is read as an integer and turned
    into a flag by the test against zero: a line that is accepted is never
    turned down for its completion field, any value other than 0 (2 or -1 as
    well as 1) gives a completed task and 0 gives a task that is not
    completed. *)
Theorem load_completed_is_nonzero (w : World) (f : string) (ls : list line) :
  Forall line_wf ls ->
  readable (disk w) f = Some (render_file ls) ->
  exists w',
    loadTasksFromFile f w = Some w' /\
    Forall2 (fun t l =>
               description t = l_desc l /\
               (l_comp l <> 0 -> completed t = true) /\
               (l_comp l = 0 -> completed t = false))
            (tasks w') (filter line_ok ls).
Proof.
  intros Hwf Hr. eexists. split.
  - apply (load_lines_then w f ls []); [exact Hwf | |apply load_turn_end].
    rewrite app_nil_r. exact Hr.
  - cbn [set_nextId after_lines set_tasks tasks nextId app].
    generalize (nextId w). clear.
    induction ls as [|l ls IH]; intros k; cbn [tasks_of_lines filter];
      [constructor|].
    destruct (line_ok l); [|apply IH].
    constructor; [|apply IH]. cbn [description completed].
    split; [reflexivity|]. split; intros H.
    + apply Z.eqb_neq in H. rewrite H. reflexivity.
    + rewrite H. reflexivity.
Qed.

Lemma load_completed_is_nonzero_witness :
  exists w',
    loadTasksFromFile TASKS_TXT
      (initial_world (disk_with (Some (render_file sample_lines)))) = Some w' /\
    Forall2 (fun t l =>
               description t = l_desc l /\
               (l_comp l <> 0 -> completed t = true) /\
               (l_comp l = 0 -> completed t = false))
            (tasks w') (filter line_ok sample_lines).
Proof.
  apply (load_completed_is_nonzero
           (initial_world (disk_with (Some (render_file sample_lines))))
           TASKS_TXT sample_lines).
  - exact sample_lines_wf.
  - reflexivity.
Defined.

End SaveLoad.

(** ** Sorting *)

Section Sorting.

Variable key : Task -> Z.
Variable ascending : bool.

Lemma comp_false_ordered (a b : Task) :
  by_key key ascending b a = false <-> ordered key ascending a b.
Proof.
  unfold by_key, ordered. destruct ascending.
  - rewrite Z.ltb_ge. reflexivity.
  - rewrite Z.gtb_ltb, Z.ltb_ge. reflexivity.
Qed.

Lemma ordered_trans (a b c : Task) :
  ordered key ascending a b -> ordered key ascending b c ->
  ordered key ascending a c.
Proof. unfold ordered. destruct ascending; lia. Qed.

Lemma ordered_total (a b : Task) :
  by_key key ascending a b = true -> ordered key ascending a b.
Proof.
  unfold by_key, ordered. destruct ascending.
  - rewrite Z.ltb_lt. lia.
  - rewrite Z.gtb_ltb, Z.ltb_lt. lia.
Qed.

Lemma is_sorted_ordered (l : list Task) :
  is_sorted (by_key key ascending) l = true <-> StronglySorted (ordered key ascending) l.
Proof.
  induction l as [|a l IH]; cbn [is_sorted].
  - split; [constructor | reflexivity].
  - rewrite andb_true_iff, forallb_forall, IH. split.
    + intros [Ha Hl]. constructor; [exact Hl|].
      apply Forall_forall. intros b Hb. apply comp_false_ordered.
      specialize (Ha b Hb). destruct (by_key key ascending b a); [discriminate | reflexivity].
    + intros H. inversion H as [|? ? Hl Ha]; subst. split; [|exact Hl].
      intros b Hb. rewrite Forall_forall in Ha.
      specialize (Ha b Hb). apply comp_false_ordered in Ha.
      rewrite Ha. reflexivity.
Qed.

Lemma insert_sorted_perm (t : Task) (l : list Task) :
  Permutation (t :: l) (insert_sorted (by_key key ascending) t l).
Proof.
  induction l as [|a l IH]; cbn [insert_sorted]; [apply Permutation_refl|].
  destruct (by_key key ascending t a); [apply Permutation_refl|].
  eapply perm_trans; [apply perm_swap|]. apply perm_skip, IH.
Qed.

Lemma insert_sorted_sorted (t : Task) (l : list Task) :
  StronglySorted (ordered key ascending) l ->
  StronglySorted (ordered key ascending) (insert_sorted (by_key key ascending) t l).
Proof.
  induction 1 as [|a l Hl IH Ha]; cbn [insert_sorted].
  - constructor; constructor.
  - destruct (by_key key ascending t a) eqn:E.
    + apply ordered_total in E.
      constructor; [constructor; assumption|].
      constructor; [exact E|].
      eapply Forall_impl; [|exact Ha]. intros b Hb.
      eapply ordered_trans; eassumption.
    + apply comp_false_ordered in E.
      constructor; [exact IH|].
      eapply Permutation_Forall; [apply insert_sorted_perm|].
      constructor; assumption.
Qed.

(** The postcondition of [std::sort] can be met on every input. *)
Lemma std_sort_insertion_sort (l : list Task) :
  std_sort (by_key key ascending) l (insertion_sort (by_key key ascending) l).
Proof.
  unfold std_sort. rewrite is_sorted_ordered.
  induction l as [|t l [IHp IHs]]; cbn [insertion_sort fold_right].
  - split; [apply perm_nil | constructor].
  - split.
    + eapply perm_trans; [apply perm_skip, IHp | apply insert_sorted_perm].
    + apply insert_sorted_sorted, IHs.
Qed.

(** What the postcondition gives: the same tasks, in the order of the key,
    so that the first task has the least key when ascending. *)
Lemma std_sort_ordered (l l' : list Task) :
  std_sort (by_key key ascending) l l' ->
  Permutation l l' /\
  StronglySorted (ordered key ascending) l' /\
  forall t rest, l' = t :: rest ->
    forall u, In u l -> ordered key ascending t u.
Proof.
  intros [Hp Hs]. apply is_sorted_ordered in Hs.
  split; [exact Hp|]. split; [exact Hs|].
  intros t rest -> u Hu.
  apply (Permutation_in _ Hp) in Hu.
  inversion Hs as [|? ? _ Ht]; subst.
  destruct Hu as [<-|Hu].
  - unfold ordered. destruct ascending; lia.
  - rewrite Forall_forall in Ht. apply Ht, Hu.
Qed.

End Sorting.

Section SortingClaims.

(** C5, as stated, fails: [std::sort] promises no order between tasks of
    equal key, so after either sort two tasks with the same priority and the
    same due date may have changed places. *)
Lemma sort_need_not_be_stable :
  let a := mkTask 1 (txt "a") MEDIUM false 10 in
  let b := mkTask 2 (txt "b") MEDIUM false 10 in
  let w := mkWorld [a; b] 3 (disk_with None) [] in
  let w' := mkWorld [b; a] 3 (disk_with None) [] in
  sortTasksByPriority true w w' /\
  sortTasksByDueDate true w w' /\
  ~ stable_for priority (tasks w) (tasks w') /\
  ~ stable_for dueDate (tasks w) (tasks w').
Proof.
  cbv zeta. repeat split; try apply perm_swap.
  - intros H. specialize (H MEDIUM). vm_compute in H. discriminate H.
  - intros H. specialize (H 10). vm_compute in H. discriminate H.
Qed.

(** C5, amended.  Each of the two sorts leaves the same tasks, the counter
    and the disk, and puts the collection in the order of its key: rank
    numbers (respectively due dates) never decrease along the collection when
    [ascending] is true, so the tasks of the highest rank come first, and
    never increase when it is false.  Nothing is promised about the relative
    order of tasks with equal keys. *)
Theorem sort_orders_by_key (key : Task -> Z) (ascending : bool) (w w' : World) :
  (key = priority /\ sortTasksByPriority ascending w w') \/
  (key = dueDate /\ sortTasksByDueDate ascending w w') ->
  Permutation (tasks w) (tasks w') /\
  nextId w' = nextId w /\ disk w' = disk w /\
  StronglySorted (ordered key ascending) (tasks w') /\
  forall t rest, tasks w' = t :: rest ->
    forall u, In u (tasks w) -> ordered key ascending t u.
Proof.
  intros [[-> [Hs ->]] | [-> [Hs ->]]];
    apply std_sort_ordered in Hs; destruct Hs as (Hp & Hs & Hh);
    cbn [set_tasks tasks nextId disk]; repeat split; assumption.
Qed.

Lemma sort_orders_by_key_witness :
  let m := mkTask 1 (txt "m") MEDIUM false 30 in
  let h := mkTask 2 (txt "h") HIGHEST false 20 in
  let l := mkTask 3 (txt "l") LOWEST false 10 in
  let w := mkWorld [m; h; l] 4 (disk_with None) [] in
  let w' := mkWorld [h; m; l] 4 (disk_with None) [] in
  Permutation (tasks w) (tasks w') /\
  nextId w' = nextId w /\ disk w' = disk w /\
  StronglySorted (ordered priority true) (tasks w') /\
  forall t rest, tasks w' = t :: rest ->
    forall u, In u (tasks w) -> ordered priority true t u.
Proof.
  cbv zeta.
  apply (sort_orders_by_key priority true).
  left. split; [reflexivity|]. split; [|reflexivity].
  split; [apply perm_swap | reflexivity].
Defined.

End SortingClaims.

(** ** Ids along a process *)

Section Process.

Lemma addTask_valid (d : text) (pr : Priority) (due : Z) (w : World) :
  fst (validateTask d pr) = true ->
  addTask d pr due w =
  mkWorld (tasks w ++ [mkTask (nextId w) d pr false due]) (nextId w + 1)
          (disk w) (cerr w).
Proof.
  unfold addTask, validateTask. destruct d as [|c d]; [discriminate|].
  destruct ((pr <? HIGHEST) || (LOWEST <? pr)); [discriminate|].
  intros _. unfold Task_new, push_back, set_tasks, set_nextId, say. cbn.
  rewrite app_nil_r. reflexivity.
Qed.

Lemma addTask_invalid (d : text) (pr : Priority) (due : Z) (w : World) :
  fst (validateTask d pr) = false ->
  tasks (addTask d pr due w) = tasks w /\
  nextId (addTask d pr due w) = nextId w /\
  cerr (addTask d pr due w) <> cerr w.
Proof.
  unfold addTask. destruct (validateTask d pr) as [ok msgs] eqn:E.
  cbn [fst]. intros ->. cbn. repeat split.
  assert (Hm : msgs <> []).
  { unfold validateTask in E. destruct d; [injection E as <-; discriminate|].
    destruct ((pr <? HIGHEST) || (LOWEST <? pr));
      [injection E as <-; discriminate | discriminate]. }
  intros H. apply Hm.
  apply (f_equal (@length string)) in H. rewrite length_app in H.
  destruct msgs; [reflexivity | cbn in H; lia].
Qed.

Lemma load_effect (w w' : World) (f : string) :
  loadTasksFromFile f w = Some w' -> 1 <= nextId w ->
  match readable (disk w) f with
  | None => w' = w
  | Some _ =>
      map id (tasks w') = ids_from (nextId w) (length (tasks w')) /\
      nextId w' = match tasks w' with
                  | [] => 1
                  | _ => nextId w + Z.of_nat (length (tasks w'))
                  end
  end.
Proof.
  unfold loadTasksFromFile. intros H Hk.
  destruct (readable (disk w) f) as [content|]; [|injection H as <-; reflexivity].
  destruct (load_loop _ _ _) as [w1|] eqn:E; [|discriminate].
  injection H as <-.
  destruct (load_loop_ids _ _ _ _ E) as (new & Ht & Hids & Hn & _).
  cbn [set_tasks tasks nextId app] in Ht, Hids, Hn.
  cbn [set_nextId tasks nextId]. rewrite Ht.
  split; [exact Hids|].
  pose proof (max_id_ids_from new (nextId w) Hk Hids) as Hmax.
  destruct new; exact Hmax.
Qed.

(** Every operation keeps the counter above the ids in use. *)
Lemma exec_counter_above (p p' : process) (o : op) :
  exec p o p' -> counter_above p -> counter_above p'.
Proof.
  intros (Hstep & _ & Hsince) (Hk & Ht & Hs).
  unfold counter_above. rewrite Hsince. clear Hsince.
  destruct o as [f|f|d pr due|i|i d pr c due|a|a]; cbn [step] in Hstep;
    cbn [restarts new_ids].
  - (* load *)
    apply load_effect in Hstep; [|exact Hk].
    destruct (readable (disk (mem p)) f) as [content|].
    + destruct Hstep as [Hids Hn]. rewrite Hn.
      destruct (tasks (mem p')) as [|t0 ts0] eqn:Et.
      * split; [lia|]. split; intros ? [].
      * split; [lia|]. split.
        -- intros t Hin. apply (in_map id) in Hin. rewrite Hids in Hin.
           apply In_ids_from in Hin. lia.
        -- intros i Hin. apply in_app_or in Hin. destruct Hin as [Hin|Hin].
           ++ apply Hs in Hin. lia.
           ++ rewrite Hids in Hin. apply In_ids_from in Hin. lia.
    + rewrite Hstep, app_nil_r. repeat split; assumption.
  - (* save *)
    destruct (save_keeps_memory (mem p) f) as (E1 & E2 & _).
    rewrite Hstep, E1, E2, app_nil_r. repeat split; assumption.
  - (* add *)
    destruct (fst (validateTask d pr)) eqn:Ev.
    + rewrite Hstep, addTask_valid by exact Ev. cbn [tasks nextId].
      split; [lia|]. split.
      * intros t Hin. apply in_app_or in Hin. destruct Hin as [Hin|[<-|[]]].
        -- apply Ht in Hin. lia.
        -- cbn. lia.
      * intros i Hin. apply in_app_or in Hin. destruct Hin as [Hin|[<-|[]]].
        -- apply Hs in Hin. lia.
        -- lia.
    + destruct (addTask_invalid d pr due (mem p) Ev) as (E1 & E2 & _).
      rewrite Hstep, E1, E2, app_nil_r. repeat split; assumption.
  - (* delete *)
    assert (E : tasks (mem p') = filter (fun t => negb (id t =? i)) (tasks (mem p))
                /\ nextId (mem p') = nextId (mem p)).
    { rewrite Hstep. unfold deleteTask.
      destruct (Nat.eqb _ _); split; reflexivity. }
    destruct E as [E1 E2]. rewrite E1, E2, app_nil_r.
    split; [exact Hk|]. split; [|exact Hs].
    intros t Hin. apply filter_In in Hin. apply Ht, Hin.
  - (* update *)
    destruct (updateTask_ids i d pr c due (mem p)) as [E1 E2].
    rewrite <- Hstep in E1, E2. rewrite E2, app_nil_r.
    split; [exact Hk|]. split; [|exact Hs].
    intros t Hin. apply (in_map id) in Hin. rewrite E1 in Hin.
    apply in_map_iff in Hin. destruct Hin as (t0 & <- & Hin). apply Ht, Hin.
  - (* sort by priority *)
    destruct Hstep as [[Hp _] E]. rewrite E. cbn [set_tasks tasks nextId].
    rewrite app_nil_r. split; [exact Hk|]. split; [|exact Hs].
    intros t Hin. apply Ht. eapply Permutation_in; [symmetry; exact Hp | exact Hin].
  - (* sort by due date *)
    destruct Hstep as [[Hp _] E]. rewrite E. cbn [set_tasks tasks nextId].
    rewrite app_nil_r. split; [exact Hk|]. split; [|exact Hs].
    intros t Hin. apply Ht. eapply Permutation_in; [symmetry; exact Hp | exact Hin].
Qed.

Lemma run_counter_above (p p' : process) (os : list op) :
  run p os p' -> counter_above p -> counter_above p'.
Proof.
  induction 1 as [|p o p1 os p2 He _ IH]; intros Hp; [exact Hp|].
  apply IH. eapply exec_counter_above; eassumption.
Qed.

Lemma boot_counter_above (fs : fsys) : counter_above (boot fs).
Proof. unfold counter_above. cbn. split; [lia|]. split; intros ? []. Qed.

(** An operation other than a load, or any operation while no id has been
    handed out yet, forgets none of the ids handed out. *)
Lemma exec_keeps_history (p p' : process) (o : op) :
  exec p o p' -> since_restart p = ever p ->
  is_load o = false \/ ever p = [] ->
  since_restart p' = ever p'.
Proof.
  intros (_ & He & Hs) Hsync Hcase. rewrite He, Hs, Hsync.
  destruct (restarts (mem p) o (mem p')) eqn:Er; [|reflexivity].
  destruct o as [f| | | | | |]; try discriminate Er.
  destruct Hcase as [Hl | Hnil]; [discriminate Hl|].
  rewrite Hnil. cbn [restarts new_ids app] in *.
  destruct (readable (disk (mem p)) f); [|reflexivity].
  destruct (tasks (mem p')); [reflexivity | discriminate Er].
Qed.

Lemma run_keeps_history (p p' : process) (os : list op) :
  run p os p' -> since_restart p = ever p ->
  forallb (fun o => negb (is_load o)) os = true ->
  since_restart p' = ever p'.
Proof.
  induction 1 as [|p o p1 os p2 He _ IH]; intros Hsync Hos; [exact Hsync|].
  cbn [forallb] in Hos. apply andb_true_iff in Hos. destruct Hos as [Ho Hos].
  apply IH; [|exact Hos].
  eapply exec_keeps_history; [exact He | exact Hsync |].
  left. destruct (is_load o); [discriminate Ho | reflexivity].
Qed.

Lemma boot_run_keeps_history (fs : fsys) (os : list op) (p : process) :
  run (boot fs) os p -> load_only_first os = true ->
  since_restart p = ever p.
Proof.
  intros Hrun Hos. inversion Hrun as [|? o p1 os' ? He Hrest]; subst.
  - reflexivity.
  - eapply run_keeps_history; [exact Hrest | | exact Hos].
    eapply exec_keeps_history; [exact He | reflexivity | right; reflexivity].
Qed.

(** C7, as stated, fails: a load that opens its file and builds no task puts
    the counter back to 1, so an id handed out before that load is handed
    out again.  Here the file exists and is empty; both tasks get id 1. *)
Lemma id_reused_after_empty_load :
  let fs := disk_with (Some []) in
  let os := [OpAdd (txt "a") HIGHEST 0; OpLoad TASKS_TXT;
             OpAdd (txt "b") HIGHEST 0] in
  exists p, run (boot fs) os p /\ ever p = [1; 1] /\ ~ NoDup (ever p).
Proof.
  cbv zeta.
  exists (mkProcess (mkWorld [mkTask 1 (txt "b") HIGHEST false 0] 2
                             (disk_with (Some [])) [])
                    [1; 1] [1]).
  split; [|split; [reflexivity|]].
  - eapply run_cons with
      (p1 := mkProcess (mkWorld [mkTask 1 (txt "a") HIGHEST false 0] 2
                                (disk_with (Some [])) []) [1] [1]).
    { repeat split. }
    eapply run_cons with
      (p1 := mkProcess (mkWorld [] 1 (disk_with (Some [])) []) [1] []).
    { repeat split. }
    eapply run_cons; [|apply run_nil].
    repeat split.
  - cbn. intros H. inversion H as [|? ? Hn _]; subst. apply Hn. left. reflexivity.
Qed.

(** C7, amended.  At every point of every process, a successful [addTask]
    (description not empty, priority among the five ranks) appends a task
    whose id is the counter: it is greater than every id of the collection
    and than every id handed out since the counter was last put back to 1,
    that is, since the start of the process or the last load that opened its
    file and built no task; so that id is new since then, and the counter
    moves up by one.  When a load is used as the first operation only, as in
    [main], these are all the ids ever handed out.  A failed [addTask]
    leaves the collection and the counter as they were. *)
Theorem add_assigns_fresh_increasing_id
    (fs : fsys) (os : list op) (p : process)
    (d : text) (pr : Priority) (due : Z) :
  run (boot fs) os p ->
  let w' := addTask d pr due (mem p) in
  (fst (validateTask d pr) = true ->
     tasks w' = tasks (mem p) ++ [mkTask (nextId (mem p)) d pr false due] /\
     nextId w' = nextId (mem p) + 1 /\
     (forall t, In t (tasks (mem p)) -> id t < nextId (mem p)) /\
     (forall i, In i (since_restart p) -> i < nextId (mem p)) /\
     ~ In (nextId (mem p)) (since_restart p)) /\
  (load_only_first os = true -> since_restart p = ever p) /\
  (fst (validateTask d pr) = false ->
     tasks w' = tasks (mem p) /\ nextId w' = nextId (mem p)).
Proof.
  intros Hrun. cbv zeta.
  split; [|split; [apply (boot_run_keeps_history fs), Hrun|]];
    (apply run_counter_above in Hrun; [|apply boot_counter_above]);
    destruct Hrun as (_ & Ht & Hs); intros Hv.
  - rewrite addTask_valid by exact Hv. cbn [tasks nextId].
    repeat split; try assumption.
    intros Hin. apply Hs in Hin. lia.
  - destruct (addTask_invalid d pr due (mem p) Hv) as (E1 & E2 & _).
    split; assumption.
Qed.

Lemma add_assigns_fresh_increasing_id_witness :
  let fs := disk_with (Some (file_of_lines ["a|1 0 0"]%string)) in
  let os := [OpLoad TASKS_TXT; OpAdd (txt "x") LOW 5; OpDelete 1] in
  let p := mkProcess (mkWorld [mkTask 2 (txt "x") LOW false 5] 3 fs [])
                     [1; 2] [1; 2] in
  run (boot fs) os p /\
  let w' := addTask (txt "y") MEDIUM 0 (mem p) in
  (fst (validateTask (txt "y") MEDIUM) = true ->
     tasks w' = tasks (mem p) ++ [mkTask (nextId (mem p)) (txt "y") MEDIUM false 0] /\
     nextId w' = nextId (mem p) + 1 /\
     (forall t, In t (tasks (mem p)) -> id t < nextId (mem p)) /\
     (forall i, In i (since_restart p) -> i < nextId (mem p)) /\
     ~ In (nextId (mem p)) (since_restart p)) /\
  (load_only_first os = true -> since_restart p = ever p) /\
  (fst (validateTask (txt "y") MEDIUM) = false ->
     tasks w' = tasks (mem p) /\ nextId w' = nextId (mem p)).
Proof.
  cbv zeta.
  assert (Hrun :
    run (boot (disk_with (Some (file_of_lines ["a|1 0 0"]%string))))
        [OpLoad TASKS_TXT; OpAdd (txt "x") LOW 5; OpDelete 1]
        (mkProcess
           (mkWorld [mkTask 2 (txt "x") LOW false 5] 3
                    (disk_with (Some (file_of_lines ["a|1 0 0"]%string))) [])
           [1; 2] [1; 2])).
  { eapply run_cons with
      (p1 := mkProcess
               (mkWorld [mkTask 1 (txt "a") HIGHEST false 0] 2
                        (disk_with (Some (file_of_lines ["a|1 0 0"]%string))) [])
               [1] [1]).
    { repeat split. }
    eapply run_cons with
      (p1 := mkProcess
               (mkWorld [mkTask 1 (txt "a") HIGHEST false 0;
                         mkTask 2 (txt "x") LOW false 5] 3
                        (disk_with (Some (file_of_lines ["a|1 0 0"]%string))) [])
               [1; 2] [1; 2]).
    { repeat split. }
    eapply run_cons; [|apply run_nil].
    repeat split. }
  split; [exact Hrun|].
  exact (add_assigns_fresh_increasing_id _ _ _ (txt "y") MEDIUM 0 Hrun).
Defined.

End Process.

(** ** Binary64 arithmetic *)

Section Binary64.

Lemma digits2_pos_spec (p : positive) :
  2 ^ (Zpos (digits2_pos p) - 1) <= Zpos p < 2 ^ Zpos (digits2_pos p).
Proof.
  induction p as [p IH|p IH|]; cbn [digits2_pos].
  - rewrite Pos2Z.inj_succ. change (Zpos p~1) with (2 * Zpos p + 1).
    replace (Z.succ (Zpos (digits2_pos p)) - 1)
      with (Z.succ (Zpos (digits2_pos p) - 1)) by lia.
    rewrite !Z.pow_succ_r by lia.
    destruct IH as [IH1 IH2]. revert IH1 IH2.
    generalize (2 ^ (Zpos (digits2_pos p) - 1)) (2 ^ Zpos (digits2_pos p)).
    intros; lia.
  - rewrite Pos2Z.inj_succ. change (Zpos p~0) with (2 * Zpos p).
    replace (Z.succ (Zpos (digits2_pos p)) - 1)
      with (Z.succ (Zpos (digits2_pos p) - 1)) by lia.
    rewrite !Z.pow_succ_r by lia.
    destruct IH as [IH1 IH2]. revert IH1 IH2.
    generalize (2 ^ (Zpos (digits2_pos p) - 1)) (2 ^ Zpos (digits2_pos p)).
    intros; lia.
  - cbn. lia.
Qed.

(** The number of binary digits is fixed by the two powers that enclose the
    number. *)
Lemma digits2_pos_unique (p : positive) (k : Z) :
  2 ^ (k - 1) <= Zpos p < 2 ^ k -> Zpos (digits2_pos p) = k.
Proof.
  intros [Hlo Hhi]. pose proof (digits2_pos_spec p) as [Dlo Dhi].
  set (d := Zpos (digits2_pos p)) in *.
  assert (0 < d) by (subst d; lia).
  assert (0 < k).
  { destruct (Z_lt_le_dec 0 k) as [|Hk]; [assumption|].
    assert (2 ^ k <= 2 ^ 0) by (apply Z.pow_le_mono_r; lia).
    change (2 ^ 0) with 1 in *. lia. }
  assert (d - 1 < k).
  { apply (Z.pow_lt_mono_r_iff 2); lia. }
  assert (k - 1 < d).
  { apply (Z.pow_lt_mono_r_iff 2); lia. }
  lia.
Qed.

Lemma shr_1_m (r : shr_record) :
  0 <= shr_m r -> shr_m (shr_1 r) = shr_m r / 2.
Proof.
  destruct r as [m b s]. cbn [shr_m]. intros Hm. unfold shr_1.
  destruct m as [|[p|p|]|p]; cbn [shr_m]; try lia; try reflexivity.
  - change (Zpos p~1) with (2 * Zpos p + 1).
    apply Z.div_unique with 1; lia.
  - change (Zpos p~0) with (2 * Zpos p).
    apply Z.div_unique with 0; lia.
Qed.

Lemma iter_shr_1_m (p : positive) : forall r : shr_record,
  0 <= shr_m r -> shr_m (iter_pos shr_1 p r) = shr_m r / 2 ^ Zpos p.
Proof.
  assert (Hdiv : forall a b c, 0 < b -> 0 < c -> a / (b * c) = a / b / c)
    by (intros; symmetry; apply Z.div_div; lia).
  assert (Hpos : forall q : positive, 0 < 2 ^ Zpos q)
    by (intros; apply Z.pow_pos_nonneg; lia).
  induction p as [p IH|p IH|]; intros r Hr; cbn [iter_pos].
  - assert (H1 : 0 <= shr_m (shr_1 r))
      by (rewrite shr_1_m by exact Hr; apply Z.div_pos; lia).
    assert (H2 : 0 <= shr_m (iter_pos shr_1 p (shr_1 r))).
    { rewrite IH by exact H1. apply Z.div_pos; [exact H1 | apply Hpos]. }
    rewrite IH by exact H2. rewrite IH by exact H1. rewrite shr_1_m by exact Hr.
    pose proof (Hpos p) as Hp.
    replace (2 ^ Zpos p~1) with (2 * 2 ^ Zpos p * 2 ^ Zpos p).
    + rewrite (Hdiv _ (2 * 2 ^ Zpos p)) by lia.
      rewrite (Hdiv _ 2) by lia. reflexivity.
    + replace (Zpos p~1) with (Z.succ (Zpos p + Zpos p)) by lia.
      rewrite Z.pow_succ_r, Z.pow_add_r by lia. lia.
  - assert (H2 : 0 <= shr_m (iter_pos shr_1 p r)).
    { rewrite IH by exact Hr. apply Z.div_pos; [exact Hr | apply Hpos]. }
    rewrite IH by exact H2. rewrite IH by exact Hr.
    pose proof (Hpos p) as Hp.
    replace (2 ^ Zpos p~0) with (2 ^ Zpos p * 2 ^ Zpos p).
    + rewrite Hdiv by lia. reflexivity.
    + replace (Zpos p~0) with (Zpos p + Zpos p) by lia.
      rewrite Z.pow_add_r by lia. reflexivity.
  - rewrite shr_1_m by exact Hr. reflexivity.
Qed.

Lemma shr_record_of_loc_m (m : Z) (l : location) :
  shr_m (shr_record_of_loc m l) = m.
Proof. destruct l as [|[| |]]; reflexivity. Qed.

Lemma round_nearest_even_cases (m : Z) (l : location) :
  round_nearest_even m l = m \/ round_nearest_even m l = m + 1.
Proof.
  unfold round_nearest_even. destruct l as [|[| |]]; auto.
  destruct (Z.even m); auto.
Qed.

(** A mantissa of at least 53 digits, in the range of normal numbers, is
    shifted right until 53 digits are left. *)
Lemma shr_fexp_normal (m : positive) (e : Z) (l : location) :
  53 <= Zpos (digits2_pos m) ->
  - 1074 <= Zpos (digits2_pos m) + e - 53 ->
  exists r,
    shr_fexp 53 1024 (Zpos m) e l = (r, e + (Zpos (digits2_pos m) - 53)) /\
    shr_m r = Zpos m / 2 ^ (Zpos (digits2_pos m) - 53) /\
    (Zpos (digits2_pos m) = 53 -> r = shr_record_of_loc (Zpos m) l).
Proof.
  intros Hd He. unfold shr_fexp, fexp, emin. cbn [Zdigits2].
  set (d := Zpos (digits2_pos m)) in *.
  replace (Z.max (d + e - 53) (3 - 1024 - 53) - e) with (d - 53) by lia.
  unfold shr. destruct (d - 53) as [|p|p] eqn:Es; try lia.
  - eexists. split; [rewrite Z.add_0_r; reflexivity|]. split.
    + rewrite shr_record_of_loc_m. cbn. rewrite Z.div_1_r. reflexivity.
    + reflexivity.
  - eexists. split; [reflexivity|]. split.
    + rewrite iter_shr_1_m; rewrite shr_record_of_loc_m; [reflexivity | lia].
    + lia.
Qed.

Lemma normal_quotient (m : positive) :
  53 <= Zpos (digits2_pos m) ->
  2 ^ 52 <= Zpos m / 2 ^ (Zpos (digits2_pos m) - 53) < 2 ^ 53.
Proof.
  intros Hd. pose proof (digits2_pos_spec m) as [Hlo Hhi].
  set (d := Zpos (digits2_pos m)) in *.
  assert (Hs : 0 < 2 ^ (d - 53)) by (apply Z.pow_pos_nonneg; lia).
  assert (E1 : 2 ^ (d - 1) = 2 ^ 52 * 2 ^ (d - 53))
    by (rewrite <- Z.pow_add_r by lia; f_equal; lia).
  assert (E2 : 2 ^ d = 2 ^ 53 * 2 ^ (d - 53))
    by (rewrite <- Z.pow_add_r by lia; f_equal; lia).
  split.
  - apply Z.div_le_lower_bound; lia.
  - apply Z.div_lt_upper_bound; lia.
Qed.

(** Rounding a positive number of at least 53 digits whose exponent stays in
    the range of normal numbers: the result is a normal number whose
    mantissa is the truncated mantissa or its successor. *)
Lemma binary_round_aux_normal (mx : positive) (ex : Z) (lx : location) :
  53 <= Zpos (digits2_pos mx) ->
  - 1074 <= Zpos (digits2_pos mx) + ex - 53 ->
  Zpos (digits2_pos mx) + ex <= 1023 ->
  exists m e,
    binary_round_aux 53 1024 false (Zpos mx) ex lx = S754_finite false m e /\
    2 ^ 52 <= Zpos m < 2 ^ 53 /\
    ((e = ex + (Zpos (digits2_pos mx) - 53) /\
      (Zpos m = Zpos mx / 2 ^ (Zpos (digits2_pos mx) - 53) \/
       Zpos m = Zpos mx / 2 ^ (Zpos (digits2_pos mx) - 53) + 1)) \/
     (e = ex + (Zpos (digits2_pos mx) - 53) + 1 /\ Zpos m = 2 ^ 52 /\
      Zpos mx / 2 ^ (Zpos (digits2_pos mx) - 53) = 2 ^ 53 - 1)) /\
    (lx = loc_Exact -> Zpos (digits2_pos mx) = 53 -> m = mx /\ e = ex).
Proof.
  intros Hd Hlo Hhi.
  destruct (shr_fexp_normal mx ex lx Hd Hlo) as (r1 & E1 & Hm1 & Hx1).
  pose proof (normal_quotient mx Hd) as Hq.
  set (d := Zpos (digits2_pos mx)) in *.
  set (q := Zpos mx / 2 ^ (d - 53)) in *.
  change (2 ^ 52) with 4503599627370496 in *.
  change (2 ^ 53) with 9007199254740992 in *.
  unfold binary_round_aux. rewrite E1.
  pose proof (round_nearest_even_cases (shr_m r1) (loc_of_shr_record r1)) as Hr.
  assert (Hexact : lx = loc_Exact -> d = 53 ->
            round_nearest_even (shr_m r1) (loc_of_shr_record r1) = Zpos mx).
  { intros -> Hd53. rewrite (Hx1 Hd53). reflexivity. }
  destruct (round_nearest_even (shr_m r1) (loc_of_shr_record r1))
    as [|m1|m1] eqn:Em1; rewrite Hm1 in Hr; try lia.
  destruct (Z_lt_le_dec (Zpos m1) 9007199254740992) as [Hlt|Hge].
  - (* no carry *)
    assert (Hd1 : Zpos (digits2_pos m1) = 53)
      by (apply digits2_pos_unique; cbn; lia).
    destruct (shr_fexp_normal m1 (ex + (d - 53)) loc_Exact) as (r2 & E2 & Hm2 & Hx2);
      [lia | lia |].
    rewrite E2, (Hx2 Hd1). cbn [shr_m shr_record_of_loc].
    rewrite Hd1.
    destruct (ex + (d - 53) + (53 - 53) <=? 1024 - 53) eqn:Ele;
      [|apply Z.leb_gt in Ele; lia].
    exists m1, (ex + (d - 53) + (53 - 53)).
    split; [reflexivity|]. split; [lia|]. split.
    + left. split; [lia|]. lia.
    + intros Hl Hd53. specialize (Hexact Hl Hd53).
      split; [congruence | lia].
  - (* the mantissa reaches 2^53 *)
    assert (Hm1v : Zpos m1 = 9007199254740992) by lia.
    assert (Hd1 : Zpos (digits2_pos m1) = 54)
      by (apply digits2_pos_unique; rewrite Hm1v; cbn; lia).
    destruct (shr_fexp_normal m1 (ex + (d - 53)) loc_Exact) as (r2 & E2 & Hm2 & _);
      [lia | lia |].
    rewrite E2, Hd1. rewrite Hd1, Hm1v in Hm2.
    change (9007199254740992 / 2 ^ (54 - 53)) with 4503599627370496 in Hm2.
    rewrite Hm2.
    destruct (ex + (d - 53) + (54 - 53) <=? 1024 - 53) eqn:Ele;
      [|apply Z.leb_gt in Ele; lia].
    exists 4503599627370496%positive, (ex + (d - 53) + (54 - 53)).
    split; [reflexivity|]. split; [lia|]. split.
    + right. split; [lia|]. split; [reflexivity | lia].
    + intros Hl Hd53. specialize (Hexact Hl Hd53).
      assert (Zpos mx < 9007199254740992).
      { pose proof (digits2_pos_spec mx) as [_ H]. fold d in H.
        rewrite Hd53 in H. exact H. }
      lia.
Qed.

(** The same, with the result compared to the number that was rounded: with
    [k] the number of digits dropped, the mantissa [m] of the result and the
    mantissa [mx] that was rounded satisfy [(m-1) 2^k <= mx < (m+1) 2^k]. *)
Lemma binary_round_aux_close (mx : positive) (ex : Z) (lx : location) :
  53 <= Zpos (digits2_pos mx) ->
  - 1074 <= Zpos (digits2_pos mx) + ex - 53 ->
  Zpos (digits2_pos mx) + ex <= 1023 ->
  exists m k,
    binary_round_aux 53 1024 false (Zpos mx) ex lx = S754_finite false m (ex + k) /\
    2 ^ 52 <= Zpos m < 2 ^ 53 /\
    (k = Zpos (digits2_pos mx) - 53 \/
     (k = Zpos (digits2_pos mx) - 52 /\ Zpos m = 2 ^ 52)) /\
    (Zpos m - 1) * 2 ^ k <= Zpos mx /\
    Zpos mx + 1 <= (Zpos m + 1) * 2 ^ k /\
    Zpos m * 2 ^ k <=
      (Zpos mx / 2 ^ (Zpos (digits2_pos mx) - 53) + 1)
      * 2 ^ (Zpos (digits2_pos mx) - 53).
Proof.
  intros Hd Hlo Hhi.
  destruct (binary_round_aux_normal mx ex lx Hd Hlo Hhi)
    as (m & e & E & Hm & Hcases & _).
  set (s := Zpos (digits2_pos mx) - 53) in *.
  assert (Hs : 0 <= s) by (subst s; lia).
  assert (Hp : 0 < 2 ^ s) by (apply Z.pow_pos_nonneg; lia).
  pose proof (Z.div_mod (Zpos mx) (2 ^ s) ltac:(lia)) as Hdm.
  pose proof (Z.mod_pos_bound (Zpos mx) (2 ^ s) Hp) as Hmod.
  set (q := Zpos mx / 2 ^ s) in *.
  change (2 ^ 52) with 4503599627370496 in *.
  change (2 ^ 53) with 9007199254740992 in *.
  destruct Hcases as [[-> Hmq] | (-> & Hm52 & Hq)].
  - exists m, s. split; [exact E|]. split; [exact Hm|].
    split; [left; reflexivity|].
    destruct Hmq as [-> | ->]; nia.
  - exists m, (s + 1). rewrite Z.add_assoc. split; [exact E|].
    split; [exact Hm|]. split; [right; split; [subst s; lia | exact Hm52]|].
    rewrite Z.pow_add_r by lia. change (2 ^ 1) with 2. nia.
Qed.

Lemma iter_xO_value (m k : positive) :
  Zpos (Pos.iter xO m k) = Zpos m * 2 ^ Zpos k.
Proof.
  induction k as [|k IH] using Pos.peano_ind.
  - change (Zpos (Pos.iter xO m 1)) with (2 * Zpos m).
    change (2 ^ Zpos 1) with 2. lia.
  - rewrite Pos.iter_succ, Pos2Z.inj_succ, Z.pow_succ_r by lia.
    change (Zpos (Pos.iter xO m k)~0) with (2 * Zpos (Pos.iter xO m k)).
    rewrite IH. lia.
Qed.

(** Converting a positive integer below 2^53 to [double] is exact: the
    mantissa is the integer shifted left to 53 digits. *)
Lemma double_of_Z_pos (c : positive) :
  Zpos c < 2 ^ 53 ->
  exists m e,
    double_of_Z (Zpos c) = S754_finite false m e /\
    - 52 <= e <= 0 /\
    Zpos m = Zpos c * 2 ^ (- e) /\
    Zpos (digits2_pos m) = 53.
Proof.
  intros Hc. pose proof (digits2_pos_spec c) as [Dlo Dhi].
  set (d := Zpos (digits2_pos c)) in *.
  assert (Hd1 : 1 <= d) by (subst d; lia).
  assert (Hd53 : d <= 53).
  { assert (d - 1 < 53); [|lia]. apply (Z.pow_lt_mono_r_iff 2); lia. }
  unfold double_of_Z, binary_normalize, binary_round, shl_align, fexp, emin.
  fold d.
  replace (Z.max (d + 0 - 53) (3 - 1024 - 53) - 0) with (d - 53) by lia.
  replace (Z.max (d + 0 - 53) (3 - 1024 - 53)) with (d - 53) by lia.
  destruct (d - 53) as [|k|k] eqn:Ek; try lia.
  - assert (Ed : d = 53) by lia.
    destruct (binary_round_aux_normal c 0 loc_Exact) as (m & e & E & _ & _ & Hx);
      fold d; try lia.
    destruct (Hx eq_refl Ed) as [-> ->].
    exists c, 0. split; [exact E|]. split; [lia|]. split; [cbn; lia | exact Ed].
  - pose proof (iter_xO_value c k) as Hv.
    assert (Hk : Zpos k = 53 - d) by lia.
    assert (Hdm : Zpos (digits2_pos (Pos.iter xO c k)) = 53).
    { apply digits2_pos_unique. rewrite Hv, Hk.
      replace (2 ^ (53 - 1)) with (2 ^ (d - 1) * 2 ^ (53 - d))
        by (rewrite <- Z.pow_add_r by lia; f_equal; lia).
      replace (2 ^ 53) with (2 ^ d * 2 ^ (53 - d))
        by (rewrite <- Z.pow_add_r by lia; f_equal; lia).
      assert (0 < 2 ^ (53 - d)) by (apply Z.pow_pos_nonneg; lia).
      nia. }
    destruct (binary_round_aux_normal (Pos.iter xO c k) (Zneg k) loc_Exact)
      as (m & e & E & _ & _ & Hx); rewrite ?Hdm; try lia.
    destruct (Hx eq_refl Hdm) as [-> ->].
    eexists _, _. split; [exact E|]. split; [lia|].
    split; [|exact Hdm]. rewrite Hv. reflexivity.
Qed.

(** The quotient of two 53-digit mantissas, before rounding. *)
Lemma SFdiv_core_binary_normal (mc mn : positive) (ec en : Z) :
  Zpos (digits2_pos mc) = 53 -> Zpos (digits2_pos mn) = 53 ->
  - 1074 <= ec - en - 53 ->
  exists q r,
    SFdiv_core_binary 53 1024 (Zpos mc) ec (Zpos mn) en
      = (q, ec - en - 53, new_location (Zpos mn) r) /\
    Zpos mc * 2 ^ 53 = Zpos mn * q + r /\ 0 <= r < Zpos mn.
Proof.
  intros Hc Hn He. unfold SFdiv_core_binary, fexp, emin. cbn [Zdigits2].
  rewrite Hc, Hn. cbv zeta.
  replace (Z.min (Z.max (53 + ec - (53 + en) - 53) (3 - 1024 - 53)) (ec - en))
    with (ec - en - 53) by lia.
  replace (ec - en - (ec - en - 53)) with 53 by lia.
  rewrite Z.shiftl_mul_pow2 by lia.
  pose proof (Z_div_mod (Zpos mc * 2 ^ 53) (Zpos mn) ltac:(lia)) as Hdm.
  destruct (Z.div_eucl (Zpos mc * 2 ^ 53) (Zpos mn)) as [q r].
  exists q, r. split; [reflexivity | exact Hdm].
Qed.

Lemma digits2_pos_53_bounds (m : positive) :
  Zpos (digits2_pos m) = 53 -> 2 ^ 52 <= Zpos m < 2 ^ 53.
Proof.
  intros H. pose proof (digits2_pos_spec m) as Hs. rewrite H in Hs. exact Hs.
Qed.

(** A number divided by itself is 1. *)
Lemma double_div_same (m : positive) (e : Z) :
  Zpos (digits2_pos m) = 53 -> - 52 <= e <= 0 ->
  double_div (S754_finite false m e) (S754_finite false m e)
  = S754_finite false 4503599627370496 (- 52).
Proof.
  intros Hm He. unfold double_div, SFdiv.
  destruct (SFdiv_core_binary_normal m m e e Hm Hm ltac:(lia))
    as (q & r & E & Hq & Hr).
  rewrite E.
  change (2 ^ 53) with 9007199254740992 in Hq.
  assert (Hq' : q = 9007199254740992).
  { destruct (Z.lt_trichotomy q 9007199254740992) as [H|[H|H]];
      [exfalso; nia | exact H | exfalso; nia]. }
  assert (Hr' : r = 0) by nia.
  subst q r.
  replace (e - e - 53) with (- 53) by lia.
  assert (Hloc : new_location (Zpos m) 0 = loc_Exact).
  { unfold new_location, new_location_even, new_location_odd.
    destruct (Z.even (Zpos m)); reflexivity. }
  rewrite Hloc. reflexivity.
Qed.

(** A quotient of two integers [c < n], both converted exactly: the result
    is a normal number, at most 1, close to the exact quotient. *)
Lemma double_div_below_one (mc mn : positive) (ec en : Z) :
  Zpos (digits2_pos mc) = 53 -> Zpos (digits2_pos mn) = 53 ->
  - 52 <= ec -> ec <= en -> en <= 0 ->
  (ec = en -> Zpos mc < Zpos mn) ->
  exists mx k,
    double_div (S754_finite false mc ec) (S754_finite false mn en)
      = S754_finite false mx (ec - en - 53 + k) /\
    2 ^ 52 <= Zpos mx < 2 ^ 53 /\
    0 <= k <= 2 /\
    (ec - en - 53 + k <= - 53 \/
     (ec - en - 53 + k = - 52 /\ Zpos mx = 2 ^ 52)) /\
    (Zpos mx - 1) * 2 ^ k * Zpos mn <= Zpos mc * 2 ^ 53 /\
    Zpos mc * 2 ^ 53 <= (Zpos mx + 1) * 2 ^ k * Zpos mn.
Proof.
  intros Hc Hn Hec Hle Hen Hlt. unfold double_div, SFdiv.
  destruct (SFdiv_core_binary_normal mc mn ec en Hc Hn ltac:(lia))
    as (q & r & E & Hq & Hr).
  rewrite E. cbn [xorb].
  pose proof (digits2_pos_53_bounds mc Hc) as Bc.
  pose proof (digits2_pos_53_bounds mn Hn) as Bn.
  change (2 ^ 52) with 4503599627370496 in *.
  change (2 ^ 53) with 9007199254740992 in *.
  assert (Hqlo : 4503599627370496 <= q) by nia.
  assert (Hqhi : q < 18014398509481984) by nia.
  destruct q as [|pq|pq]; try lia.
  assert (Hdq : Zpos (digits2_pos pq) = 53 \/ Zpos (digits2_pos pq) = 54).
  { destruct (Z_lt_le_dec (Zpos pq) 9007199254740992).
    - left. apply digits2_pos_unique. cbn. lia.
    - right. apply digits2_pos_unique. cbn. lia. }
  destruct (binary_round_aux_close pq (ec - en - 53) (new_location (Zpos mn) r))
    as (mx & k & Eb & Hmx & Hk & Hlo & Hhi & Hfl); try lia.
  exists mx, k. split; [exact Eb|].
  change (2 ^ 52) with 4503599627370496 in *.
  change (2 ^ 53) with 9007199254740992 in *.
  split; [exact Hmx|].
  assert (Hk02 : 0 <= k <= 2) by lia.
  split; [exact Hk02|].
  assert (Hpk : 0 < 2 ^ k) by (apply Z.pow_pos_nonneg; lia).
  split; [|split; nia].
  (* at most 1 *)
  destruct (Z.eq_dec ec en) as [Heq|Hne].
  - specialize (Hlt Heq). subst en.
    assert (Hq53 : Zpos pq < 9007199254740992) by nia.
    assert (Hd53 : Zpos (digits2_pos pq) = 53)
      by (apply digits2_pos_unique; cbn; lia).
    rewrite Hd53 in Hk. destruct Hk as [-> | [-> Hm]]; [left; lia | right; lia].
  - destruct Hk as [-> | [-> Hm]].
    + left. lia.
    + destruct Hdq as [Hd | Hd]; rewrite Hd.
      * left. lia.
      * destruct (Z.eq_dec (en - ec) 1); [right; lia | left; lia].
Qed.

Lemma double_of_Z_100 :
  double_of_Z 100 = S754_finite false 7036874417766400 (- 46).
Proof. reflexivity. Qed.

(** Multiplying a normal number below 1 by 100: the result is a normal
    number, at most 100, close to the exact product. *)
Lemma double_mul_100_below (mx : positive) (ex : Z) :
  2 ^ 52 <= Zpos mx < 2 ^ 53 -> - 110 <= ex <= - 53 ->
  exists mr k,
    double_mul (S754_finite false mx ex)
               (S754_finite false 7036874417766400 (- 46))
      = S754_finite false mr (ex + - 46 + k) /\
    2 ^ 52 <= Zpos mr < 2 ^ 53 /\
    52 <= k <= 54 /\
    (ex + - 46 + k < - 46 \/
     (ex + - 46 + k = - 46 /\ Zpos mr <= 7036874417766400)) /\
    (Zpos mr - 1) * 2 ^ k <= Zpos mx * 7036874417766400 /\
    Zpos mx * 7036874417766400 + 1 <= (Zpos mr + 1) * 2 ^ k.
Proof.
  intros Hmx Hex. unfold double_mul, SFmul. cbn [xorb].
  set (P := (mx * 7036874417766400)%positive).
  assert (HP : Zpos P = Zpos mx * 7036874417766400) by (subst P; lia).
  change (2 ^ 52) with 4503599627370496 in *.
  change (2 ^ 53) with 9007199254740992 in *.
  assert (Hd : Zpos (digits2_pos P) = 105 \/ Zpos (digits2_pos P) = 106).
  { destruct (Z_lt_le_dec (Zpos P) (2 ^ 105)).
    - left. apply digits2_pos_unique.
      change (2 ^ (105 - 1)) with (4503599627370496 * 4503599627370496) in *.
      split; [nia | assumption].
    - right. apply digits2_pos_unique.
      change (2 ^ (106 - 1)) with (2 ^ 105).
      change (2 ^ 106) with (9007199254740992 * 9007199254740992).
      split; [assumption | nia]. }
  destruct (binary_round_aux_close P (ex + - 46) loc_Exact)
    as (mr & k & Eb & Hmr & Hk & Hlo & Hhi & Hfl); try lia.
  exists mr, k. split; [exact Eb|].
  change (2 ^ 52) with 4503599627370496 in *.
  change (2 ^ 53) with 9007199254740992 in *.
  split; [exact Hmr|]. split; [lia|].
  rewrite HP in Hlo, Hhi. split; [|split; assumption].
  (* at most 100 *)
  set (s := Zpos (digits2_pos P) - 53) in *.
  assert (Hs : 0 < 2 ^ s) by (apply Z.pow_pos_nonneg; subst s; lia).
  assert (HQ : Zpos P / 2 ^ s * 2 ^ s <= Zpos P).
  { pose proof (Z.div_mod (Zpos P) (2 ^ s) ltac:(lia)).
    pose proof (Z.mod_pos_bound (Zpos P) (2 ^ s) Hs). lia. }
  destruct (Z_lt_le_dec (ex + - 46 + k) (- 46)) as [Hlt|Hge]; [left; exact Hlt|].
  right.
  assert (Hk53 : (k = 53 /\ s = 53 /\ ex = - 53) \/
                 (k = 53 /\ s = 52 /\ Zpos mr = 4503599627370496) \/
                 (k = 54 /\ s = 53 /\ Zpos mr = 4503599627370496)).
  { subst s. destruct Hd as [Hd|Hd]; rewrite Hd in *;
      destruct Hk as [Hk|[Hk Hm]]; lia. }
  destruct Hk53 as [(-> & Es & ->) | [(-> & Es & Hm) | (-> & Es & Hm)]];
    rewrite Es in *.
  - split; [lia|].
    change (2 ^ 53) with 9007199254740992 in *.
    assert (Zpos P / 9007199254740992 < 7036874417766400)
      by (apply Z.div_lt_upper_bound; lia).
    nia.
  - split; lia.
  - change (2 ^ 54) with (2 * 9007199254740992) in *.
    change (2 ^ 53) with 9007199254740992 in *.
    assert (Zpos P / 9007199254740992 < 7036874417766400)
      by (apply Z.div_lt_upper_bound; lia).
    destruct (Z.eq_dec ex (- 53)) as [->|Hne]; [exfalso; nia | split; lia].
Qed.

End Binary64.

(** ** The value of a [double] *)

Section DoubleValue.

Local Open Scope Q_scope.

Lemma pow2_pos (e : Z) : 0 < 2 ^ e.
Proof. apply Qpower_0_lt. reflexivity. Qed.

Lemma pow2_add (a b : Z) : 2 ^ (a + b) == 2 ^ a * 2 ^ b.
Proof. apply Qpower_plus. discriminate. Qed.

Lemma pow2_inject (k : Z) : (0 <= k)%Z -> inject_Z (2 ^ k) == 2 ^ k.
Proof. intros Hk. apply (Zpower_Qpower 2 k Hk). Qed.

Lemma pow2_le (a b : Z) : (a <= b)%Z -> 2 ^ a <= 2 ^ b.
Proof. intros H. apply Qpower_le_compat_l; [exact H | discriminate]. Qed.

Lemma dyadic_shift (m k e : Z) :
  (0 <= k)%Z -> inject_Z (m * 2 ^ k) * 2 ^ e == inject_Z m * 2 ^ (e + k).
Proof.
  intros Hk. rewrite inject_Z_mult, pow2_add, (pow2_inject k Hk). ring.
Qed.

Lemma dyadic_le (a b e : Z) :
  (a <= b)%Z -> inject_Z a * 2 ^ e <= inject_Z b * 2 ^ e.
Proof.
  intros H. apply Qmult_le_compat_r.
  - rewrite <- Zle_Qle. exact H.
  - apply Qlt_le_weak, pow2_pos.
Qed.

Lemma mul_100_close (mx mr : positive) (ex k : Z) :
  (0 <= k)%Z ->
  ((Zpos mr - 1) * 2 ^ k <= Zpos mx * 7036874417766400)%Z ->
  (Zpos mx * 7036874417766400 + 1 <= (Zpos mr + 1) * 2 ^ k)%Z ->
  inject_Z (Zpos mr) * 2 ^ (ex + - 46 + k) - 2 ^ (ex + - 46 + k)
    <= 100 * (inject_Z (Zpos mx) * 2 ^ ex) /\
  100 * (inject_Z (Zpos mx) * 2 ^ ex)
    <= inject_Z (Zpos mr) * 2 ^ (ex + - 46 + k) + 2 ^ (ex + - 46 + k).
Proof.
  intros Hk Hlo Hhi.
  assert (H100 : 100 * (inject_Z (Zpos mx) * 2 ^ ex)
                 == inject_Z (Zpos mx * 7036874417766400) * 2 ^ (ex + - 46)).
  { rewrite inject_Z_mult, pow2_add.
    assert (E : inject_Z 7036874417766400 * 2 ^ (- 46) == 100) by reflexivity.
    rewrite <- E. ring. }
  assert (Hm : inject_Z (Zpos mr) * 2 ^ (ex + - 46 + k) - 2 ^ (ex + - 46 + k)
               == inject_Z ((Zpos mr - 1) * 2 ^ k) * 2 ^ (ex + - 46)).
  { rewrite dyadic_shift by exact Hk.
    replace (Zpos mr - 1)%Z with (Zpos mr + -1)%Z by lia.
    rewrite inject_Z_plus. change (inject_Z (-1)) with (- (1)). ring. }
  assert (Hp : inject_Z (Zpos mr) * 2 ^ (ex + - 46 + k) + 2 ^ (ex + - 46 + k)
               == inject_Z ((Zpos mr + 1) * 2 ^ k) * 2 ^ (ex + - 46)).
  { rewrite dyadic_shift by exact Hk.
    rewrite inject_Z_plus. change (inject_Z 1) with 1. ring. }
  rewrite H100, Hm, Hp. split; apply dyadic_le; lia.
Qed.

Lemma div_close (c n : Z) (mc mn mx : positive) (ec en k : Z) :
  (0 < n)%Z -> (ec <= 0)%Z -> (en <= 0)%Z -> (0 <= k)%Z ->
  Zpos mc = (c * 2 ^ (- ec))%Z -> Zpos mn = (n * 2 ^ (- en))%Z ->
  ((Zpos mx - 1) * 2 ^ k * Zpos mn <= Zpos mc * 2 ^ 53)%Z ->
  (Zpos mc * 2 ^ 53 <= (Zpos mx + 1) * 2 ^ k * Zpos mn)%Z ->
  inject_Z (Zpos mx) * 2 ^ (ec - en - 53 + k) - 2 ^ (ec - en - 53 + k)
    <= inject_Z c / inject_Z n /\
  inject_Z c / inject_Z n
    <= inject_Z (Zpos mx) * 2 ^ (ec - en - 53 + k) + 2 ^ (ec - en - 53 + k).
Proof.
  intros Hn Hec Hen Hk Hmc Hmn Hlo Hhi.
  assert (Hn' : 0 < inject_Z n)
    by (change 0 with (inject_Z 0); rewrite <- Zlt_Qlt; exact Hn).
  set (u := 2 ^ (- ec) * 2 ^ 53).
  assert (Hu : 0 < u).
  { unfold u. apply Qmult_lt_0_compat; apply pow2_pos. }
  assert (Ec : inject_Z c * u == inject_Z (Zpos mc * 2 ^ 53)).
  { unfold u. rewrite Hmc, !inject_Z_mult.
    rewrite (pow2_inject (- ec)) by lia.
    rewrite (pow2_inject 53) by lia. ring. }
  assert (Epow : 2 ^ (ec - en - 53 + k) * u == 2 ^ (- en) * 2 ^ k).
  { unfold u. rewrite <- !pow2_add. f_equiv. lia. }
  assert (Em : forall a : Z,
            inject_Z a * 2 ^ (ec - en - 53 + k) * inject_Z n * u
            == inject_Z (a * 2 ^ k * Zpos mn)).
  { intros a. rewrite Hmn, !inject_Z_mult.
    rewrite (pow2_inject k) by lia. rewrite (pow2_inject (- en)) by lia.
    transitivity (inject_Z a * inject_Z n * (2 ^ (ec - en - 53 + k) * u));
      [ring|]. rewrite Epow. ring. }
  split.
  - apply Qle_shift_div_l; [exact Hn'|].
    apply (Qmult_le_r _ _ u Hu). rewrite Ec.
    apply Qle_trans with
      (inject_Z (Zpos mx - 1) * 2 ^ (ec - en - 53 + k) * inject_Z n * u).
    + replace (Zpos mx - 1)%Z with (Zpos mx + -1)%Z by lia.
      rewrite inject_Z_plus. change (inject_Z (-1)) with (- (1)).
      apply Qle_lteq. right. ring.
    + rewrite Em. rewrite <- Zle_Qle. exact Hlo.
  - apply Qle_shift_div_r; [exact Hn'|].
    apply (Qmult_le_r _ _ u Hu). rewrite Ec.
    apply Qle_trans with
      (inject_Z (Zpos mx + 1) * 2 ^ (ec - en - 53 + k) * inject_Z n * u).
    + rewrite Em. rewrite <- Zle_Qle. exact Hhi.
    + rewrite inject_Z_plus. change (inject_Z 1) with 1.
      apply Qle_lteq. right. ring.
Qed.

(** Two integers with 53-digit conversions: the smaller one has the smaller
    exponent, or the same exponent and the smaller mantissa. *)
Lemma conversions_ordered (c n : Z) (mc mn : positive) (ec en : Z) :
  (0 < c < n)%Z -> (- 52 <= ec <= 0)%Z -> (- 52 <= en <= 0)%Z ->
  Zpos mc = (c * 2 ^ (- ec))%Z -> Zpos mn = (n * 2 ^ (- en))%Z ->
  Zpos (digits2_pos mc) = 53%Z -> Zpos (digits2_pos mn) = 53%Z ->
  (ec <= en)%Z /\ (ec = en -> (Zpos mc < Zpos mn)%Z).
Proof.
  intros Hcn Hec Hen Hmc Hmn Dc Dn.
  pose proof (digits2_pos_53_bounds mc Dc) as Bc.
  pose proof (digits2_pos_53_bounds mn Dn) as Bn.
  change (2 ^ 52)%Z with 4503599627370496%Z in *.
  change (2 ^ 53)%Z with 9007199254740992%Z in *.
  assert (Ha : (0 < 2 ^ (- ec))%Z) by (apply Z.pow_pos_nonneg; lia).
  split.
  - destruct (Z_le_gt_dec ec en) as [H|H]; [exact H | exfalso].
    assert (E : (2 ^ (- en) = 2 ^ (- ec) * 2 ^ (ec - en))%Z)
      by (rewrite <- Z.pow_add_r by lia; f_equal; lia).
    assert (H2 : (2 ^ 1 <= 2 ^ (ec - en))%Z) by (apply Z.pow_le_mono_r; lia).
    change (2 ^ 1)%Z with 2%Z in H2. nia.
  - intros ->. nia.
Qed.

Lemma SFleb_finite (m1 m2 : positive) (e1 e2 : Z) :
  (e1 < e2 \/ (e1 = e2 /\ Zpos m1 <= Zpos m2))%Z ->
  SFleb (S754_finite false m1 e1) (S754_finite false m2 e2) = true.
Proof.
  unfold SFleb, SFcompare. intros [H | [-> H]].
  - apply Z.compare_lt_iff in H. rewrite H. reflexivity.
  - rewrite Z.compare_refl.
    assert (Hc : (m1 <= m2)%positive) by exact H.
    unfold Pos.le, Pos.compare in Hc.
    destruct (Pos.compare_cont Eq m1 m2);
      [reflexivity | reflexivity | exfalso; apply Hc; reflexivity].
Qed.

Lemma tiny_53 : 2 ^ (- 53) == 1 # 9007199254740992.
Proof. reflexivity. Qed.

Lemma tiny_52 : 2 ^ (- 52) == 1 # 4503599627370496.
Proof. reflexivity. Qed.

Lemma tiny_46 : 2 ^ (- 46) == 1 # 70368744177664.
Proof. reflexivity. Qed.

(** The percentage of [c] out of [n]: a [double] between 0 and 100, within
    2^-44 of the exact quotient. *)
Lemma percentage_of_spec (c n : Z) :
  (0 <= c <= n)%Z -> (0 < n < 2 ^ 53)%Z ->
  SFleb (S754_zero false) (percentage_of c n) = true /\
  SFleb (percentage_of c n) (double_of_Z 100) = true /\
  Qabs (double_value (percentage_of c n) - 100 * inject_Z c / inject_Z n)
    <= 1 # 17592186044416.
Proof.
  intros Hc Hn. unfold percentage_of. rewrite double_of_Z_100.
  assert (Hn' : 0 < inject_Z n)
    by (change 0 with (inject_Z 0); rewrite <- Zlt_Qlt; lia).
  assert (Hn0 : ~ inject_Z n == 0) by (intros E; rewrite E in Hn'; discriminate).
  assert (Hq : 100 * inject_Z c / inject_Z n == 100 * (inject_Z c / inject_Z n))
    by (unfold Qdiv; ring).
  rewrite Hq. clear Hq.
  destruct n as [|pn|pn]; try lia.
  destruct (double_of_Z_pos pn ltac:(lia)) as (mn & en & En & Hen & Hmn & Dn).
  rewrite En.
  destruct c as [|pc|pc]; try lia.
  - (* no task completed *)
    cbn. split; [reflexivity|]. split; [reflexivity|].
    unfold Qle; cbn; lia.
  - destruct (double_of_Z_pos pc ltac:(lia)) as (mc & ec & Ec & Hec & Hmc & Dc).
    rewrite Ec.
    destruct (Z.eq_dec (Zpos pc) (Zpos pn)) as [Heq|Hne].
    + (* all tasks completed *)
      assert (pc = pn) by congruence. subst pn.
      rewrite Ec in En. injection En as -> ->.
      rewrite double_div_same by assumption.
      split; [reflexivity|]. split; [reflexivity|].
      assert (E : double_value
                    (double_mul (S754_finite false 4503599627370496 (- 52))
                                (S754_finite false 7036874417766400 (- 46)))
                  == 100) by reflexivity.
      rewrite E. apply Qabs_Qle_condition.
      assert (E1 : inject_Z (Zpos pc) / inject_Z (Zpos pc) == 1)
        by (field; exact Hn0).
      rewrite E1. split; discriminate.
    + destruct (conversions_ordered (Zpos pc) (Zpos pn) mc mn ec en)
        as [Hle Hlt]; try assumption; try lia.
      destruct (double_div_below_one mc mn ec en Dc Dn)
        as (mx & k & Ex & Hmx & Hk & Hone & Hlo & Hhi); try lia; try assumption.
      rewrite Ex.
      destruct (div_close (Zpos pc) (Zpos pn) mc mn mx ec en k)
        as [Hd1 Hd2]; try assumption; try lia.
      set (q := inject_Z (Zpos pc) / inject_Z (Zpos pn)) in *.
      set (ex := (ec - en - 53 + k)%Z) in *.
      destruct Hone as [Hex | [Hex Hm1]].
      * (* the quotient is below 1 *)
        destruct (double_mul_100_below mx ex Hmx)
          as (mr & k' & Er & Hmr & Hk' & Hr & Hlo' & Hhi'); [subst ex; lia|].
        rewrite Er.
        destruct (mul_100_close mx mr ex k') as [Hm1 Hm2];
          try assumption; try lia.
        set (er := (ex + - 46 + k')%Z) in *.
        split; [reflexivity|]. split.
        -- apply SFleb_finite. exact Hr.
        -- cbn [double_value cond_Zopp].
           assert (Pex : 2 ^ ex <= 2 ^ (- 53)) by (apply pow2_le; exact Hex).
           assert (Per : 2 ^ er <= 2 ^ (- 46))
             by (apply pow2_le; subst er; lia).
           rewrite tiny_53 in Pex. rewrite tiny_46 in Per.
           pose proof (pow2_pos ex). pose proof (pow2_pos er).
           apply Qabs_Qle_condition.
           set (x := inject_Z (Zpos mx) * 2 ^ ex) in *.
           set (r := inject_Z (Zpos mr) * 2 ^ er) in *.
           split; lra.
      * (* the quotient rounds to 1 *)
        assert (mx = 4503599627370496%positive) by lia. subst mx.
        fold ex. rewrite Hex.
        split; [reflexivity|]. split; [reflexivity|].
        assert (E : double_value
                      (double_mul (S754_finite false 4503599627370496 (- 52))
                                  (S754_finite false 7036874417766400 (- 46)))
                    == 100) by reflexivity.
        rewrite E. rewrite Hex in Hd1, Hd2. rewrite tiny_52 in Hd1, Hd2.
        assert (E1 : inject_Z 4503599627370496 * (1 # 4503599627370496) == 1)
          by reflexivity.
        apply Qabs_Qle_condition. split; lra.
Qed.

End DoubleValue.

(** ** The completion percentage *)

Section Percentage.

Lemma count_completed_filter (ts : list Task) :
  count_completed ts = Z.of_nat (length (filter completed ts)).
Proof.
  unfold count_completed.
  assert (H : forall a,
            fold_left (fun completedCount t =>
                         if completed t then completedCount + 1
                         else completedCount) ts a
            = a + Z.of_nat (length (filter completed ts))).
  { induction ts as [|t ts IH]; intros a; cbn [fold_left filter length].
    - lia.
    - rewrite IH. destruct (completed t); cbn [length]; lia. }
  rewrite H. lia.
Qed.

(** C8, as stated, fails: the function computes (completedCount / size) *
    100.0 in [double], and the rounding of the division shows in the result.
    With 100 tasks of which 7 are completed the [double] shown is
    7881299347898369 * 2^-50, the one next above 7, and not
    100 * 7 / 100 = 7, which is the [double] 7881299347898368 * 2^-50. *)
Lemma percentage_of_7_in_100_is_not_7 :
  let w := mkWorld hundred_tasks 101 (disk_with None) [] in
  Z.of_nat (length (tasks w)) = 100 /\
  count_completed (tasks w) = 7 /\
  displayCompletionPercentage w
    = Percentage (S754_finite false 7881299347898369 (-50)) /\
  double_of_Z 7 = S754_finite false 7881299347898368 (-50) /\
  ~ (double_value (shown_percentage (displayCompletionPercentage w))
     == 100 * 7 / 100)%Q.
Proof.
  cbv zeta.
  assert (E : displayCompletionPercentage
                (mkWorld hundred_tasks 101 (disk_with None) [])
              = Percentage (S754_finite false 7881299347898369 (-50)))
    by (vm_compute; reflexivity).
  split; [reflexivity|]. split; [vm_compute; reflexivity|].
  split; [exact E|]. split; [vm_compute; reflexivity|].
  rewrite E. intros H. vm_compute in H. discriminate H.
Qed.

(** C8, amended.  For the empty collection the function shows the
    percentage 0 and divides nothing.  For a collection that is not empty it
    shows the [double] computed as (completedCount / size) * 100.0: a number
    between 0 and 100 that is 100 * completedCount / size up to the rounding
    of the two operations (within 2^-44).  With 4 tasks of which 1 is
    completed it is exactly 25. *)
Theorem completion_percentage (w : World) :
  Z.of_nat (length (tasks w)) <= INT_MAX ->
  let c := Z.of_nat (length (filter completed (tasks w))) in
  let n := Z.of_nat (length (tasks w)) in
  let p := shown_percentage (displayCompletionPercentage w) in
  (tasks w = [] ->
     displayCompletionPercentage w = NoTasks /\ p = S754_zero false) /\
  (tasks w <> [] ->
     displayCompletionPercentage w = Percentage (percentage_of c n) /\
     SFleb (S754_zero false) p = true /\
     SFleb p (double_of_Z 100) = true /\
     (Qabs (double_value p - 100 * inject_Z c / inject_Z n)
        <= 1 # 17592186044416)%Q) /\
  (n = 4 -> c = 1 -> p = double_of_Z 25 /\ (double_value p == 25)%Q).
Proof.
  intros Hn. cbv zeta. unfold displayCompletionPercentage.
  rewrite count_completed_filter.
  pose proof (filter_length_le completed (tasks w)) as Hc.
  destruct (tasks w) as [|t ts] eqn:Et.
  - split; [intros _; split; reflexivity|].
    split; [intros H; contradiction|]. cbn. lia.
  - split; [discriminate|]. cbn [shown_percentage]. split.
    + intros _. split; [reflexivity|].
      apply percentage_of_spec; [lia|].
      unfold INT_MAX in Hn. cbn [length] in *.
      change (2 ^ 53) with 9007199254740992.
      change (2 ^ 31 - 1) with 2147483647 in Hn. lia.
    + intros -> ->. split; reflexivity.
Qed.

Lemma completion_percentage_witness :
  let w := mkWorld four_tasks 5 (disk_with None) [] in
  let c := Z.of_nat (length (filter completed (tasks w))) in
  let n := Z.of_nat (length (tasks w)) in
  let p := shown_percentage (displayCompletionPercentage w) in
  (tasks w = [] ->
     displayCompletionPercentage w = NoTasks /\ p = S754_zero false) /\
  (tasks w <> [] ->
     displayCompletionPercentage w = Percentage (percentage_of c n) /\
     SFleb (S754_zero false) p = true /\
     SFleb p (double_of_Z 100) = true /\
     (Qabs (double_value p - 100 * inject_Z c / inject_Z n)
        <= 1 # 17592186044416)%Q) /\
  (n = 4 -> c = 1 -> p = double_of_Z 25 /\ (double_value p == 25)%Q).
Proof.
  apply (completion_percentage (mkWorld four_tasks 5 (disk_with None) [])).
  vm_compute. discriminate.
Defined.

End Percentage.

(** * Further properties *)

(** ** Priorities as text *)

Section PriorityText.

Lemma text_is_iff (str : text) (lit : string) :
  text_is str lit = true <-> str = list_ascii_of_string lit.
Proof.
  unfold text_is. rewrite String.eqb_eq. split.
  - intros <-. symmetry. apply list_ascii_of_string_of_list_ascii.
  - intros ->. apply string_of_list_ascii_of_string.
Qed.

Lemma stringToPrioritySafe_some (str : text) (p : Priority) :
  stringToPrioritySafe str = Some p ->
  HIGHEST <= p <= LOWEST /\ str = show_Z p.
Proof.
  unfold stringToPrioritySafe, HIGHEST, HIGH, MEDIUM, LOW, LOWEST.
  repeat (destruct (text_is str _) eqn:E;
          [apply text_is_iff in E; subst str; intros H; injection H as <-;
           split; [lia | reflexivity] | clear E]).
  discriminate.
Qed.

Lemma stringToPrioritySafe_show (p : Priority) :
  HIGHEST <= p <= LOWEST -> stringToPrioritySafe (show_Z p) = Some p.
Proof.
  unfold HIGHEST, LOWEST. intros Hp.
  assert (p = 1 \/ p = 2 \/ p = 3 \/ p = 4 \/ p = 5) as
    [-> | [-> | [-> | [-> | ->]]]] by lia; reflexivity.
Qed.

(** X1.  [stringToPrioritySafe] accepts exactly the decimal form of the five
    ranks, the form in which [saveTasksToFile] writes a priority, and gives
    back that rank; every other text (with a blank, a sign, a leading zero)
    is refused. *)
Theorem stringToPrioritySafe_iff (str : text) (p : Priority) :
  stringToPrioritySafe str = Some p <->
  HIGHEST <= p <= LOWEST /\ str = show_Z p.
Proof.
  split; [apply stringToPrioritySafe_some|].
  intros [Hp ->]. apply stringToPrioritySafe_show, Hp.
Qed.

(** X2.  [priorityToString] names the five ranks with five different names,
    and answers "Unknown" exactly for the values outside the five ranks; a
    priority that [stringToPrioritySafe] gives is never shown as
    "Unknown". *)
Theorem priorityToString_names :
  (forall p q, HIGHEST <= p <= LOWEST -> HIGHEST <= q <= LOWEST ->
     priorityToString p = priorityToString q -> p = q) /\
  (forall p, priorityToString p = "Unknown"%string <->
             ~ (HIGHEST <= p <= LOWEST)) /\
  (forall str p, stringToPrioritySafe str = Some p ->
     priorityToString p <> "Unknown"%string).
Proof.
  unfold HIGHEST, LOWEST.
  assert (Hcases : forall p, 1 <= p <= 5 ->
            p = 1 \/ p = 2 \/ p = 3 \/ p = 4 \/ p = 5) by (intros; lia).
  assert (Hunk : forall p, priorityToString p = "Unknown"%string <->
                           ~ (1 <= p <= 5)).
  { intros p. split.
    - intros H Hp.
      destruct (Hcases p Hp) as [-> | [-> | [-> | [-> | ->]]]]; discriminate H.
    - intros Hp. unfold priorityToString.
      destruct p as [|p|p]; try reflexivity.
      destruct p as [[[|[]|]|[|[]|]|]|[[|[]|]|[|[]|]|]|]; try reflexivity;
        exfalso; apply Hp; lia. }
  split; [|split].
  - intros p q Hp Hq.
    destruct (Hcases p Hp) as [-> | [-> | [-> | [-> | ->]]]];
      destruct (Hcases q Hq) as [-> | [-> | [-> | [-> | ->]]]];
      intros H; try reflexivity; discriminate H.
  - exact Hunk.
  - intros str p H. apply stringToPrioritySafe_some in H. destruct H as [Hp _].
    intros Hu. apply Hunk in Hu. apply Hu. exact Hp.
Qed.

End PriorityText.

(** ** What every process keeps *)

Section ProcessInvariants.

Lemma record_ok_iff (t : Task) :
  record_ok t = true <->
  description t <> [] /\ HIGHEST <= priority t <= LOWEST.
Proof.
  unfold record_ok, validateTask, HIGHEST, LOWEST.
  destruct (description t) as [|c d].
  - cbn. split; [discriminate | intros [H _]; contradiction].
  - destruct (priority t <? 1) eqn:E1; destruct (5 <? priority t) eqn:E2;
      cbn [orb fst]; rewrite ?Z.ltb_lt, ?Z.ltb_ge in *; split;
      try discriminate; try (intros [_ H]; lia);
      try (intros _; split; [discriminate | lia]); try reflexivity.
Qed.

Lemma NoDup_ids_from (n : nat) : forall k, NoDup (ids_from k n).
Proof.
  induction n as [|n IH]; intros k; cbn [ids_from]; constructor.
  - intros H. apply In_ids_from in H. lia.
  - apply IH.
Qed.

Lemma NoDup_map_filter {A B} (f : A -> B) (g : A -> bool) (l : list A) :
  NoDup (map f l) -> NoDup (map f (filter g l)).
Proof.
  induction l as [|a l IH]; cbn [map filter]; intros H; [constructor|].
  inversion H as [|? ? Hn Hl]; subst.
  destruct (g a); [|apply IH, Hl].
  cbn [map]. constructor; [|apply IH, Hl].
  intros Hin. apply Hn. apply in_map_iff in Hin.
  destruct Hin as (x & <- & Hx). apply in_map. apply filter_In in Hx. apply Hx.
Qed.

(** A turn of the load loop that appends a task appends one that
    [validateTask] accepts. *)
Lemma load_turn_continue_ok (file file' : istream) (w w' : World) :
  load_turn file w = Continue file' w' ->
  Forall (fun t => record_ok t = true) (tasks w) ->
  Forall (fun t => record_ok t = true) (tasks w').
Proof.
  unfold load_turn. destruct (good file); cbn [negb]; [|discriminate].
  destruct (peek file) as [[c|] file0]; [|discriminate].
  destruct (getline file0 PIPE) as [desc file1].
  destruct (good file1); cbn [negb]; [|discriminate].
  destruct (read_int32 file1) as [p f2].
  destruct (good f2); cbn [negb]; [|discriminate].
  destruct (read_int32 f2) as [c' f3].
  destruct (good f3); cbn [negb]; [|discriminate].
  destruct (read_time_t f3) as [d f4].
  destruct (good f4); cbn [negb]; [|discriminate].
  destruct (at_end desc || (p <? HIGHEST) || (LOWEST <? p)) eqn:E;
    intros H Hok; injection H as _ <-; [exact Hok|].
  cbn. apply Forall_app. split; [exact Hok|]. constructor; [|constructor].
  apply record_ok_iff. cbn [description priority set_completed].
  apply orb_false_iff in E. destruct E as [E E3].
  apply orb_false_iff in E. destruct E as [E1 E2].
  rewrite Z.ltb_ge in E2, E3.
  split; [destruct desc; [discriminate E1 | discriminate] | lia].
Qed.

Lemma load_loop_ok (fuel : nat) : forall (file : istream) (w w' : World),
  load_loop fuel file w = Some w' ->
  Forall (fun t => record_ok t = true) (tasks w) ->
  Forall (fun t => record_ok t = true) (tasks w').
Proof.
  induction fuel as [|fuel IH]; intros file w w' H Hok; [discriminate|].
  cbn [load_loop] in H. destruct (load_turn file w) as [|file1 w1] eqn:E.
  - injection H as <-. exact Hok.
  - eapply IH; [exact H|]. eapply load_turn_continue_ok; eassumption.
Qed.

Lemma update_record_ok (t : Task) (desc : option text) (prio : option Priority)
    (comp : option bool) (due : option Z) :
  record_ok t = true ->
  record_ok (fst (update_record t desc prio comp due)) = true.
Proof.
  intros Hok. unfold update_record.
  assert (Hset : forall t1 c d,
            record_ok t1 = true ->
            record_ok (apply_opt set_dueDate d (apply_opt set_completed c t1))
            = true)
    by (intros t1 [c|] [d|] H; exact H).
  assert (Hprio : forall t1, record_ok t1 = true ->
    record_ok
      (fst (match
              match prio with
              | Some p =>
                  let (ok, msgs) := validateTask (description t1) p in
                  if ok then (Some (set_priority p t1), msgs)
                  else (None, msgs ++ [MSG_UPDATE_PRIORITY])
              | None => (Some t1, [])
              end
            with
            | (None, msgs2) => (t1, @nil string ++ msgs2)
            | (Some task2, msgs2) =>
                (apply_opt set_dueDate due (apply_opt set_completed comp task2),
                 @nil string ++ msgs2)
            end)) = true).
  { intros t1 H1. destruct prio as [p|]; [|apply Hset, H1].
    destruct (validateTask (description t1) p) as [ok m] eqn:Ev.
    destruct ok; [|exact H1]. apply Hset.
    unfold record_ok. cbn [set_priority description priority]. rewrite Ev.
    reflexivity. }
  destruct desc as [d|].
  - destruct (validateTask d (priority t)) as [ok m] eqn:Ev.
    destruct ok; [|exact Hok].
    assert (H1 : record_ok (set_description d t) = true).
    { unfold record_ok. cbn [set_description description priority].
      rewrite Ev. reflexivity. }
    specialize (Hprio _ H1).
    destruct prio as [p|].
    + destruct (validateTask (description (set_description d t)) p) as [[|] m2];
        exact Hprio.
    + exact Hprio.
  - specialize (Hprio _ Hok).
    destruct prio as [p|].
    + destruct (validateTask (description t) p) as [[|] m2]; exact Hprio.
    + exact Hprio.
Qed.

Lemma update_loop_ok (ts : list Task) (i : Z) (desc : option text)
    (prio : option Priority) (comp : option bool) (due : option Z) :
  forall ts' msgs, update_loop ts i desc prio comp due = Some (ts', msgs) ->
  Forall (fun t => record_ok t = true) ts ->
  Forall (fun t => record_ok t = true) ts'.
Proof.
  induction ts as [|t ts IH]; intros ts' msgs; cbn [update_loop]; [discriminate|].
  destruct (id t =? i).
  - pose proof (update_record_ok t desc prio comp due) as Hok.
    destruct (update_record t desc prio comp due) as [t' m]. cbn [fst] in Hok.
    intros E H. injection E as <- _. inversion H; subst.
    constructor; [apply Hok; assumption | assumption].
  - destruct (update_loop ts i desc prio comp due) as [[ts2 m]|]; [|discriminate].
    intros E H. injection E as <- _. inversion H; subst.
    constructor; [assumption|]. eapply IH; [reflexivity | assumption].
Qed.

(** What every operation keeps, besides the counter above the ids: ids
    differ from one another, and every record passes [validateTask] and has
    a positive id. *)
Lemma exec_store_sound (p p' : process) (o : op) :
  exec p o p' -> counter_above p ->
  NoDup (map id (tasks (mem p))) /\
    Forall (fun t => record_ok t = true /\ 1 <= id t) (tasks (mem p)) ->
  NoDup (map id (tasks (mem p'))) /\
    Forall (fun t => record_ok t = true /\ 1 <= id t) (tasks (mem p')).
Proof.
  intros Hexec (Hk & Ht & _) [Hnd Hboth].
  assert (Hok : Forall (fun t => record_ok t = true) (tasks (mem p)))
    by (eapply Forall_impl; [|exact Hboth]; intros ? [H _]; exact H).
  assert (Hpos : Forall (fun x => 1 <= x) (map id (tasks (mem p)))).
  { apply Forall_map. eapply Forall_impl; [|exact Hboth].
    intros ? [_ H]; exact H. }
  assert (Hjoin : forall ts,
            Forall (fun t => record_ok t = true) ts ->
            Forall (fun x => 1 <= x) (map id ts) ->
            Forall (fun t => record_ok t = true /\ 1 <= id t) ts).
  { intros ts H1 H2. apply Forall_forall. intros t Hin. split.
    - revert t Hin. apply Forall_forall, H1.
    - assert (H3 : forall x, In x (map id ts) -> 1 <= x)
        by (apply Forall_forall, H2).
      apply H3, in_map, Hin. }
  assert (Hgoal : NoDup (map id (tasks (mem p'))) /\
                  Forall (fun t => record_ok t = true) (tasks (mem p')) /\
                  Forall (fun x => 1 <= x) (map id (tasks (mem p'))));
    [|destruct Hgoal as (G1 & G2 & G3); split; [exact G1 | apply Hjoin; assumption]].
  destruct Hexec as (Hstep & _ & _).
  destruct o as [f|f|d pr due|i|i d pr c due|a|a]; cbn [step] in Hstep.
  - (* load *)
    pose proof (load_effect _ _ _ Hstep Hk) as He.
    unfold loadTasksFromFile in Hstep.
    destruct (readable (disk (mem p)) f) as [content|].
    + destruct He as [Hids _]. split; [rewrite Hids; apply NoDup_ids_from|].
      split.
      * destruct (load_loop _ _ _) as [w1|] eqn:E; [|discriminate].
        injection Hstep as <-. cbn [set_nextId tasks].
        eapply load_loop_ok; [exact E | constructor].
      * rewrite Hids. apply Forall_forall. intros x Hx.
        apply In_ids_from in Hx. lia.
    + rewrite He. repeat split; assumption.
  - (* save *)
    assert (E1 : tasks (saveTasksToFile f (mem p)) = tasks (mem p)).
    { unfold saveTasksToFile. destruct (writable _ _); [|reflexivity].
      destruct (save_loop _ _ _). reflexivity. }
    rewrite Hstep, E1. repeat split; assumption.
  - (* add *)
    destruct (fst (validateTask d pr)) eqn:Ev.
    + rewrite Hstep, addTask_valid by exact Ev. cbn [tasks].
      rewrite map_app. cbn [map id]. split; [|split].
      * apply NoDup_app; [exact Hnd | repeat constructor; intros [] |].
        intros x Hx [<-|[]]. apply in_map_iff in Hx.
        destruct Hx as (t & E & Hin). apply Ht in Hin. lia.
      * apply Forall_app. split; [exact Hok|]. constructor; [|constructor].
        exact Ev.
      * apply Forall_app. split; [exact Hpos|]. constructor; [lia|constructor].
    + destruct (addTask_invalid d pr due (mem p) Ev) as (E1 & _).
      rewrite Hstep, E1. repeat split; assumption.
  - (* delete *)
    assert (E : tasks (mem p') = filter (fun t => negb (id t =? i)) (tasks (mem p))).
    { rewrite Hstep. unfold deleteTask. destruct (Nat.eqb _ _); reflexivity. }
    rewrite E. split; [apply NoDup_map_filter, Hnd|]. split.
    + apply Forall_forall. intros t Hin. apply filter_In in Hin.
      rewrite Forall_forall in Hok. apply Hok, Hin.
    + apply Forall_forall. intros x Hx. apply in_map_iff in Hx.
      destruct Hx as (t & <- & Hin). apply filter_In in Hin.
      rewrite Forall_forall in Hpos. apply Hpos, in_map, Hin.
  - (* update *)
    destruct (updateTask_ids i d pr c due (mem p)) as [E1 _].
    rewrite <- Hstep in E1. rewrite E1. split; [exact Hnd|].
    split; [|exact Hpos].
    rewrite Hstep. unfold updateTask.
    destruct (update_loop (tasks (mem p)) i d pr c due) as [[ts m]|] eqn:E;
      [|exact Hok].
    cbn. eapply update_loop_ok; eassumption.
  - destruct Hstep as [[Hp _] E]. rewrite E. cbn [set_tasks tasks]. split.
    + eapply Permutation_NoDup; [apply Permutation_map, Hp | exact Hnd].
    + split; [eapply Permutation_Forall; eassumption|].
      eapply Permutation_Forall; [apply Permutation_map, Hp | exact Hpos].
  - destruct Hstep as [[Hp _] E]. rewrite E. cbn [set_tasks tasks]. split.
    + eapply Permutation_NoDup; [apply Permutation_map, Hp | exact Hnd].
    + split; [eapply Permutation_Forall; eassumption|].
      eapply Permutation_Forall; [apply Permutation_map, Hp | exact Hpos].
Qed.

Lemma run_store_sound (p p' : process) (os : list op) :
  run p os p' -> counter_above p ->
  NoDup (map id (tasks (mem p))) /\
    Forall (fun t => record_ok t = true /\ 1 <= id t) (tasks (mem p)) ->
  counter_above p' /\
  NoDup (map id (tasks (mem p'))) /\
    Forall (fun t => record_ok t = true /\ 1 <= id t) (tasks (mem p')).
Proof.
  induction 1 as [|p o p1 os p2 He _ IH]; intros Hc Hs; [split; assumption|].
  apply IH.
  - eapply exec_counter_above; eassumption.
  - eapply exec_store_sound; eassumption.
Qed.

Lemma boot_store_sound (fs : fsys) (os : list op) (p : process) :
  run (boot fs) os p ->
  counter_above p /\
  NoDup (map id (tasks (mem p))) /\
    Forall (fun t => record_ok t = true /\ 1 <= id t) (tasks (mem p)).
Proof.
  intros Hrun.
  apply (run_store_sound _ _ _ Hrun (boot_counter_above fs)).
  split; constructor.
Qed.

Lemma session_runs : run (boot session_disk) session_ops session_end.
Proof.
  unfold session_ops, session_end.
  eapply run_cons with
    (p1 := mkProcess
             (mkWorld [mkTask 1 (txt "a") HIGHEST false 0] 2 session_disk [])
             [1] [1]).
  { repeat split. }
  eapply run_cons with
    (p1 := mkProcess
             (mkWorld [mkTask 1 (txt "a") HIGHEST false 0;
                       mkTask 2 (txt "x") LOW false 5] 3 session_disk [])
             [1; 2] [1; 2]).
  { repeat split. }
  eapply run_cons; [|apply run_nil].
  repeat split.
Qed.

(** X3.  In every process, whatever the operations and the files, the ids of
    the tasks in the collection differ from one another, are positive and
    lie below the counter. *)
Theorem ids_unique_in_process (fs : fsys) (os : list op) (p : process) :
  run (boot fs) os p ->
  NoDup (map id (tasks (mem p))) /\
  Forall (fun t => 1 <= id t < nextId (mem p)) (tasks (mem p)).
Proof.
  intros Hrun.
  destruct (boot_store_sound _ _ _ Hrun) as ((_ & Ht & _) & Hnd & Hok).
  split; [exact Hnd|].
  rewrite Forall_forall in *. intros t Hin.
  split; [apply Hok, Hin | apply Ht, Hin].
Qed.

Lemma ids_unique_in_process_witness :
  NoDup (map id (tasks (mem session_end))) /\
  Forall (fun t => 1 <= id t < nextId (mem session_end))
         (tasks (mem session_end)).
Proof.
  exact (ids_unique_in_process session_disk session_ops session_end
           session_runs).
Defined.

(** X4.  In every process every task of the collection passes
    [validateTask]: its description is not empty and its priority is one of
    the five ranks.  So the check that [saveTasksToFile] makes on each record
    never fails there: a save to a file that opens writes one line per task,
    in order, and reports nothing. *)
Theorem records_valid_in_process (fs : fsys) (os : list op) (p : process)
    (f : string) :
  run (boot fs) os p ->
  Forall (fun t => description t <> [] /\ HIGHEST <= priority t <= LOWEST)
         (tasks (mem p)) /\
  (writable (disk (mem p)) f = true ->
   readable (disk (saveTasksToFile f (mem p))) f
     = Some (concat (map save_line (tasks (mem p)))) /\
   cerr (saveTasksToFile f (mem p)) = cerr (mem p)).
Proof.
  intros Hrun.
  destruct (boot_store_sound _ _ _ Hrun) as (_ & _ & Hok).
  assert (Hrec : Forall (fun t => record_ok t = true) (tasks (mem p)))
    by (eapply Forall_impl; [|exact Hok]; intros ? [H _]; exact H).
  split.
  - eapply Forall_impl; [|exact Hrec]. intros t. apply record_ok_iff.
  - intros Hw. unfold saveTasksToFile. rewrite Hw.
    assert (Hloop : forall ts out err,
              Forall (fun t => record_ok t = true) ts ->
              save_loop ts out err = (out ++ concat (map save_line ts), err)).
    { induction ts as [|t ts IH]; intros out err H; cbn [save_loop map concat].
      - rewrite app_nil_r. reflexivity.
      - inversion H as [|? ? Ht Hts]; subst. unfold record_ok in Ht.
        destruct (validateTask (description t) (priority t)) as [ok m] eqn:Ev.
        cbn [fst] in Ht. subst ok.
        assert (m = []).
        { unfold validateTask in Ev. destruct (description t); [discriminate|].
          destruct (_ || _); [discriminate|]. injection Ev as <-. reflexivity. }
        subst m. rewrite IH by exact Hts. rewrite app_nil_r, app_assoc.
        reflexivity. }
    rewrite Hloop by exact Hrec. cbn. rewrite String.eqb_refl, app_nil_r.
    split; reflexivity.
Qed.

Lemma records_valid_in_process_witness :
  Forall (fun t => description t <> [] /\ HIGHEST <= priority t <= LOWEST)
         (tasks (mem session_end)) /\
  (writable (disk (mem session_end)) TASKS_TXT = true ->
   readable (disk (saveTasksToFile TASKS_TXT (mem session_end))) TASKS_TXT
     = Some (concat (map save_line (tasks (mem session_end)))) /\
   cerr (saveTasksToFile TASKS_TXT (mem session_end))
     = cerr (mem session_end)).
Proof.
  exact (records_valid_in_process session_disk session_ops session_end
           TASKS_TXT session_runs).
Defined.

End ProcessInvariants.

(** ** Deleting and updating *)

Section DeleteUpdate.

Lemma filter_length_all {A} (f : A -> bool) (l : list A) :
  length (filter f l) = length l <-> forall x, In x l -> f x = true.
Proof.
  induction l as [|a l IH]; cbn [filter length].
  - split; [intros _ x [] | reflexivity].
  - pose proof (filter_length_le f l) as Hle.
    destruct (f a) eqn:E; cbn [length].
    + split.
      * intros H x [<-|Hin]; [exact E | apply IH; [lia | exact Hin]].
      * intros H. f_equal. apply IH. intros x Hin. apply H. right; exact Hin.
    + split.
      * intros H. lia.
      * intros H. specialize (H a (or_introl eq_refl)). congruence.
Qed.

Lemma filter_id_absent (i : Z) (ts : list Task) :
  ~ In i (map id ts) -> filter (fun t => negb (id t =? i)) ts = ts.
Proof.
  induction ts as [|t ts IH]; cbn [map filter]; intros H; [reflexivity|].
  destruct (id t =? i) eqn:E.
  - apply Z.eqb_eq in E. exfalso. apply H. left. exact E.
  - cbn [negb]. f_equal. apply IH. intros Hin. apply H. right. exact Hin.
Qed.

Lemma filter_id_gone (i : Z) (ts : list Task) :
  ~ In i (map id (filter (fun t => negb (id t =? i)) ts)).
Proof.
  intros H. apply in_map_iff in H. destruct H as (t & E & Hin).
  apply filter_In in Hin. destruct Hin as [_ Hin].
  apply negb_true_iff, Z.eqb_neq in Hin. contradiction.
Qed.

Lemma filter_id_present (i : Z) (ts : list Task) :
  In i (map id ts) ->
  (length (filter (fun t => negb (id t =? i)%Z) ts) < length ts)%nat.
Proof.
  intros H.
  pose proof (filter_length_le (fun t => negb (id t =? i)) ts) as Hle.
  destruct (Nat.eq_dec (length (filter (fun t => negb (id t =? i)) ts))
                       (length ts)) as [E|E]; [|lia].
  exfalso. apply in_map_iff in H. destruct H as (t & Et & Hin).
  pose proof (proj1 (filter_length_all _ _) E t Hin) as Hk. cbn in Hk.
  apply negb_true_iff, Z.eqb_neq in Hk. contradiction.
Qed.

Lemma deleteTask_absent (i : Z) (w : World) :
  ~ In i (map id (tasks w)) -> deleteTask i w = say [MSG_NOT_FOUND i] w.
Proof.
  intros H. unfold deleteTask. rewrite filter_id_absent by exact H.
  rewrite Nat.eqb_refl. apply world_eq; reflexivity.
Qed.

Lemma deleteTask_present (i : Z) (w : World) :
  In i (map id (tasks w)) ->
  deleteTask i w = set_tasks (filter (fun t => negb (id t =? i)) (tasks w)) w.
Proof.
  intros H. unfold deleteTask. pose proof (filter_id_present i _ H) as Hlt.
  destruct (Nat.eqb _ _) eqn:E; [apply Nat.eqb_eq in E; lia | reflexivity].
Qed.

Lemma deleteTask_gone (i : Z) (w : World) :
  ~ In i (map id (tasks (deleteTask i w))).
Proof.
  unfold deleteTask. destruct (Nat.eqb _ _); cbn [say set_tasks tasks];
    apply filter_id_gone.
Qed.

(** X5.  [deleteTask] with an id that no task has changes nothing and writes
    the warning; with an id that some task has it writes nothing and the
    collection gets shorter.  After the call no task has the id, so a second
    call with the same id only writes the warning. *)
Theorem deleteTask_effect (i : Z) (w : World) :
  (~ In i (map id (tasks w)) -> deleteTask i w = say [MSG_NOT_FOUND i] w) /\
  (In i (map id (tasks w)) ->
     cerr (deleteTask i w) = cerr w /\
     (length (tasks (deleteTask i w)) < length (tasks w))%nat) /\
  ~ In i (map id (tasks (deleteTask i w))) /\
  deleteTask i (deleteTask i w) = say [MSG_NOT_FOUND i] (deleteTask i w).
Proof.
  split; [apply deleteTask_absent|].
  split; [|split; [apply deleteTask_gone | apply deleteTask_absent, deleteTask_gone]].
  intros H. rewrite deleteTask_present by exact H. cbn [set_tasks cerr tasks].
  split; [reflexivity | apply filter_id_present, H].
Qed.

Lemma filter_id_unique (t : Task) (l1 l2 : list Task) :
  NoDup (map id (l1 ++ t :: l2)) ->
  filter (fun t' => negb (id t' =? id t)) (l1 ++ t :: l2) = l1 ++ l2.
Proof.
  intros Hnd. rewrite map_app in Hnd. cbn [map] in Hnd.
  apply NoDup_remove_2 in Hnd.
  rewrite filter_app. cbn [filter]. rewrite Z.eqb_refl. cbn [negb].
  rewrite !filter_id_absent; [reflexivity | |];
    intros Hin; apply Hnd, in_or_app; [right | left]; exact Hin.
Qed.

(** X6.  In every process, deleting an id that is in the collection removes
    exactly one task, the one with that id, and leaves the others in their
    order; the counter is not touched. *)
Theorem delete_removes_one_in_process (fs : fsys) (os : list op) (p : process)
    (i : Z) :
  run (boot fs) os p -> In i (map id (tasks (mem p))) ->
  exists l1 t l2,
    tasks (mem p) = l1 ++ t :: l2 /\ id t = i /\
    deleteTask i (mem p) = set_tasks (l1 ++ l2) (mem p).
Proof.
  intros Hrun Hin.
  destruct (boot_store_sound _ _ _ Hrun) as (_ & Hnd & _).
  rewrite deleteTask_present by exact Hin.
  apply in_map_iff in Hin. destruct Hin as (t & Et & Hin).
  apply in_split in Hin. destruct Hin as (l1 & l2 & E).
  exists l1, t, l2. rewrite E in *. subst i.
  rewrite filter_id_unique by exact Hnd. auto.
Qed.

Lemma delete_removes_one_in_process_witness :
  exists l1 t l2,
    tasks (mem session_end) = l1 ++ t :: l2 /\ id t = 2 /\
    deleteTask 2 (mem session_end) = set_tasks (l1 ++ l2) (mem session_end).
Proof.
  apply (delete_removes_one_in_process session_disk session_ops session_end 2
           session_runs).
  cbn. left. reflexivity.
Defined.



Lemma update_loop_absent (ts : list Task) (i : Z) (desc : option text)
    (prio : option Priority) (comp : option bool) (due : option Z) :
  ~ In i (map id ts) -> update_loop ts i desc prio comp due = None.
Proof.
  induction ts as [|t ts IH]; cbn [map update_loop]; intros H; [reflexivity|].
  destruct (id t =? i) eqn:E.
  - apply Z.eqb_eq in E. exfalso. apply H. left. exact E.
  - rewrite IH; [reflexivity|]. intros Hin. apply H. right. exact Hin.
Qed.

Lemma update_loop_first (l1 : list Task) (t : Task) (l2 : list Task) (i : Z)
    (desc : option text) (prio : option Priority) (comp : option bool)
    (due : option Z) :
  id t = i -> ~ In i (map id l1) ->
  update_loop (l1 ++ t :: l2) i desc prio comp due
  = Some (l1 ++ fst (update_record t desc prio comp due) :: l2,
          snd (update_record t desc prio comp due)).
Proof.
  intros Et. induction l1 as [|a l1 IH]; cbn [map app update_loop]; intros H.
  - subst i. rewrite Z.eqb_refl.
    destruct (update_record t desc prio comp due); reflexivity.
  - destruct (id a =? i) eqn:E.
    + apply Z.eqb_eq in E. exfalso. apply H. left. exact E.
    + rewrite IH; [reflexivity|]. intros Hin. apply H. right. exact Hin.
Qed.

Lemma first_with_id (i : Z) (ts : list Task) :
  In i (map id ts) ->
  exists l1 t l2, ts = l1 ++ t :: l2 /\ id t = i /\ ~ In i (map id l1).
Proof.
  induction ts as [|a ts IH]; cbn [map]; intros H; [destruct H|].
  destruct (Z.eq_dec (id a) i) as [E|E].
  - exists [], a, ts. repeat split; [exact E | intros []].
  - destruct H as [H|H]; [contradiction|].
    destruct (IH H) as (l1 & t & l2 & -> & Et & Hl1).
    exists (a :: l1), t, l2. repeat split; [exact Et|].
    intros [Ha|Hin]; [contradiction | exact (Hl1 Hin)].
Qed.

(** X8.  [updateTask] with an id that no task has changes nothing and writes
    the warning.  Otherwise it works on the first task with the id and on no
    other, even when a later one has the same id: that task is left as the
    validation steps leave it, and their messages are written. *)
Theorem updateTask_first_match (i : Z) (desc : option text)
    (prio : option Priority) (comp : option bool) (due : option Z) (w : World) :
  (~ In i (map id (tasks w)) ->
     updateTask i desc prio comp due w = say [MSG_NOT_FOUND i] w) /\
  (In i (map id (tasks w)) ->
     exists l1 t l2,
       tasks w = l1 ++ t :: l2 /\ id t = i /\ ~ In i (map id l1) /\
       updateTask i desc prio comp due w =
         say (snd (update_record t desc prio comp due))
             (set_tasks (l1 ++ fst (update_record t desc prio comp due) :: l2)
                        w)).
Proof.
  split; intros H; unfold updateTask.
  - rewrite update_loop_absent by exact H. reflexivity.
  - destruct (first_with_id i _ H) as (l1 & t & l2 & E & Et & Hl1).
    exists l1, t, l2. repeat split; try assumption.
    rewrite E, update_loop_first by assumption. reflexivity.
Qed.

Lemma update_record_silent (t : Task) (desc : option text)
    (prio : option Priority) (comp : option bool) (due : option Z) :
  record_ok t = true -> desc <> Some [] ->
  (forall q, prio = Some q -> HIGHEST <= q <= LOWEST) ->
  update_record t desc prio comp due = (with_fields t desc prio comp due, []).
Proof.
  intros Hok Hd Hp. apply record_ok_iff in Hok. destruct Hok as [Hne Hr].
  unfold HIGHEST, LOWEST in *.
  assert (Hv : forall d q, d <> [] -> 1 <= q <= 5 -> validateTask d q = (true, [])).
  { intros d q Hdne Hq. unfold validateTask, HIGHEST, LOWEST.
    destruct d; [contradiction|].
    destruct (q <? 1) eqn:E1; [apply Z.ltb_lt in E1; lia|].
    destruct (5 <? q) eqn:E2; [apply Z.ltb_lt in E2; lia|]. reflexivity. }
  unfold update_record, with_fields.
  destruct t as [ti td tp tc tu].
  cbn [description priority id completed dueDate] in *.
  destruct desc as [d|]; destruct prio as [q|];
    try (assert (Hdne : d <> []) by (intros ->; apply Hd; reflexivity));
    try (pose proof (Hp q eq_refl) as Hq);
    rewrite ?Hv by assumption;
    cbn [set_description set_priority description priority id completed dueDate];
    rewrite ?Hv by assumption;
    destruct comp, due; reflexivity.
Qed.

(** X9.  The work of [updateTask] on the record it found has two outcomes.
    When nothing is written to [cerr], every field that was provided is
    stored.  When something is written, priority, completion and due date
    are as before, whatever was provided for them. *)
Theorem update_applies_all_or_reports (t : Task) (desc : option text)
    (prio : option Priority) (comp : option bool) (due : option Z) :
  (snd (update_record t desc prio comp due) = [] ->
     fst (update_record t desc prio comp due)
     = with_fields t desc prio comp due) /\
  (snd (update_record t desc prio comp due) <> [] ->
     priority (fst (update_record t desc prio comp due)) = priority t /\
     completed (fst (update_record t desc prio comp due)) = completed t /\
     dueDate (fst (update_record t desc prio comp due)) = dueDate t).
Proof.
  unfold update_record, with_fields, validateTask.
  destruct t as [ti td tp tc tu]. cbn [description priority id completed dueDate].
  destruct desc as [[|c d]|]; destruct prio as [q|];
    cbn [set_description set_priority description priority id completed
         dueDate fst snd app];
    repeat match goal with
           | |- context [if ?b then _ else _] => destruct b
           | |- context [match ?l with [] => _ | _ :: _ => _ end] =>
               is_var l; destruct l
           end;
    cbn [set_description set_priority description priority id completed
         dueDate fst snd app apply_opt];
    (split; intros H; try discriminate H; try (exfalso; apply H; reflexivity);
     try (repeat split; reflexivity);
     destruct comp, due; reflexivity).
Qed.

Lemma say_nothing (w : World) : say [] w = w.
Proof. apply world_eq; cbn; rewrite ?app_nil_r; reflexivity. Qed.

Lemma map_other_ids (i : Z) (f : Task -> Task) (l : list Task) :
  ~ In i (map id l) -> map (fun t => if id t =? i then f t else t) l = l.
Proof.
  induction l as [|a l IH]; cbn [map]; intros H; [reflexivity|].
  destruct (id a =? i) eqn:E.
  - apply Z.eqb_eq in E. exfalso. apply H. left. exact E.
  - f_equal. apply IH. intros Hin. apply H. right. exact Hin.
Qed.

(** X10.  In every process, an update that gives no empty description and no
    priority outside the five ranks is carried out in full and in silence:
    the task with the id gets every field that was provided, every other
    task is as before.  With an id that no task has only the warning is
    written. *)
Theorem update_in_process (fs : fsys) (os : list op) (p : process) (i : Z)
    (desc : option text) (prio : option Priority) (comp : option bool)
    (due : option Z) :
  run (boot fs) os p -> desc <> Some [] ->
  (forall q, prio = Some q -> HIGHEST <= q <= LOWEST) ->
  updateTask i desc prio comp due (mem p) =
    if existsb (fun t => id t =? i) (tasks (mem p))
    then set_tasks (map (fun t => if id t =? i
                                  then with_fields t desc prio comp due
                                  else t)
                        (tasks (mem p)))
                   (mem p)
    else say [MSG_NOT_FOUND i] (mem p).
Proof.
  intros Hrun Hd Hp.
  destruct (boot_store_sound _ _ _ Hrun) as (_ & Hnd & Hok).
  destruct (existsb _ _) eqn:Ex.
  - apply existsb_exists in Ex. destruct Ex as (t & Hin & Et).
    apply Z.eqb_eq in Et. apply in_split in Hin.
    destruct Hin as (l1 & l2 & E). rewrite E in *.
    rewrite map_app in Hnd. cbn [map] in Hnd.
    apply NoDup_remove_2 in Hnd. rewrite Et in Hnd.
    assert (H1 : ~ In i (map id l1))
      by (intros Hin; apply Hnd, in_or_app; left; exact Hin).
    assert (H2 : ~ In i (map id l2))
      by (intros Hin; apply Hnd, in_or_app; right; exact Hin).
    unfold updateTask. rewrite E, update_loop_first by assumption.
    rewrite update_record_silent; try assumption.
    + cbn [fst snd]. rewrite say_nothing, map_app. cbn [map].
      rewrite Et, Z.eqb_refl, !map_other_ids by assumption. reflexivity.
    + apply Forall_forall with (x := t) in Hok; [apply Hok|].
      apply in_or_app. right. left. reflexivity.
  - unfold updateTask. rewrite update_loop_absent; [reflexivity|].
    intros Hin. apply in_map_iff in Hin. destruct Hin as (t & Et & Hin).
    assert (Hc : existsb (fun t => id t =? i) (tasks (mem p)) = true)
      by (apply existsb_exists; exists t; split; [exact Hin | apply Z.eqb_eq, Et]).
    congruence.
Qed.

Lemma update_in_process_witness :
  updateTask 2 (Some (txt "z")) None (Some true) None (mem session_end) =
    if existsb (fun t => id t =? 2) (tasks (mem session_end))
    then set_tasks (map (fun t => if id t =? 2
                                  then with_fields t (Some (txt "z")) None
                                                   (Some true) None
                                  else t)
                        (tasks (mem session_end)))
                   (mem session_end)
    else say [MSG_NOT_FOUND 2] (mem session_end).
Proof.
  apply (update_in_process session_disk session_ops session_end 2
           (Some (txt "z")) None (Some true) None session_runs).
  - discriminate.
  - discriminate.
Defined.

Lemma update_loop_fixed (i : Z) (desc : option text) (prio : option Priority)
    (comp : option bool) (due : option Z) :
  (forall t, fst (update_record t desc prio comp due) = t) ->
  forall ts ts' msgs,
    update_loop ts i desc prio comp due = Some (ts', msgs) -> ts' = ts.
Proof.
  intros Hfix. induction ts as [|t ts IH]; cbn [update_loop]; intros ts' msgs;
    [discriminate|].
  destruct (id t =? i).
  - specialize (Hfix t). destruct (update_record t desc prio comp due) as [t' m].
    cbn [fst] in Hfix. subst t'. intros E. injection E as <- _. reflexivity.
  - destruct (update_loop ts i desc prio comp due) as [[ts'' m]|];
      [|discriminate].
    intros E. injection E as <- _. f_equal. eapply IH. reflexivity.
Qed.

Lemma update_loop_reports (i : Z) (desc : option text) (prio : option Priority)
    (comp : option bool) (due : option Z) :
  (forall t, snd (update_record t desc prio comp due) <> []) ->
  forall ts ts' msgs,
    update_loop ts i desc prio comp due = Some (ts', msgs) -> msgs <> [].
Proof.
  intros Hmsg. induction ts as [|t ts IH]; cbn [update_loop]; intros ts' msgs;
    [discriminate|].
  destruct (id t =? i).
  - specialize (Hmsg t). destruct (update_record t desc prio comp due) as [t' m].
    cbn [snd] in Hmsg. intros E. injection E as _ <-. exact Hmsg.
  - destruct (update_loop ts i desc prio comp due) as [[ts'' m]|];
      [|discriminate].
    intros E. injection E as _ <-. eapply IH. reflexivity.
Qed.

Lemma app_grows {A} (l m : list A) : m <> [] -> l ++ m <> l.
Proof.
  intros Hm E. apply Hm. apply (app_inv_head l). rewrite app_nil_r. exact E.
Qed.

(** X11.  An update that gives an empty description, or no description and a
    priority outside the five ranks, changes no task at all, whatever it
    gives for completion and due date, and always writes to [cerr]. *)
Theorem update_rejected_keeps_collection (i : Z) (desc : option text)
    (prio : option Priority) (comp : option bool) (due : option Z) (w : World) :
  desc = Some [] \/
  (desc = None /\ exists q, prio = Some q /\ (q < HIGHEST \/ LOWEST < q)) ->
  tasks (updateTask i desc prio comp due w) = tasks w /\
  nextId (updateTask i desc prio comp due w) = nextId w /\
  cerr (updateTask i desc prio comp due w) <> cerr w.
Proof.
  intros Hbad.
  assert (Hrec : forall t, fst (update_record t desc prio comp due) = t /\
                           snd (update_record t desc prio comp due) <> []).
  { intros t. unfold update_record.
    destruct Hbad as [->|(-> & q & -> & Hq)].
    - cbn. split; [reflexivity | discriminate].
    - unfold validateTask, HIGHEST, LOWEST in *.
      destruct (description t) as [|c d]; [cbn; split; [reflexivity | discriminate]|].
      destruct (q <? 1) eqn:E1; destruct (5 <? q) eqn:E2; cbn;
        try (split; [reflexivity | discriminate]).
      apply Z.ltb_ge in E1, E2. lia. }
  unfold updateTask.
  destruct (update_loop (tasks w) i desc prio comp due) as [[ts msgs]|] eqn:E.
  - cbn [say set_tasks tasks nextId cerr].
    rewrite (update_loop_fixed i desc prio comp due
               (fun t => proj1 (Hrec t)) _ _ _ E).
    repeat split. apply app_grows.
    exact (update_loop_reports i desc prio comp due
             (fun t => proj2 (Hrec t)) _ _ _ E).
  - cbn [say tasks nextId cerr]. repeat split. apply app_grows. discriminate.
Qed.

Lemma update_rejected_keeps_collection_witness :
  tasks (updateTask 2 None (Some 9) (Some true) (Some 0) (mem session_end))
    = tasks (mem session_end) /\
  nextId (updateTask 2 None (Some 9) (Some true) (Some 0) (mem session_end))
    = nextId (mem session_end) /\
  cerr (updateTask 2 None (Some 9) (Some true) (Some 0) (mem session_end))
    <> cerr (mem session_end).
Proof.
  apply (update_rejected_keeps_collection 2 None (Some 9) (Some true) (Some 0)
           (mem session_end)).
  right. split; [reflexivity|]. exists 9. split; [reflexivity|].
  right. reflexivity.
Defined.

Lemma count_completed_app (l1 l2 : list Task) :
  count_completed (l1 ++ l2) = count_completed l1 + count_completed l2.
Proof.
  rewrite !count_completed_filter, filter_app, length_app. lia.
Qed.

Lemma count_completed_cons (t : Task) (l : list Task) :
  count_completed (t :: l) = (if completed t then 1 else 0) + count_completed l.
Proof.
  rewrite !count_completed_filter. cbn [filter].
  destruct (completed t); cbn [length]; lia.
Qed.

(** X12.  Marking a task as completed, as choice 4 of [main] does it, never
    fails validation: it sets the flag of the first task with the id and
    changes nothing else.  Doing it twice gives the same collection as doing
    it once, and the number of completed tasks goes up by one when that task
    was pending and stays as it is otherwise. *)
Theorem mark_completed_effect (i : Z) (w : World) :
  tasks (mark_completed i (mark_completed i w)) = tasks (mark_completed i w) /\
  (In i (map id (tasks w)) ->
     exists l1 t l2,
       tasks w = l1 ++ t :: l2 /\ id t = i /\ ~ In i (map id l1) /\
       mark_completed i w = set_tasks (l1 ++ set_completed true t :: l2) w /\
       count_completed (tasks (mark_completed i w))
       = count_completed (tasks w) + (if completed t then 0 else 1)) /\
  (~ In i (map id (tasks w)) ->
     mark_completed i w = say [MSG_NOT_FOUND i] w).
Proof.
  assert (Hpresent : forall w', In i (map id (tasks w')) ->
            exists l1 t l2,
              tasks w' = l1 ++ t :: l2 /\ id t = i /\ ~ In i (map id l1) /\
              mark_completed i w'
              = set_tasks (l1 ++ set_completed true t :: l2) w').
  { intros w' H. destruct (first_with_id i _ H) as (l1 & t & l2 & E & Et & Hl1).
    exists l1, t, l2. repeat split; try assumption.
    unfold mark_completed, updateTask.
    rewrite E, update_loop_first by assumption.
    cbn. apply world_eq; cbn; rewrite ?app_nil_r; reflexivity. }
  assert (Habsent : forall w', ~ In i (map id (tasks w')) ->
            mark_completed i w' = say [MSG_NOT_FOUND i] w').
  { intros w' H. unfold mark_completed, updateTask.
    rewrite update_loop_absent by exact H. reflexivity. }
  split; [|split].
  - destruct (in_dec Z.eq_dec i (map id (tasks w))) as [H|H].
    + destruct (Hpresent w H) as (l1 & t & l2 & E & Et & Hl1 & ->).
      assert (H' : In i (map id (tasks (set_tasks
                     (l1 ++ set_completed true t :: l2) w)))).
      { cbn [set_tasks tasks]. rewrite map_app. apply in_or_app. right. left.
        exact Et. }
      destruct (Hpresent _ H') as (k1 & u & k2 & E' & Eu & Hk1 & ->).
      cbn [set_tasks tasks] in *.
      assert (Hsame : k1 = l1 /\ u = set_completed true t /\ k2 = l2).
      { clear - E' Eu Hk1 Et Hl1. revert k1 E' Hk1.
        induction l1 as [|a l1 IH]; intros k1 E' Hk1.
        - destruct k1 as [|b k1]; cbn [app] in E'.
          + injection E' as <- <-. auto.
          + injection E' as <- _. exfalso. apply Hk1. left. exact Et.
        - destruct k1 as [|b k1]; cbn [app] in E'.
          + injection E' as <- _. exfalso. apply Hl1. left. exact Eu.
          + injection E' as <- E'.
            destruct (IH (fun Hin => Hl1 (or_intror Hin)) k1 E'
                         (fun Hin => Hk1 (or_intror Hin))) as (-> & -> & ->).
            auto. }
      destruct Hsame as (-> & -> & ->). reflexivity.
    + rewrite !(Habsent w H). cbn [say tasks].
      rewrite Habsent by (cbn [say tasks]; exact H). reflexivity.
  - intros H. destruct (Hpresent w H) as (l1 & t & l2 & E & Et & Hl1 & Em).
    exists l1, t, l2. repeat split; try assumption.
    rewrite Em, E. cbn [set_tasks tasks].
    rewrite !count_completed_app, !count_completed_cons.
    unfold set_completed. cbn [completed].
    destruct (completed t); lia.
  - apply Habsent.
Qed.

End DeleteUpdate.

(** ** Saving, and what leaves the files alone *)

Section SaveFrame.

Lemma validateTask_silent (d : text) (p : Priority) :
  fst (validateTask d p) = true -> snd (validateTask d p) = [].
Proof.
  unfold validateTask. destruct d; [discriminate|].
  destruct (_ || _); [discriminate | reflexivity].
Qed.

Lemma save_loop_filter (ts : list Task) : forall out err,
  save_loop ts out err =
  (out ++ concat (map save_line (filter record_ok ts)),
   err ++ flat_map (fun t => snd (validateTask (description t) (priority t))
                             ++ [MSG_NOT_SAVED (id t)])
                   (filter (fun t => negb (record_ok t)) ts)).
Proof.
  induction ts as [|t ts IH]; intros out err;
    cbn [save_loop filter map concat flat_map].
  - rewrite !app_nil_r. reflexivity.
  - pose proof (validateTask_silent (description t) (priority t)) as Hs.
    assert (Hrok : record_ok t = fst (validateTask (description t) (priority t)))
      by reflexivity.
    rewrite !Hrok.
    destruct (validateTask (description t) (priority t)) as [ok m] eqn:Ev.
    cbn [fst snd] in *. destruct ok; cbn [negb]; rewrite IH.
    + rewrite Hs by reflexivity. cbn [map concat].
      rewrite !app_nil_r, <- app_assoc. reflexivity.
    + cbn [flat_map]. rewrite Ev. cbn [snd]. rewrite <- !app_assoc.
      reflexivity.
Qed.

(** X13.  [saveTasksToFile] on a file that opens replaces its content, whatever
    it was, by one line for each task that passes [validateTask], in the
    order of the collection; a task that does not pass is left out and
    reported by its id.  No other file changes.  When the file does not open,
    no file changes and one message is written. *)
Theorem save_writes_valid_records (f : string) (w : World) :
  (writable (disk w) f = true ->
     readable (disk (saveTasksToFile f w)) f
       = Some (concat (map save_line (filter record_ok (tasks w)))) /\
     (forall g, g <> f ->
        readable (disk (saveTasksToFile f w)) g = readable (disk w) g) /\
     cerr (saveTasksToFile f w)
       = cerr w ++
         flat_map (fun t => snd (validateTask (description t) (priority t))
                            ++ [MSG_NOT_SAVED (id t)])
                  (filter (fun t => negb (record_ok t)) (tasks w))) /\
  (writable (disk w) f = false ->
     disk (saveTasksToFile f w) = disk w /\
     cerr (saveTasksToFile f w) = cerr w ++ [MSG_CANNOT_SAVE]).
Proof.
  unfold saveTasksToFile. split; intros Hw; rewrite Hw.
  - rewrite save_loop_filter. cbn. rewrite String.eqb_refl.
    split; [reflexivity|]. split; [|reflexivity].
    intros g Hg. apply String.eqb_neq in Hg. rewrite Hg. reflexivity.
  - split; reflexivity.
Qed.

Lemma load_loop_disk (fuel : nat) : forall file w w',
  load_loop fuel file w = Some w' -> disk w' = disk w.
Proof.
  induction fuel as [|fuel IH]; intros file w w'; cbn [load_loop];
    [discriminate|].
  destruct (load_turn file w) as [|file1 w1] eqn:E.
  - intros H. injection H as <-. reflexivity.
  - intros H. apply IH in H. apply load_turn_continue in E.
    destruct E as (_ & Hd & _). congruence.
Qed.

Lemma step_disk (w w' : World) (o : op) :
  step w o w' ->
  (is_save o = false -> disk w' = disk w) /\
  (forall g, o <> OpSave g -> readable (disk w') g = readable (disk w) g).
Proof.
  destruct o as [f|f|d pr due|i|i d pr c due|a|a]; cbn [step is_save];
    intros Hstep.
  - assert (E : disk w' = disk w).
    { unfold loadTasksFromFile in Hstep.
      destruct (readable (disk w) f); [|injection Hstep as <-; reflexivity].
      destruct (load_loop _ _ _) as [w1|] eqn:El; [|discriminate].
      injection Hstep as <-. apply load_loop_disk in El. exact El. }
    rewrite E. auto.
  - split; [discriminate|]. intros g Hg. subst w'. unfold saveTasksToFile.
    destruct (writable (disk w) f); [|reflexivity].
    destruct (save_loop _ _ _). cbn.
    destruct (String.eqb g f) eqn:E; [|reflexivity].
    apply String.eqb_eq in E. subst g. contradiction.
  - assert (E : disk w' = disk w).
    { subst w'. unfold addTask. destruct (validateTask d pr) as [[|] m];
        reflexivity. }
    rewrite E. auto.
  - assert (E : disk w' = disk w).
    { subst w'. unfold deleteTask. destruct (Nat.eqb _ _); reflexivity. }
    rewrite E. auto.
  - assert (E : disk w' = disk w).
    { subst w'. unfold updateTask.
      destruct (update_loop _ _ _ _ _ _) as [[ts m]|]; reflexivity. }
    rewrite E. auto.
  - destruct Hstep as [_ E]. rewrite E. cbn. auto.
  - destruct Hstep as [_ E]. rewrite E. cbn. auto.
Qed.

(** X14.  Only [saveTasksToFile] writes files.  Over any sequence of
    operations a file that is not saved to keeps its content, and when the
    sequence holds no save at all the file system at the end is the one at
    the start: what was added, changed or deleted is in memory only. *)
Theorem files_change_only_by_save (p p' : process) (os : list op) (g : string) :
  run p os p' ->
  (~ In (OpSave g) os ->
     readable (disk (mem p')) g = readable (disk (mem p)) g) /\
  (existsb is_save os = false -> disk (mem p') = disk (mem p)).
Proof.
  induction 1 as [|p o p1 os p2 (Hstep & _) _ IH]; [auto|].
  destruct (step_disk _ _ _ Hstep) as [Hd Hr]. destruct IH as [IH1 IH2].
  split.
  - intros Hn. rewrite IH1 by (intros Hin; apply Hn; right; exact Hin).
    apply Hr. intros E. apply Hn. left. exact E.
  - cbn [existsb]. intros E. apply orb_false_iff in E. destruct E as [E1 E2].
    rewrite IH2 by exact E2. apply Hd, E1.
Qed.

Lemma files_change_only_by_save_witness :
  (~ In (OpSave TASKS_TXT) session_ops ->
     readable (disk (mem session_end)) TASKS_TXT
     = readable (disk (mem (boot session_disk))) TASKS_TXT) /\
  (existsb is_save session_ops = false ->
     disk (mem session_end) = disk (mem (boot session_disk))).
Proof.
  exact (files_change_only_by_save (boot session_disk) session_end session_ops
           TASKS_TXT session_runs).
Defined.

Lemma Permutation_count_completed (l l' : list Task) :
  Permutation l l' -> count_completed l = count_completed l'.
Proof.
  induction 1 as [|t l l' _ IH|a b l|l l1 l2 _ IH1 _ IH2].
  - reflexivity.
  - rewrite !count_completed_cons, IH. reflexivity.
  - rewrite !count_completed_cons. lia.
  - congruence.
Qed.

(** X15.  Sorting, by priority or by due date, in either direction and
    whichever permutation [std::sort] picks, changes neither the number of
    tasks nor the number of completed ones, so the completion percentage
    shown afterwards is the one shown before. *)
Theorem sort_keeps_percentage (ascending : bool) (w w' : World) :
  sortTasksByPriority ascending w w' \/ sortTasksByDueDate ascending w w' ->
  length (tasks w') = length (tasks w) /\
  count_completed (tasks w') = count_completed (tasks w) /\
  displayCompletionPercentage w' = displayCompletionPercentage w.
Proof.
  intros H.
  assert (Hp : Permutation (tasks w) (tasks w'))
    by (destruct H as [[[Hp _] _]|[[Hp _] _]]; exact Hp).
  pose proof (Permutation_length Hp) as Hl.
  pose proof (Permutation_count_completed _ _ Hp) as Hc.
  split; [symmetry; exact Hl|]. split; [symmetry; exact Hc|].
  unfold displayCompletionPercentage. rewrite <- Hl, <- Hc.
  destruct (tasks w) as [|t ts]; destruct (tasks w') as [|t' ts'];
    try reflexivity; discriminate.
Qed.

Lemma sort_keeps_percentage_witness :
  length (tasks (mkWorld (insertion_sort (by_priority false) four_tasks) 5
                         (disk_with None) []))
    = length (tasks (mkWorld four_tasks 5 (disk_with None) [])) /\
  count_completed
    (tasks (mkWorld (insertion_sort (by_priority false) four_tasks) 5
                    (disk_with None) []))
    = count_completed (tasks (mkWorld four_tasks 5 (disk_with None) [])) /\
  displayCompletionPercentage
    (mkWorld (insertion_sort (by_priority false) four_tasks) 5
             (disk_with None) [])
    = displayCompletionPercentage (mkWorld four_tasks 5 (disk_with None) []).
Proof.
  apply (sort_keeps_percentage false
           (mkWorld four_tasks 5 (disk_with None) [])
           (mkWorld (insertion_sort (by_priority false) four_tasks) 5
                    (disk_with None) [])).
  left. split; [|reflexivity]. apply std_sort_insertion_sort.
Defined.

End SaveFrame.

(** ** More on the file format *)

Section LoadMore.

(** A number that is followed by the end of the input is read, and reading it
    sets [eofbit]. *)
Lemma read_int_show_Z_open (lo hi v : Z) (rest : text) :
  lo <= v <= hi ->
  match rest with [] => True | c :: _ => isdigit c = false end ->
  read_int lo hi (mkIstream (show_Z v ++ rest) false false)
  = (v, mkIstream rest (at_end rest) false).
Proof.
  intros Hv Hrest.
  assert (Hspan : forall n, 0 <= n ->
            span_digits (show_unsigned n ++ rest) = (show_unsigned n, rest)).
  { intros n Hn. apply span_digits_app; [apply show_unsigned_digits, Hn|].
    exact Hrest. }
  unfold read_int, read_digits, show_Z. cbn [good eofbit failbit negb andb buf].
  destruct (v <? 0) eqn:Hneg.
  - apply Z.ltb_lt in Hneg.
    cbn [app skipws]. change (isspace MINUS) with false. cbv iota.
    rewrite Ascii.eqb_refl, Hspan by lia.
    pose proof (show_unsigned_value (- v) ltac:(lia)) as Hval.
    destruct (show_unsigned (- v)) as [|c ds] eqn:E;
      [exfalso; exact (show_unsigned_nonempty _ E)|].
    rewrite Hval, Z.opp_involutive.
    destruct (v <? lo) eqn:E1; [apply Z.ltb_lt in E1; lia|].
    destruct (hi <? v) eqn:E2; [apply Z.ltb_lt in E2; lia|].
    reflexivity.
  - apply Z.ltb_ge in Hneg.
    pose proof (show_unsigned_value v Hneg) as Hval.
    pose proof (show_unsigned_digits v Hneg) as Hds.
    specialize (Hspan v Hneg).
    destruct (show_unsigned v) as [|c ds] eqn:E;
      [exfalso; exact (show_unsigned_nonempty _ E)|].
    assert (Hc : isdigit c = true) by (inversion Hds; assumption).
    destruct (isdigit_plain c Hc) as (Hsp & Hm & Hp).
    cbn [app skipws]. rewrite Hsp, Hm, Hp.
    change (c :: ds ++ rest) with ((c :: ds) ++ rest). rewrite Hspan.
    rewrite Hval.
    destruct (v <? lo) eqn:E1; [apply Z.ltb_lt in E1; lia|].
    destruct (hi <? v) eqn:E2; [apply Z.ltb_lt in E2; lia|].
    reflexivity.
Qed.

Lemma read_int_blank_show_Z_open (lo hi v : Z) (rest : text) :
  lo <= v <= hi ->
  match rest with [] => True | c :: _ => isdigit c = false end ->
  read_int lo hi (mkIstream (SPACE :: show_Z v ++ rest) false false)
  = (v, mkIstream rest (at_end rest) false).
Proof.
  intros Hv Hrest. rewrite <- (read_int_show_Z_open lo hi v rest Hv Hrest).
  unfold read_int. cbn [good eofbit failbit negb andb buf skipws].
  change (isspace SPACE) with true. cbv iota. reflexivity.
Qed.

Lemma render_unfinished_eq (l : line) :
  render_unfinished l =
  l_desc l ++ PIPE :: show_Z (l_prio l) ++ SPACE :: show_Z (l_comp l) ++
  SPACE :: show_Z (l_due l).
Proof.
  unfold render_unfinished, render_line.
  replace (l_desc l ++ PIPE :: show_Z (l_prio l) ++ SPACE ::
           show_Z (l_comp l) ++ SPACE :: show_Z (l_due l) ++ [NEWLINE])
    with ((l_desc l ++ PIPE :: show_Z (l_prio l) ++ SPACE ::
           show_Z (l_comp l) ++ SPACE :: show_Z (l_due l)) ++ [NEWLINE])
    by (repeat (rewrite <- app_assoc; cbn [app]); reflexivity).
  apply removelast_last.
Qed.

(** X16.  A last line that lacks its final newline is not loaded, however
    well-formed it is: reading the due date meets the end of the file, the
    stream is no longer good and the loop is left before the task is built.
    The lines before it are loaded as usual. *)
Theorem load_drops_unfinished_line (w : World) (f : string) (ls : list line)
    (l : line) :
  Forall line_wf ls -> line_wf l ->
  readable (disk w) f = Some (render_file ls ++ render_unfinished l) ->
  loadTasksFromFile f w =
    Some (set_nextId (max_id (tasks_of_lines (nextId w) ls) + 1)
                     (after_lines ls (set_tasks [] w))).
Proof.
  intros Hls (Hpipe & Hp & Hc & Hd) Hread.
  apply (load_lines_then w f ls (render_unfinished l) Hls Hread).
  rewrite render_unfinished_eq. apply load_turn_bad_trailer; [exact Hpipe|].
  unfold trailer_parses, open_istream, read_int32, read_time_t.
  rewrite read_int_show_Z; [|exact Hp | reflexivity].
  rewrite read_int_blank_show_Z; [|exact Hc | reflexivity].
  rewrite <- (app_nil_r (show_Z (l_due l))).
  rewrite read_int_blank_show_Z_open; [|exact Hd | exact I].
  reflexivity.
Qed.

Lemma load_drops_unfinished_line_witness :
  loadTasksFromFile TASKS_TXT
    (initial_world
       (disk_with (Some (render_file [mkLine (txt "a") 1 0 0]
                         ++ render_unfinished (mkLine (txt "b") 2 1 5)))))
  = Some (set_nextId
            (max_id (tasks_of_lines 1 [mkLine (txt "a") 1 0 0]) + 1)
            (after_lines [mkLine (txt "a") 1 0 0]
               (set_tasks []
                  (initial_world
                     (disk_with
                        (Some (render_file [mkLine (txt "a") 1 0 0]
                               ++ render_unfinished (mkLine (txt "b") 2 1 5)))))))).
Proof.
  apply (load_drops_unfinished_line
           (initial_world
              (disk_with (Some (render_file [mkLine (txt "a") 1 0 0]
                                ++ render_unfinished (mkLine (txt "b") 2 1 5)))))
           TASKS_TXT [mkLine (txt "a") 1 0 0] (mkLine (txt "b") 2 1 5)).
  - repeat constructor; try no_pipe; in_range.
  - repeat split; try no_pipe; in_range.
  - reflexivity.
Defined.

(** X17.  Whatever stands between the due date and the end of its line is
    thrown away by the loader, provided it does not start with a digit: the
    turn of the loop ends as it does on the line without that text. *)
Theorem load_ignores_rest_of_line (l : line) (junk rest : text) (w : World) :
  line_wf l -> ~ In NEWLINE junk -> ends_number (junk ++ [NEWLINE]) ->
  load_turn (open_istream
               (render_unfinished l ++ junk ++ NEWLINE :: rest)) w
  = load_turn (open_istream (render_line l ++ rest)) w.
Proof.
  intros Hwf Hnl Hend. rewrite load_turn_line by exact Hwf.
  destruct Hwf as (Hpipe & Hp & Hc & Hd).
  rewrite render_unfinished_eq.
  repeat (rewrite <- app_assoc; cbn [app]).
  unfold load_turn, open_istream.
  cbn [good eofbit failbit negb andb].
  unfold peek. cbn [good eofbit failbit negb andb buf].
  assert (Hne : exists c r,
    l_desc l ++ PIPE :: show_Z (l_prio l) ++ SPACE :: show_Z (l_comp l) ++
      SPACE :: show_Z (l_due l) ++ junk ++ NEWLINE :: rest = c :: r).
  { destruct (l_desc l); cbn [app]; eauto. }
  destruct Hne as (c0 & r0 & Hne). rewrite Hne. rewrite <- Hne. clear c0 r0 Hne.
  unfold getline. cbn [good eofbit failbit negb andb buf].
  rewrite take_until_app by exact Hpipe.
  cbn [good eofbit failbit negb andb].
  unfold read_int32.
  rewrite read_int_show_Z; [|exact Hp | reflexivity].
  cbn [good eofbit failbit negb andb].
  rewrite read_int_blank_show_Z; [|exact Hc | reflexivity].
  cbn [good eofbit failbit negb andb].
  unfold read_time_t.
  rewrite read_int_blank_show_Z; [|exact Hd |].
  2:{ destruct junk; [reflexivity | exact Hend]. }
  cbn [good eofbit failbit negb andb].
  unfold ignore. cbn [good eofbit failbit negb andb buf].
  rewrite take_until_app by exact Hnl.
  unfold line_ok.
  destruct (at_end (l_desc l) || (l_prio l <? HIGHEST) || (LOWEST <? l_prio l));
    reflexivity.
Qed.

Lemma load_ignores_rest_of_line_witness :
  load_turn (open_istream
               (render_unfinished (mkLine (txt "a") 1 0 0)
                ++ txt " 17 b" ++ NEWLINE :: txt "c|2 0 0"))
            (initial_world (disk_with None))
  = load_turn (open_istream
                 (render_line (mkLine (txt "a") 1 0 0) ++ txt "c|2 0 0"))
              (initial_world (disk_with None)).
Proof.
  apply (load_ignores_rest_of_line (mkLine (txt "a") 1 0 0) (txt " 17 b")
           (txt "c|2 0 0") (initial_world (disk_with None))).
  - repeat split; try no_pipe; in_range.
  - no_pipe.
  - reflexivity.
Defined.

Lemma read_int_no_number (lo hi : Z) (t : text) :
  starts_no_number t = true ->
  good (snd (read_int lo hi (mkIstream t false false))) = false.
Proof.
  destruct t as [|c r]; cbn [starts_no_number]; [discriminate|].
  intros H. apply negb_true_iff in H.
  apply orb_false_iff in H. destruct H as [H Hplus].
  apply orb_false_iff in H. destruct H as [H Hminus].
  apply orb_false_iff in H. destruct H as [Hsp Hdig].
  unfold read_int. cbn [good eofbit failbit negb andb buf skipws].
  rewrite Hsp, Hminus, Hplus. unfold read_digits. cbn [span_digits].
  rewrite Hdig. cbn. destruct (at_end r); reflexivity.
Qed.

(** X18.  The file format does not protect the delimiter.  When a task whose
    description holds the delimiter, followed by something that is not a
    number, is saved and the file is loaded again, the load stops at that
    line without a message: the tasks before it come back, that task and
    all that follow it do not. *)
Theorem delimiter_in_description_cuts_reload (w : World) (f : string)
    (ts1 ts2 : list Task) (t : Task) (a b : text) :
  writable (disk w) f = true ->
  tasks w = ts1 ++ t :: ts2 ->
  Forall valid_task ts1 -> record_ok t = true ->
  description t = a ++ PIPE :: b -> ~ In PIPE a ->
  starts_no_number (b ++ [PIPE]) = true ->
  exists w',
    loadTasksFromFile f (saveTasksToFile f w) = Some w' /\
    map payload (tasks w') = map payload ts1 /\
    cerr w' = cerr (saveTasksToFile f w).
Proof.
  intros Hw Hts Hv Hok Hdesc Ha Hb.
  destruct (valid_tasks_lines _ Hv) as [Hwf Hlok].
  assert (Hfile : exists tail,
            readable (disk (saveTasksToFile f w)) f
            = Some (render_file (map line_of_task ts1)
                    ++ a ++ PIPE :: (b ++ [PIPE]) ++ tail)).
  { unfold saveTasksToFile. rewrite Hw, save_loop_filter, Hts.
    cbn [app]. rewrite !filter_app. cbn [filter]. rewrite Hok.
    assert (E1 : filter record_ok ts1 = ts1).
    { clear - Hv. induction Hv as [|x l Hx _ IH]; [reflexivity|].
      cbn [filter]. unfold record_ok at 1.
      rewrite valid_task_validate by exact Hx. cbn [fst]. f_equal. exact IH. }
    rewrite E1, map_app, concat_app. cbn [map concat].
    unfold save_line at 2. rewrite Hdesc.
    exists (show_Z (priority t) ++ SPACE :: show_bool (completed t) ++
            SPACE :: show_Z (dueDate t) ++ [NEWLINE] ++
            concat (map save_line (filter record_ok ts2))).
    cbn. rewrite String.eqb_refl. f_equal.
    assert (E2 : concat (map save_line ts1)
                 = render_file (map line_of_task ts1)).
    { unfold render_file. rewrite map_map. f_equal. }
    rewrite E2. f_equal.
    repeat (rewrite <- app_assoc; cbn [app]). reflexivity. }
  destruct Hfile as (tail & Hfile).
  eexists. split.
  - apply (load_lines_then _ f (map line_of_task ts1) _ Hwf Hfile).
    apply load_turn_bad_trailer; [exact Ha|].
    unfold trailer_parses, open_istream, read_int32.
    pose proof (read_int_no_number INT_MIN INT_MAX ((b ++ [PIPE]) ++ tail)) as Hr.
    destruct (read_int INT_MIN INT_MAX
                (mkIstream ((b ++ [PIPE]) ++ tail) false false)) as [v f2].
    cbn [snd] in Hr. rewrite Hr.
    + destruct (read_int INT_MIN INT_MAX f2) as [v3 f3].
      destruct (read_time_t f3). reflexivity.
    + destruct b; cbn [app starts_no_number] in *; exact Hb.
  - cbn [set_nextId after_lines set_tasks tasks cerr app].
    split.
    + rewrite tasks_of_lines_payload, Hlok, map_map.
      apply map_ext, line_payload_of_task.
    + unfold skipped.
      assert (E : filter (fun l => negb (line_ok l)) (map line_of_task ts1) = []).
      { clear - Hlok. induction ts1 as [|x l IH]; [reflexivity|].
        cbn [map filter] in *. destruct (line_ok (line_of_task x)) eqn:E.
        - cbn [negb]. apply IH. injection Hlok as Hlok. exact Hlok.
        - exfalso.
          pose proof (filter_length_le line_ok (map line_of_task l)) as Hle.
          apply (f_equal (@length line)) in Hlok. cbn [length] in Hlok. lia. }
      rewrite E. cbn [map]. apply app_nil_r.
Qed.

Lemma delimiter_in_description_cuts_reload_witness :
  exists w',
    loadTasksFromFile TASKS_TXT
      (saveTasksToFile TASKS_TXT
         (mkWorld tasks_with_delimiter 4 (disk_with None) []))
    = Some w' /\
    map payload (tasks w') = map payload [mkTask 1 (txt "a") HIGH false 10] /\
    cerr w' = cerr (saveTasksToFile TASKS_TXT
                      (mkWorld tasks_with_delimiter 4 (disk_with None) [])).
Proof.
  apply (delimiter_in_description_cuts_reload
           (mkWorld tasks_with_delimiter 4 (disk_with None) []) TASKS_TXT
           [mkTask 1 (txt "a") HIGH false 10]
           [mkTask 3 (txt "d") MEDIUM false 30]
           (mkTask 2 (txt "b|c") LOW true 20) (txt "b") (txt "c")).
  - reflexivity.
  - reflexivity.
  - repeat constructor; try discriminate; try no_pipe; in_range.
  - reflexivity.
  - reflexivity.
  - no_pipe.
  - reflexivity.
Defined.

End LoadMore.

(** ** The two tables *)

Section Tables.

Variable local_date : Z -> option text.

Lemma filter_loop_spec (s : bool) (ts : list Task) : forall found out,
  filter_loop local_date s ts found out =
  (found || existsb (fun t => Bool.eqb (completed t) s) ts,
   out ++ concat (map (task_row local_date)
                      (filter (fun t => Bool.eqb (completed t) s) ts))).
Proof.
  induction ts as [|t ts IH]; intros found out;
    cbn [filter_loop existsb filter].
  - cbn. rewrite orb_false_r, app_nil_r. reflexivity.
  - destruct (Bool.eqb (completed t) s); rewrite IH.
    + cbn [map concat orb]. rewrite orb_true_r, app_assoc. reflexivity.
    + reflexivity.
Qed.

(** X19.  [filterTasksByStatus] writes the header and then, in the order of
    the collection, exactly the rows that [displayTasks] writes for the
    tasks with the status asked for.  When no task has that status, it
    still writes the header, followed by the line that says so; this
    differs from [displayTasks], which writes no header for an empty
    collection. *)
Theorem filterTasksByStatus_rows (completedStatus : bool) (w : World) :
  filterTasksByStatus local_date completedStatus w =
    match filter (fun t => Bool.eqb (completed t) completedStatus) (tasks w) with
    | [] => table_header ++ txt "No tasks found with status: "
                         ++ status_text completedStatus ++ [NEWLINE]
    | found => displayTasks local_date (set_tasks found w)
    end.
Proof.
  unfold filterTasksByStatus, displayTasks. rewrite filter_loop_spec.
  cbn [orb set_tasks tasks].
  assert (Hex : forall ts,
            existsb (fun t => Bool.eqb (completed t) completedStatus) ts
            = match filter (fun t => Bool.eqb (completed t) completedStatus) ts
              with [] => false | _ => true end).
  { induction ts as [|t ts IH]; [reflexivity|].
    cbn [existsb filter]. destruct (Bool.eqb _ _); [reflexivity | exact IH]. }
  rewrite Hex.
  destruct (filter _ (tasks w)) as [|t ts]; cbn [map concat].
  - rewrite app_nil_r. reflexivity.
  - reflexivity.
Qed.

Lemma length_setw_left (n : nat) (s : text) :
  length (setw_left n s) = Nat.max n (length s).
Proof. unfold setw_left. rewrite length_app, repeat_length. lia. Qed.

Lemma length_table_row (c1 c2 c3 c4 c5 : text) :
  length (table_row c1 c2 c3 c4 c5) =
  (Nat.max 5 (length c1) + Nat.max 25 (length c2) + Nat.max 10 (length c3)
   + Nat.max 10 (length c4) + Nat.max 20 (length c5) + 1)%nat.
Proof.
  unfold table_row. rewrite !length_app, !length_setw_left. cbn [length]. lia.
Qed.

(** X20.  A row of the table lines up with the header, which is 70
    characters wide, exactly when the id has at most 5 characters, the
    description at most 25 and the date at most 20.  Nothing is ever cut: a
    longer field is written in full and moves the columns after it. *)
Theorem task_row_width (t : Task) :
  (length (task_row local_date t) = length table_header <->
   (length (show_Z (id t)) <= 5 /\ length (description t) <= 25 /\
    length (date_buffer local_date (dueDate t)) <= 20)%nat) /\
  (length table_header <= length (task_row local_date t))%nat /\
  exists pad1 pad2 rest,
    task_row local_date t =
    show_Z (id t) ++ pad1 ++ description t ++ pad2 ++ rest /\
    Forall (fun c => c = SPACE) (pad1 ++ pad2).
Proof.
  assert (Hp : (length (txt (priorityToString (priority t))) <= 10)%nat).
  { unfold priorityToString.
    destruct (priority t) as [|p|p]; try (cbn; lia).
    do 3 (try destruct p as [p|p|]); cbn; lia. }
  assert (Hs : (length (status_text (completed t)) <= 10)%nat)
    by (destruct (completed t); cbn; lia).
  assert (Hh : length table_header = 71%nat) by reflexivity.
  unfold task_row. rewrite length_table_row, Hh.
  split; [lia|]. split; [lia|].
  unfold table_row, setw_left.
  exists (repeat SPACE (5 - length (show_Z (id t)))),
         (repeat SPACE (25 - length (description t))).
  eexists. split.
  - rewrite <- !app_assoc. reflexivity.
  - apply Forall_app. split; apply Forall_forall; intros c Hin;
      apply repeat_spec in Hin; exact Hin.
Qed.

End Tables.

(** ** The prompts *)

Section Prompts.

Lemma skipws_app (ws t : text) : skipws ws = [] -> skipws (ws ++ t) = skipws t.
Proof.
  induction ws as [|c ws IH]; cbn [skipws app]; [reflexivity|].
  destruct (isspace c); [exact IH | discriminate].
Qed.

Lemma skipws_take_until (d : ascii) (t a r : text) :
  skipws t = [] -> take_until d t = (a, Some r) -> skipws r = [].
Proof.
  revert a r. induction t as [|c t IH]; intros a r; cbn [skipws take_until];
    [discriminate|].
  destruct (isspace c); [|discriminate]. intros Hs.
  destruct (Ascii.eqb c d).
  - intros E. injection E as _ <-. exact Hs.
  - destruct (take_until d t) as [a' [r'|]]; [|discriminate].
    intros E. injection E as _ <-. eapply IH; [exact Hs | reflexivity].
Qed.

Lemma span_word_app (wd rest : text) :
  Forall (fun c => isspace c = false) wd ->
  match rest with [] => True | c :: _ => isspace c = true end ->
  span_word (wd ++ rest) = (wd, rest).
Proof.
  intros Hwd Hrest. induction Hwd as [|c wd Hc _ IH]; cbn [app span_word].
  - destruct rest as [|c r]; [reflexivity|]. cbn [span_word].
    rewrite Hrest. reflexivity.
  - rewrite Hc, IH. reflexivity.
Qed.

Lemma read_word_plain (ws wd : text) (c : ascii) (rest : text) :
  skipws ws = [] -> plain_word wd -> isspace c = true ->
  read_word (mkIstream (ws ++ wd ++ c :: rest) false false)
  = (wd, mkIstream (c :: rest) false false).
Proof.
  intros Hws [Hne Hwd] Hc. unfold read_word.
  cbn [good eofbit failbit negb andb buf]. rewrite skipws_app by exact Hws.
  destruct wd as [|b wd]; [contradiction|].
  assert (Hb : isspace b = false) by (inversion Hwd; assumption).
  cbn [app skipws]. rewrite Hb.
  change (b :: wd ++ c :: rest) with ((b :: wd) ++ c :: rest).
  rewrite span_word_app; [reflexivity | exact Hwd | exact Hc].
Qed.

Lemma read_int_skip (lo hi : Z) (ws t : text) :
  skipws ws = [] ->
  read_int lo hi (mkIstream (ws ++ t) false false)
  = read_int lo hi (mkIstream t false false).
Proof.
  intros Hws. unfold read_int. cbn [good eofbit failbit negb andb buf].
  rewrite skipws_app by exact Hws. reflexivity.
Qed.

(** With nothing but white space left, an extraction fails and leaves
    nothing but white space. *)
Lemma read_int_exhausted (lo hi : Z) (c : istream) :
  skipws (buf c) = [] ->
  failbit (snd (read_int lo hi c)) = true /\
  skipws (buf (snd (read_int lo hi c))) = [].
Proof.
  intros H. unfold read_int. destruct (good c).
  - rewrite H. split; reflexivity.
  - split; [reflexivity | exact H].
Qed.

Lemma read_word_exhausted (c : istream) :
  skipws (buf c) = [] ->
  failbit (snd (read_word c)) = true /\ skipws (buf (snd (read_word c))) = [].
Proof.
  intros H. unfold read_word. destruct (good c).
  - rewrite H. split; reflexivity.
  - split; [reflexivity | exact H].
Qed.

Lemma ignore_exhausted (c : istream) :
  skipws (buf c) = [] -> skipws (buf (ignore c NEWLINE)) = [].
Proof.
  intros H. unfold ignore. destruct (good c); [|exact H].
  destruct (take_until NEWLINE (buf c)) as [a [r|]] eqn:E; [|reflexivity].
  exact (skipws_take_until _ _ _ _ H E).
Qed.

Lemma recover_exhausted (msg : string) (s : Session) :
  exhausted s ->
  exists s', recover msg s = Returned tt s' /\ exhausted s'.
Proof.
  intros H.
  exists (mkSession (say [msg] (world s)) (ignore (clear (cin s)) NEWLINE)
                    (cout s)).
  split; [reflexivity|].
  unfold exhausted. cbn [cin]. apply ignore_exhausted. exact H.
Qed.

(** X21.  When nothing but white space is left on [cin], neither prompt ever
    returns: every round fails to read, clears the flags, writes its message
    and starts again, for as long as one lets it run. *)
Theorem prompts_never_return_at_end_of_input (mc : machine) (s : Session) :
  exhausted s ->
  forall fuel,
    promptForPriority fuel s = Unfinished /\
    promptForDueDate mc fuel s = Unfinished.
Proof.
  intros Hs fuel. revert s Hs.
  induction fuel as [|fuel IH]; intros s Hs; [split; reflexivity|].
  split.
  - cbn [promptForPriority]. unfold bind at 1. cbn [print].
    unfold bind at 1. unfold extract at 1. cbn [cin world cout].
    destruct (read_word_exhausted (cin s) Hs) as [Hf Hb].
    destruct (read_word (cin s)) as [wd c1]. cbn [snd] in Hf, Hb.
    unfold bind at 1. cbn [cin_fails cin]. rewrite Hf.
    unfold bind at 1.
    match goal with
    | |- context [recover ?m ?s0] =>
        destruct (recover_exhausted m s0 Hb) as (s1 & E1 & H1)
    end.
    rewrite E1. apply IH, H1.
  - cbn [promptForDueDate]. unfold bind at 1. cbn [print].
    unfold bind at 1. unfold extract at 1. cbn [cin world cout].
    destruct (read_int_exhausted INT_MIN INT_MAX (cin s) Hs) as [_ Hb1].
    fold read_int32 in Hb1.
    destruct (read_int32 (cin s)) as [year c1]. cbn [snd] in Hb1.
    unfold bind at 1. unfold extract at 1. cbn [cin world cout].
    destruct (read_int_exhausted INT_MIN INT_MAX c1 Hb1) as [_ Hb2].
    fold read_int32 in Hb2.
    destruct (read_int32 c1) as [month c2]. cbn [snd] in Hb2.
    unfold bind at 1. unfold extract at 1. cbn [cin world cout].
    destruct (read_int_exhausted INT_MIN INT_MAX c2 Hb2) as [Hf Hb3].
    fold read_int32 in Hf, Hb3.
    destruct (read_int32 c2) as [day c3]. cbn [snd] in Hf, Hb3.
    unfold bind at 1. cbn [cin_fails cin]. rewrite Hf.
    unfold bind at 1.
    match goal with
    | |- context [recover ?m ?s0] =>
        destruct (recover_exhausted m s0 Hb3) as (s1 & E1 & H1)
    end.
    rewrite E1. apply IH, H1.
Qed.

Lemma prompts_never_return_at_end_of_input_witness :
  promptForPriority 7
    (mkSession (initial_world (disk_with None)) (open_istream (txt " ")) [])
  = Unfinished /\
  promptForDueDate sample_machine 7
    (mkSession (initial_world (disk_with None)) (open_istream (txt " ")) [])
  = Unfinished.
Proof.
  apply (prompts_never_return_at_end_of_input sample_machine
           (mkSession (initial_world (disk_with None))
                      (open_istream (txt " ")) [])).
  reflexivity.
Defined.

Lemma plain_rank (wd : text) (p : Priority) :
  stringToPrioritySafe wd = Some p -> plain_word wd.
Proof.
  intros H. apply stringToPrioritySafe_some in H. destruct H as [Hp ->].
  unfold HIGHEST, LOWEST in Hp.
  assert (p = 1 \/ p = 2 \/ p = 3 \/ p = 4 \/ p = 5) as
    [-> | [-> | [-> | [-> | ->]]]] by lia;
    (split; [discriminate | repeat constructor]).
Qed.

Lemma say_say (m1 m2 : list string) (w : World) :
  say m2 (say m1 w) = say (m1 ++ m2) w.
Proof. apply world_eq; cbn; rewrite ?app_assoc; reflexivity. Qed.

(** X22.  [promptForPriority] reads word after word until one of them is a
    rank.  When the user types words that are no ranks, one per line, and
    then a rank, the function asks once more for each of them, writes one
    message for each, and returns the rank; the end of the line that held
    the rank is left on [cin]. *)
Theorem promptForPriority_retries (bad : list text) (wd : text) (p : Priority)
    (rest : text) (extra : nat) :
  Forall plain_word bad ->
  Forall (fun b => stringToPrioritySafe b = None) bad ->
  stringToPrioritySafe wd = Some p ->
  forall (ws : text) (s : Session),
  skipws ws = [] ->
  cin s = mkIstream (ws ++ typed_lines bad ++ wd ++ NEWLINE :: rest)
                    false false ->
  promptForPriority (S (length bad + extra)) s =
    Returned p
      (mkSession (say (map (fun _ => MSG_PRIORITY_RANGE) bad) (world s))
                 (mkIstream (NEWLINE :: rest) false false)
                 (cout s ++ repeat (Text PROMPT_PRIORITY) (S (length bad)))).
Proof.
  intros Hplain Hbad Hwd. pose proof (plain_rank _ _ Hwd) as Hpw.
  assert (Hstep : forall fuel,
            promptForPriority (S fuel) =
            (print PROMPT_PRIORITY ;;;
             prioStr <- extract read_word ;;
             failed <- cin_fails ;;
             if failed then
               recover MSG_PRIORITY_INPUT ;;; promptForPriority fuel
             else
               match stringToPrioritySafe prioStr with
               | Some prio => ret prio
               | None =>
                   complain MSG_PRIORITY_RANGE ;;; promptForPriority fuel
               end)) by reflexivity.
  induction bad as [|b bad IH]; intros ws s Hws Hcin.
  - cbn [length Nat.add typed_lines map concat app] in *. rewrite Hstep.
    unfold bind at 1. cbn [print].
    unfold bind at 1. unfold extract at 1. cbn [cin world cout].
    rewrite Hcin, read_word_plain by (assumption || reflexivity).
    unfold bind at 1. cbn [cin_fails cin failbit].
    rewrite Hwd. unfold ret. cbn [repeat map]. rewrite say_nothing.
    reflexivity.
  - inversion Hplain as [|? ? Hb Hplain']; subst.
    inversion Hbad as [|? ? Hbn Hbad']; subst.
    cbn [length Nat.add]. rewrite Hstep.
    unfold bind at 1. cbn [print].
    unfold bind at 1. unfold extract at 1. cbn [cin world cout].
    rewrite Hcin. unfold typed_lines. cbn [map concat].
    rewrite <- !app_assoc. cbn [app].
    rewrite read_word_plain by (assumption || reflexivity).
    unfold bind at 1. cbn [cin_fails cin failbit].
    rewrite Hbn. unfold bind at 1. cbn [complain world cin cout].
    fold (typed_lines bad).
    rewrite (IH Hplain' Hbad' [NEWLINE]); [|reflexivity | reflexivity].
    cbn [world cin cout map repeat]. rewrite say_say, <- app_assoc.
    reflexivity.
Qed.

Lemma promptForPriority_retries_witness :
  promptForPriority (S (length [txt "x"; txt "7"] + 0))
    (mkSession (initial_world (disk_with None))
               (mkIstream ([] ++ typed_lines [txt "x"; txt "7"] ++ txt "3"
                            ++ NEWLINE :: txt "rest")
                          false false)
               []) =
    Returned 3
      (mkSession
         (say (map (fun _ => MSG_PRIORITY_RANGE) [txt "x"; txt "7"])
              (initial_world (disk_with None)))
         (mkIstream (NEWLINE :: txt "rest") false false)
         ([] ++ repeat (Text PROMPT_PRIORITY) (S (length [txt "x"; txt "7"])))).
Proof.
  apply (promptForPriority_retries [txt "x"; txt "7"] (txt "3") 3 (txt "rest")
           0) with (ws := []).
  - repeat constructor; discriminate.
  - repeat constructor.
  - reflexivity.
  - reflexivity.
  - reflexivity.
Defined.

Lemma show_Z_opp (m : Z) : 0 < m -> show_Z (- m) = MINUS :: show_Z m.
Proof.
  intros Hm. unfold show_Z.
  destruct (- m <? 0) eqn:E1; [|apply Z.ltb_ge in E1; lia].
  destruct (m <? 0) eqn:E2; [apply Z.ltb_lt in E2; lia|].
  rewrite Z.opp_involutive. reflexivity.
Qed.

(** X23.  [promptForDueDate] checks neither the month nor the day, and a
    date typed with dashes is not refused: in [2024-3-9] the two dashes are
    read as minus signs, so the month is -3 and the day -9, and the due date
    is whatever [mktime] makes of them. *)
Theorem promptForDueDate_dashes (mc : machine) (y m d : Z) (ws rest : text)
    (s : Session) (fuel : nat) :
  0 <= y <= INT_MAX -> 0 < m <= INT_MAX -> 0 < d <= INT_MAX ->
  skipws ws = [] -> ends_number rest ->
  cin s = mkIstream (ws ++ show_Z y ++ MINUS :: show_Z m ++
                     MINUS :: show_Z d ++ rest) false false ->
  mktime mc (y - 1900) (- m - 1) (- d) <> -1 ->
  promptForDueDate mc (S fuel) s =
    Returned (mktime mc (y - 1900) (- m - 1) (- d))
      (mkSession (world s) (mkIstream rest false false)
                 (cout s ++ [Text PROMPT_DUE_DATE])).
Proof.
  unfold INT_MAX. intros Hy Hm Hd Hws Hrest Hcin Hmk.
  change (2 ^ 31 - 1) with 2147483647 in *.
  assert (Hr : forall v, - 2147483647 <= v <= 2147483647 ->
                         INT_MIN <= v <= INT_MAX).
  { intros v Hv. unfold INT_MIN, INT_MAX.
    change (- 2 ^ 31) with (-2147483648). change (2 ^ 31 - 1) with 2147483647.
    lia. }
  cbn [promptForDueDate].
  unfold bind at 1. cbn [print].
  unfold bind at 1. unfold extract at 1. cbn [cin world cout].
  rewrite Hcin. unfold read_int32.
  rewrite read_int_skip by exact Hws.
  replace (show_Z y ++ MINUS :: show_Z m ++ MINUS :: show_Z d ++ rest)
    with (show_Z y ++ show_Z (- m) ++ show_Z (- d) ++ rest)
    by (rewrite !show_Z_opp by lia; reflexivity).
  rewrite read_int_show_Z; [|apply Hr; lia|].
  2:{ rewrite show_Z_opp by lia. reflexivity. }
  unfold bind at 1. unfold extract at 1. cbn [cin world cout].
  rewrite read_int_show_Z; [|apply Hr; lia|].
  2:{ rewrite show_Z_opp by lia. reflexivity. }
  unfold bind at 1. unfold extract at 1. cbn [cin world cout].
  rewrite read_int_show_Z; [|apply Hr; lia | exact Hrest].
  unfold bind at 1. cbn [cin_fails cin failbit].
  unfold INT_MIN. change (- 2 ^ 31) with (-2147483648).
  destruct (y - 1900 <? -2147483648) eqn:E1; [apply Z.ltb_lt in E1; lia|].
  destruct (- m - 1 <? -2147483648) eqn:E2; [apply Z.ltb_lt in E2; lia|].
  cbn [orb]. cbv zeta.
  destruct (mktime mc (y - 1900) (- m - 1) (- d) =? -1) eqn:E3;
    [apply Z.eqb_eq in E3; contradiction|].
  reflexivity.
Qed.

Lemma promptForDueDate_dashes_witness :
  promptForDueDate sample_machine 1
    (mkSession (initial_world (disk_with None))
               (mkIstream ([] ++ show_Z 2024 ++ MINUS :: show_Z 3 ++
                           MINUS :: show_Z 9 ++ [NEWLINE]) false false)
               []) =
    Returned (mktime sample_machine (2024 - 1900) (- 3 - 1) (- 9))
      (mkSession (initial_world (disk_with None))
                 (mkIstream [NEWLINE] false false)
                 ([] ++ [Text PROMPT_DUE_DATE])).
Proof.
  apply (promptForDueDate_dashes sample_machine 2024 3 9 [] [NEWLINE]
           (mkSession (initial_world (disk_with None))
                      (mkIstream ([] ++ show_Z 2024 ++ MINUS :: show_Z 3 ++
                                  MINUS :: show_Z 9 ++ [NEWLINE]) false false)
                      []) 0).
  - split; in_range.
  - split; [reflexivity | in_range].
  - split; [reflexivity | in_range].
  - reflexivity.
  - reflexivity.
  - reflexivity.
  - vm_compute. discriminate.
Defined.

End Prompts.

(** ** What the console functions leave as it is *)

Section Respect.

Variable R : Session -> Session -> Prop.
Hypothesis R_refl : forall s, R s s.
Hypothesis R_trans : forall s1 s2 s3, R s1 s2 -> R s2 s3 -> R s1 s3.
Hypothesis R_cout :
  forall s items, R s (mkSession (world s) (cin s) (cout s ++ items)).
Hypothesis R_cin : forall s c, R s (mkSession (world s) c (cout s)).
Hypothesis R_cerr :
  forall s msgs, R s (mkSession (say msgs (world s)) (cin s) (cout s)).

Lemma respects_ret {A : Type} (a : A) : respects R (ret a).
Proof. intros s a' s' H. injection H as _ <-. apply R_refl. Qed.

Lemma respects_bind {A B : Type} (m : M A) (k : A -> M B) :
  respects R m -> (forall a, respects R (k a)) -> respects R (bind m k).
Proof.
  intros Hm Hk s b s'. unfold bind.
  destruct (m s) as [a s1| |] eqn:E; try discriminate.
  intros H. eapply R_trans; [eapply Hm, E | eapply Hk, H].
Qed.

Lemma respects_undefined {A : Type} : respects R (@undefined A).
Proof. intros s a s' H. discriminate H. Qed.

Lemma respects_unfinished {A : Type} : respects R (@unfinished A).
Proof. intros s a s' H. discriminate H. Qed.

Lemma respects_print (t : text) : respects R (print t).
Proof. intros s a s' H. injection H as _ <-. apply R_cout. Qed.

Lemma respects_print_line (l : string) : respects R (print_line l).
Proof. apply respects_print. Qed.

Lemma respects_complain (msg : string) : respects R (complain msg).
Proof. intros s a s' H. injection H as _ <-. apply R_cerr. Qed.

Lemma respects_extract {A : Type} (f : istream -> A * istream) :
  respects R (extract f).
Proof.
  intros s a s'. unfold extract. destruct (f (cin s)) as [a0 c].
  intros H. injection H as _ <-. apply R_cin.
Qed.

Lemma respects_cin_fails : respects R cin_fails.
Proof. intros s a s' H. injection H as _ <-. apply R_refl. Qed.

Lemma respects_recover (msg : string) : respects R (recover msg).
Proof.
  unfold recover, cin_clear, cin_ignore_line.
  apply respects_bind; [apply respects_extract|]. intros _.
  apply respects_bind; [apply respects_extract|]. intros _.
  apply respects_complain.
Qed.

Lemma respects_promptForPriority (fuel : nat) :
  respects R (promptForPriority fuel).
Proof.
  induction fuel as [|fuel IH]; cbn [promptForPriority];
    [apply respects_unfinished|].
  apply respects_bind; [apply respects_print|]. intros _.
  apply respects_bind; [apply respects_extract|]. intros prioStr.
  apply respects_bind; [apply respects_cin_fails|]. intros [|].
  - apply respects_bind; [apply respects_recover | intros _; exact IH].
  - destruct (stringToPrioritySafe prioStr); [apply respects_ret|].
    apply respects_bind; [apply respects_complain | intros _; exact IH].
Qed.

Lemma respects_promptForDueDate (mc : machine) (fuel : nat) :
  respects R (promptForDueDate mc fuel).
Proof.
  induction fuel as [|fuel IH]; cbn [promptForDueDate];
    [apply respects_unfinished|].
  apply respects_bind; [apply respects_print|]. intros _.
  apply respects_bind; [apply respects_extract|]. intros year.
  apply respects_bind; [apply respects_extract|]. intros month.
  apply respects_bind; [apply respects_extract|]. intros day.
  apply respects_bind; [apply respects_cin_fails|]. intros [|].
  - apply respects_bind; [apply respects_recover | intros _; exact IH].
  - destruct (_ || _); [apply respects_undefined|]. cbv zeta.
    destruct (_ =? -1); [|apply respects_ret].
    apply respects_bind; [apply respects_complain | intros _; exact IH].
Qed.

Lemma respects_answers_yes : respects R answers_yes.
Proof.
  unfold answers_yes. apply respects_bind; [apply respects_extract|].
  intros [c|]; [apply respects_ret | apply respects_undefined].
Qed.

Lemma respects_read_number (msg : string) : respects R (read_number msg).
Proof.
  unfold read_number. apply respects_bind; [apply respects_extract|].
  intros n. apply respects_bind; [apply respects_cin_fails|]. intros [|].
  - apply respects_bind; [apply respects_recover|]. intros _.
    apply respects_ret.
  - apply respects_ret.
Qed.

(** The static methods that [main] calls. *)
Variable mc : machine.
Hypothesis R_add :
  forall s d p due,
    R s (mkSession (addTask d p due (world s)) (cin s) (cout s)).
Hypothesis R_update :
  forall s i d p c due,
    R s (mkSession (updateTask i d p c due (world s)) (cin s) (cout s)).
Hypothesis R_delete :
  forall s i, R s (mkSession (deleteTask i (world s)) (cin s) (cout s)).
Hypothesis R_sort_priority :
  forall s a,
    R s (mkSession (sort_tasks mc (by_priority a) (world s)) (cin s) (cout s)).
Hypothesis R_sort_dueDate :
  forall s a,
    R s (mkSession (sort_tasks mc (by_dueDate a) (world s)) (cin s) (cout s)).
Hypothesis R_save :
  forall s,
    R s (mkSession (saveTasksToFile TASKS_TXT (world s)) (cin s)
                   (cout s ++ [Text SAVED])).

Lemma respects_case_add (fuel : nat) : respects R (case_add mc fuel).
Proof.
  unfold case_add, cin_ignore_line.
  apply respects_bind; [apply respects_extract|]. intros _.
  apply respects_bind; [apply respects_print|]. intros _.
  apply respects_bind; [apply respects_extract|]. intros desc.
  apply respects_bind; [apply respects_promptForPriority|]. intros prio.
  apply respects_bind; [apply respects_promptForDueDate|]. intros due.
  apply respects_bind; [|intros _; apply respects_print_line].
  intros s a s' H. injection H as _ <-. apply R_add.
Qed.

Lemma respects_case_edit (fuel : nat) : respects R (case_edit mc fuel).
Proof.
  unfold case_edit, cin_ignore_line.
  apply respects_bind; [apply respects_print|]. intros _.
  apply respects_bind; [apply respects_read_number|]. intros [i|];
    [|apply respects_ret].
  apply respects_bind; [apply respects_extract|]. intros _.
  apply respects_bind; [apply respects_print|]. intros _.
  apply respects_bind; [apply respects_answers_yes|]. intros dOption.
  apply respects_bind.
  { destruct dOption; [|apply respects_ret].
    apply respects_bind; [apply respects_extract|]. intros _.
    apply respects_bind; [apply respects_print|]. intros _.
    apply respects_bind; [apply respects_extract|]. intros newDesc.
    apply respects_ret. }
  intros descOpt.
  apply respects_bind; [apply respects_print|]. intros _.
  apply respects_bind; [apply respects_answers_yes|]. intros pOption.
  apply respects_bind.
  { destruct pOption; [|apply respects_ret].
    apply respects_bind; [apply respects_promptForPriority|]. intros newPrio.
    apply respects_ret. }
  intros prioOpt.
  apply respects_bind; [apply respects_print|]. intros _.
  apply respects_bind; [apply respects_answers_yes|]. intros cOption.
  apply respects_bind.
  { destruct cOption; [|apply respects_ret].
    apply respects_bind; [apply respects_print|]. intros _.
    apply respects_bind; [apply respects_read_number|].
    intros [v|]; apply respects_ret. }
  intros [compOpt|]; [|apply respects_ret].
  apply respects_bind; [apply respects_print|]. intros _.
  apply respects_bind; [apply respects_answers_yes|]. intros dateOption.
  apply respects_bind.
  { destruct dateOption; [|apply respects_ret].
    apply respects_bind; [apply respects_promptForDueDate|]. intros newDue.
    apply respects_ret. }
  intros dueOpt.
  apply respects_bind; [|intros _; apply respects_print_line].
  intros s a s' H. injection H as _ <-. apply R_update.
Qed.

Lemma respects_case_delete : respects R case_delete.
Proof.
  unfold case_delete.
  apply respects_bind; [apply respects_print|]. intros _.
  apply respects_bind; [apply respects_read_number|]. intros [i|];
    [|apply respects_ret].
  apply respects_bind; [|intros _; apply respects_print_line].
  intros s a s' H. injection H as _ <-. apply R_delete.
Qed.

Lemma respects_case_mark : respects R case_mark.
Proof.
  unfold case_mark.
  apply respects_bind; [apply respects_print|]. intros _.
  apply respects_bind; [apply respects_read_number|]. intros [i|];
    [|apply respects_ret].
  apply respects_bind; [|intros _; apply respects_print_line].
  intros s a s' H. injection H as _ <-. apply R_update.
Qed.

Lemma respects_case_display : respects R (case_display mc).
Proof. intros s a s' H. injection H as _ <-. apply R_cout. Qed.

Lemma respects_case_filter : respects R (case_filter mc).
Proof.
  unfold case_filter.
  apply respects_bind; [apply respects_print|]. intros _.
  apply respects_bind; [apply respects_read_number|]. intros [n|];
    [|apply respects_ret].
  assert (Hshow : forall b,
            respects R (fun s => print (filterTasksByStatus (local_date mc) b
                                                            (world s)) s)).
  { intros b s a s' H. injection H as _ <-. apply R_cout. }
  destruct n as [|[[]|[]|]|]; try apply respects_complain; apply Hshow.
Qed.

Lemma respects_case_sort (menu : text)
    (lambda : bool -> Task -> Task -> bool) :
  (forall s a,
     R s (mkSession (sort_tasks mc (lambda a) (world s)) (cin s) (cout s))) ->
  respects R (case_sort mc menu lambda).
Proof.
  intros R_sort. unfold case_sort.
  apply respects_bind; [apply respects_print|]. intros _.
  apply respects_bind; [apply respects_read_number|]. intros [n|];
    [|apply respects_ret].
  assert (Hsort : forall b, respects R (call (sort_tasks mc (lambda b)))).
  { intros b s a s' H. injection H as _ <-. apply R_sort. }
  destruct n as [|[[]|[]|]|]; try apply respects_complain; apply Hsort.
Qed.

Lemma respects_case_percentage : respects R case_percentage.
Proof.
  intros s a s'. unfold case_percentage.
  destruct (displayCompletionPercentage (world s));
    intros H; injection H as _ <-; apply R_cout.
Qed.

Lemma respects_case_save : respects R case_save.
Proof. intros s a s' H. injection H as _ <-. apply R_save. Qed.

Lemma respects_menu_turn (fuel : nat) : respects R (menu_turn mc fuel).
Proof.
  unfold menu_turn.
  apply respects_bind; [apply respects_print|]. intros _.
  apply respects_bind; [apply respects_extract|]. intros choice.
  apply respects_bind; [apply respects_cin_fails|]. intros [|].
  { apply respects_bind; [apply respects_recover|]. intros _.
    apply respects_ret. }
  assert (Hthen : forall m : M unit,
            respects R m -> respects R (m ;;; ret true)).
  { intros m Hm. apply respects_bind; [exact Hm|]. intros _.
    apply respects_ret. }
  destruct choice as [|p|p]; [apply respects_ret| |];
    [|apply Hthen, respects_complain].
  do 4 (try destruct p as [p|p|]);
    first [ apply Hthen, respects_complain
          | apply Hthen, respects_case_add
          | apply Hthen, respects_case_edit
          | apply Hthen, respects_case_delete
          | apply Hthen, respects_case_mark
          | apply Hthen, respects_case_display
          | apply Hthen, respects_case_filter
          | apply Hthen, respects_case_sort, R_sort_priority
          | apply Hthen, respects_case_sort, R_sort_dueDate
          | apply Hthen, respects_case_percentage
          | apply Hthen, respects_case_save ].
Qed.

Lemma respects_menu_loop (fuel : nat) : respects R (menu_loop mc fuel).
Proof.
  induction fuel as [|fuel IH]; cbn [menu_loop]; [apply respects_unfinished|].
  apply respects_bind; [apply respects_menu_turn|].
  intros [|]; [exact IH | apply respects_ret].
Qed.

End Respect.

(** ** The program *)

Section Program.

Lemma same_store_refl (s : Session) : same_store s s.
Proof. repeat split. Qed.

Lemma same_store_trans (s1 s2 s3 : Session) :
  same_store s1 s2 -> same_store s2 s3 -> same_store s1 s3.
Proof.
  unfold same_store. intros (A1 & A2 & A3) (B1 & B2 & B3).
  repeat split; congruence.
Qed.

(** One round of [promptForPriority]. *)
Lemma promptForPriority_round (fuel : nat) (s : Session) :
  promptForPriority (S fuel) s =
  let (prioStr, c) := read_word (cin s) in
  if failbit c then
    promptForPriority fuel
      (mkSession (say [MSG_PRIORITY_INPUT] (world s))
                 (ignore (clear c) NEWLINE)
                 (cout s ++ [Text PROMPT_PRIORITY]))
  else
    match stringToPrioritySafe prioStr with
    | Some prio =>
        Returned prio (mkSession (world s) c (cout s ++ [Text PROMPT_PRIORITY]))
    | None =>
        promptForPriority fuel
          (mkSession (say [MSG_PRIORITY_RANGE] (world s)) c
                     (cout s ++ [Text PROMPT_PRIORITY]))
    end.
Proof.
  cbn [promptForPriority]. unfold bind at 1. cbn [print].
  unfold bind at 1. unfold extract at 1. cbn [cin world cout].
  destruct (read_word (cin s)) as [wd c1].
  unfold bind at 1. cbn [cin_fails cin].
  destruct (failbit c1); [reflexivity|].
  destruct (stringToPrioritySafe wd); reflexivity.
Qed.

(** X24.  [promptForPriority] has no undefined behaviour, and when it returns
    it returns one of the five ranks; it reads [cin] and writes to [cout]
    and [cerr], and leaves the tasks, the counter and the files alone. *)
Theorem promptForPriority_sound (fuel : nat) (s : Session) :
  promptForPriority fuel s <> Undefined /\
  forall p s',
    promptForPriority fuel s = Returned p s' ->
    HIGHEST <= p <= LOWEST /\ same_store s s'.
Proof.
  assert (Hstore : respects same_store (promptForPriority fuel)).
  { apply respects_promptForPriority.
    - apply same_store_refl.
    - apply same_store_trans.
    - intros; repeat split.
    - intros; repeat split.
    - intros; repeat split. }
  assert (Hrank : forall s0,
            promptForPriority fuel s0 <> Undefined /\
            forall p s', promptForPriority fuel s0 = Returned p s' ->
                         HIGHEST <= p <= LOWEST).
  { clear. induction fuel as [|fuel IH]; intros s0.
    - split; [discriminate | intros p s' H; discriminate H].
    - rewrite promptForPriority_round.
      destruct (read_word (cin s0)) as [wd c1].
      destruct (failbit c1); [apply IH|].
      destruct (stringToPrioritySafe wd) as [q|] eqn:E; [|apply IH].
      split; [discriminate|]. intros p s' H. injection H as <- _.
      apply stringToPrioritySafe_some in E. apply E. }
  split; [apply Hrank|]. intros p s' H.
  split; [eapply Hrank, H | eapply Hstore, H].
Qed.

Lemma menu_turn_exhausted (mc : machine) (fuel : nat) (s : Session) :
  exhausted s ->
  exists s', menu_turn mc fuel s = Returned true s' /\ exhausted s'.
Proof.
  intros Hs. unfold menu_turn. unfold bind at 1. cbn [print].
  unfold bind at 1. unfold extract at 1. cbn [cin world cout].
  destruct (read_int_exhausted INT_MIN INT_MAX (cin s) Hs) as [Hf Hb].
  fold read_int32 in Hf, Hb.
  destruct (read_int32 (cin s)) as [choice c1]. cbn [snd] in Hf, Hb.
  unfold bind at 1. cbn [cin_fails cin]. rewrite Hf.
  unfold bind at 1.
  match goal with
  | |- context [recover ?m ?s0] =>
      destruct (recover_exhausted m s0 Hb) as (s1 & E1 & H1)
  end.
  rewrite E1. exists s1. split; [reflexivity | exact H1].
Qed.

Lemma then_true_not_false (m : M unit) (s s' : Session) :
  (m ;;; ret true) s <> Returned false s'.
Proof.
  unfold bind, ret. destruct (m s) as [u s1| |]; [|discriminate..].
  intros H. discriminate H.
Qed.

(** What a turn of the menu does up to the [switch]. *)
Lemma menu_turn_read (mc : machine) (fuel : nat) (s : Session) :
  menu_turn mc fuel s =
  let (choice, c) := read_int32 (cin s) in
  if failbit c then
    Returned true
      (mkSession (say [MSG_INPUT] (world s)) (ignore (clear c) NEWLINE)
                 (cout s ++ [Text MENU]))
  else
    match choice with
    | 1 => case_add mc fuel ;;; ret true
    | 2 => case_edit mc fuel ;;; ret true
    | 3 => case_delete ;;; ret true
    | 4 => case_mark ;;; ret true
    | 5 => case_display mc ;;; ret true
    | 6 => case_filter mc ;;; ret true
    | 7 => case_sort mc MENU_SORT_PRIORITY by_priority ;;; ret true
    | 8 => case_sort mc MENU_SORT_DUE_DATE by_dueDate ;;; ret true
    | 9 => case_percentage ;;; ret true
    | 10 => case_save ;;; ret true
    | 0 => ret false
    | _ => complain MSG_MENU_CHOICE ;;; ret true
    end (mkSession (world s) c (cout s ++ [Text MENU])).
Proof.
  unfold menu_turn. unfold bind at 1. cbn [print].
  unfold bind at 1. unfold extract at 1. cbn [cin world cout].
  destruct (read_int32 (cin s)) as [choice c].
  unfold bind at 1. cbn [cin_fails cin].
  destruct (failbit c); reflexivity.
Qed.

Lemma menu_turn_stops (mc : machine) (fuel : nat) (s s' : Session) :
  menu_turn mc fuel s = Returned false s' <->
  read_int32 (cin s) = (0, cin s') /\ failbit (cin s') = false /\
  world s' = world s /\ cout s' = cout s ++ [Text MENU].
Proof.
  rewrite menu_turn_read.
  destruct (read_int32 (cin s)) as [choice c]. split.
  - destruct (failbit c) eqn:Ef; [discriminate|].
    destruct choice as [|p|p].
    + intros H. injection H as <-. cbn [cin world cout]. auto.
    + do 4 (try destruct p as [p|p|]);
        intros H; exfalso; exact (then_true_not_false _ _ _ H).
    + intros H. exfalso. exact (then_true_not_false _ _ _ H).
  - intros (E & Ef & Ew & Ec). injection E as -> ->. rewrite Ef.
    unfold ret. f_equal. destruct s' as [w' c' o']. cbn in *. congruence.
Qed.

Lemma menu_loop_stops (mc : machine) (fuel : nat) :
  forall s s',
    menu_loop mc fuel s = Returned tt s' ->
    exists fuel0 s0,
      loop_reaches mc s s0 /\ menu_turn mc fuel0 s0 = Returned false s'.
Proof.
  induction fuel as [|fuel IH]; intros s s'; cbn [menu_loop];
    [discriminate|].
  unfold bind.
  destruct (menu_turn mc fuel s) as [[|] s1| |] eqn:E; try discriminate.
  - intros H. destruct (IH _ _ H) as (fuel0 & s0 & Hr & Ht).
    exists fuel0, s0. split; [|exact Ht].
    eapply reaches_next; eassumption.
  - intros H. injection H as <-. exists fuel, s.
    split; [apply reaches_here | exact E].
Qed.

Lemma menu_loop_exhausted (mc : machine) (fuel : nat) :
  forall s, exhausted s -> menu_loop mc fuel s = Unfinished.
Proof.
  induction fuel as [|fuel IH]; intros s Hs; [reflexivity|].
  cbn [menu_loop]. unfold bind.
  destruct (menu_turn_exhausted mc fuel s Hs) as (s1 & -> & H1).
  apply IH, H1.
Qed.

(** X25.  [main] leaves its loop by choice 0 and in no other way: a turn of
    the menu ends with [running] false exactly when the choice was read and
    is the number 0, and then it has done nothing but show the menu and read
    that number; so when the loop, or the program, returns, a session in
    which the menu was shown again has read the choice 0.  Whenever the menu
    is shown and nothing but white space is left on [cin], the loop never
    ends: every turn fails to read a choice, writes its message and shows
    the menu again; in particular the program never exits on an input that
    is empty or white space only. *)
Theorem main_exits_by_choice_0_only (mc : machine) :
  (forall fuel s s',
     menu_turn mc fuel s = Returned false s' <->
     read_int32 (cin s) = (0, cin s') /\ failbit (cin s') = false /\
     world s' = world s /\ cout s' = cout s ++ [Text MENU]) /\
  (forall fuel s s',
     menu_loop mc fuel s = Returned tt s' ->
     exists s0,
       loop_reaches mc s s0 /\
       read_int32 (cin s0) = (0, cin s') /\ failbit (cin s') = false /\
       world s' = world s0 /\ cout s' = cout s0 ++ [Text MENU]) /\
  (forall fuel fs input s',
     main mc fuel fs input = Returned tt s' ->
     exists w s0,
       loadTasksFromFile TASKS_TXT (initial_world fs) = Some w /\
       loop_reaches mc (mkSession w (open_istream input) []) s0 /\
       read_int32 (cin s0) = (0, cin s') /\ failbit (cin s') = false /\
       world s' = world s0 /\
       cout s' = cout s0 ++ [Text MENU; Text GOODBYE]) /\
  (forall fuel s, exhausted s -> menu_loop mc fuel s = Unfinished) /\
  (forall fuel fs input,
     skipws input = [] -> main mc fuel fs input = Unfinished).
Proof.
  assert (Hloop : forall fuel s s',
            menu_loop mc fuel s = Returned tt s' ->
            exists s0,
              loop_reaches mc s s0 /\
              read_int32 (cin s0) = (0, cin s') /\ failbit (cin s') = false /\
              world s' = world s0 /\ cout s' = cout s0 ++ [Text MENU]).
  { intros fuel s s' H.
    destruct (menu_loop_stops mc fuel s s' H) as (fuel0 & s0 & Hr & Ht).
    exists s0. split; [exact Hr|]. apply (menu_turn_stops mc fuel0), Ht. }
  split; [apply menu_turn_stops|]. split; [exact Hloop|].
  split; [|split].
  - intros fuel fs input s' H. unfold main in H.
    destruct (loadTasksFromFile TASKS_TXT (initial_world fs)) as [w|];
      [|discriminate].
    unfold bind in H.
    destruct (menu_loop mc fuel _) as [[] s1| |] eqn:E; try discriminate.
    injection H as <-.
    destruct (Hloop _ _ _ E) as (s0 & Hr & H0 & Hf & Hw & Hc).
    exists w, s0. cbn [cin world cout]. repeat split; try assumption.
    rewrite Hc, <- app_assoc. reflexivity.
  - intros fuel s Hs. apply menu_loop_exhausted, Hs.
  - intros fuel fs input Hin. unfold main.
    destruct (loadTasksFromFile_total TASKS_TXT (initial_world fs)) as [w ->].
    unfold bind. rewrite menu_loop_exhausted; [reflexivity | exact Hin].
Qed.

Lemma main_exits_by_choice_0_only_witness :
  main sample_machine 9 (disk_with None) (txt " ") = Unfinished.
Proof.
  apply (main_exits_by_choice_0_only sample_machine).
  reflexivity.
Defined.

Lemma load_keeps_disk (f : string) (w w' : World) :
  loadTasksFromFile f w = Some w' -> disk w' = disk w.
Proof.
  intros H. apply (step_disk w w' (OpLoad f)); [exact H | reflexivity].
Qed.

Lemma main_returned (mc : machine) (fuel : nat) (fs : fsys) (input : text)
    (s : Session) :
  main mc fuel fs input = Returned tt s ->
  exists w s1,
    loadTasksFromFile TASKS_TXT (initial_world fs) = Some w /\
    menu_loop mc fuel (mkSession w (open_istream input) []) = Returned tt s1 /\
    s = mkSession (world s1) (cin s1) (cout s1 ++ [Text GOODBYE]).
Proof.
  unfold main.
  destruct (loadTasksFromFile TASKS_TXT (initial_world fs)) as [w|];
    [|discriminate].
  unfold bind.
  destruct (menu_loop mc fuel _) as [[] s1| |] eqn:E; try discriminate.
  intros H. injection H as <-. exists w, s1. auto.
Qed.

(** X26.  Whatever the user types, when [main] exits no file other than
    tasks.txt has changed; and unless "Tasks saved to file." was written to
    [cout], that is unless choice 10 was made, tasks.txt is as it was too:
    everything added, edited or deleted in the session is lost. *)
Theorem main_writes_only_when_saving (mc : machine) (fuel : nat) (fs : fsys)
    (input : text) (s : Session) :
  main mc fuel fs input = Returned tt s ->
  (forall g, g <> TASKS_TXT -> readable (disk (world s)) g = readable fs g) /\
  (~ In (Text SAVED) (cout s) -> disk (world s) = fs).
Proof.
  intros H. destruct (main_returned _ _ _ _ _ H) as (w & s1 & Hl & Hm & ->).
  apply load_keeps_disk in Hl. cbn [initial_world disk] in Hl.
  cbn [world cout]. split.
  - assert (Hr : respects
        (fun a b => forall g, g <> TASKS_TXT ->
           readable (disk (world b)) g = readable (disk (world a)) g)
        (menu_loop mc fuel)).
    { apply respects_menu_loop; try (intros; reflexivity).
      - intros s2 s3 s4 A B g Hg. rewrite B, A by exact Hg. reflexivity.
      - intros s2 d p due g _. cbn [world].
        destruct (step_disk (world s2) _ (OpAdd d p due) eq_refl) as [E _].
        rewrite E; reflexivity.
      - intros s2 i d p c due g _. cbn [world].
        destruct (step_disk (world s2) _ (OpUpdate i d p c due) eq_refl)
          as [E _].
        rewrite E; reflexivity.
      - intros s2 i g _. cbn [world].
        destruct (step_disk (world s2) _ (OpDelete i) eq_refl) as [E _].
        rewrite E; reflexivity.
      - intros s2 g Hg. cbn [world].
        destruct (step_disk (world s2) _ (OpSave TASKS_TXT) eq_refl)
          as [_ E].
        apply E. intros C. injection C as C. apply Hg. symmetry. exact C. }
    intros g Hg. rewrite (Hr _ _ _ Hm g Hg). cbn [world]. rewrite Hl.
    reflexivity.
  - assert (Hr : respects
        (fun a b => (exists items, cout b = cout a ++ items) /\
                    (disk (world b) = disk (world a) \/
                     In (Text SAVED) (cout b)))
        (menu_loop mc fuel)).
    { apply respects_menu_loop.
      - intros s2. split; [exists []; symmetry; apply app_nil_r | left; reflexivity].
      - intros s2 s3 s4 [[i1 A1] A2] [[i2 B1] B2]. split.
        + exists (i1 ++ i2). rewrite B1, A1, app_assoc. reflexivity.
        + destruct B2 as [B2|B2]; [|right; exact B2].
          destruct A2 as [A2|A2]; [left; congruence|].
          right. rewrite B1. apply in_or_app. left. exact A2.
      - intros s2 items. split; [exists items; reflexivity | left; reflexivity].
      - intros s2 c. split; [exists []; symmetry; apply app_nil_r | left; reflexivity].
      - intros s2 msgs. split; [exists []; symmetry; apply app_nil_r | left; reflexivity].
      - intros s2 d p due. split; [exists []; symmetry; apply app_nil_r|].
        left. cbn [world].
        apply (step_disk (world s2) _ (OpAdd d p due) eq_refl). reflexivity.
      - intros s2 i d p c due. split; [exists []; symmetry; apply app_nil_r|].
        left. cbn [world].
        apply (step_disk (world s2) _ (OpUpdate i d p c due) eq_refl).
        reflexivity.
      - intros s2 i. split; [exists []; symmetry; apply app_nil_r|].
        left. cbn [world].
        apply (step_disk (world s2) _ (OpDelete i) eq_refl). reflexivity.
      - intros s2 a. split; [exists []; symmetry; apply app_nil_r|].
        left. reflexivity.
      - intros s2 a. split; [exists []; symmetry; apply app_nil_r|].
        left. reflexivity.
      - intros s2. split; [eexists; reflexivity|]. right. cbn [cout].
        apply in_or_app. right. left. reflexivity. }
    intros Hn. destruct (Hr _ _ _ Hm) as [_ [E|E]].
    + cbn [world] in E. congruence.
    + exfalso. apply Hn, in_or_app. left. exact E.
Qed.

Lemma sample_main :
  main sample_machine 8 (disk_with None) sample_input
  = Returned tt sample_exit.
Proof. vm_compute. reflexivity. Qed.

Lemma main_writes_only_when_saving_witness :
  (forall g, g <> TASKS_TXT ->
     readable (disk (world sample_exit)) g = readable (disk_with None) g) /\
  (~ In (Text SAVED) (cout sample_exit) ->
     disk (world sample_exit) = disk_with None).
Proof.
  exact (main_writes_only_when_saving sample_machine 8 (disk_with None)
           sample_input sample_exit sample_main).
Defined.

Lemma step_store_sound (w w' : World) (o : op) :
  step w o w' -> store_sound w -> store_sound w'.
Proof.
  intros Hstep (Hk & Hnd & Hall).
  assert (Hlt : forall t, In t (tasks w) -> id t < nextId w).
  { intros t Hin. rewrite Forall_forall in Hall. apply Hall in Hin. lia. }
  assert (Hexec : exec (mkProcess w [] []) o
                       (mkProcess w' (new_ids w o w')
                          (if restarts w o w' then [] else new_ids w o w')))
    by (repeat split; exact Hstep).
  assert (Hca : counter_above (mkProcess w [] []))
    by (repeat split; [exact Hk | exact Hlt | intros i []]).
  destruct (exec_counter_above _ _ _ Hexec Hca) as (Hk' & Ht' & _).
  destruct (exec_store_sound _ _ _ Hexec Hca) as [Hnd' Hall'].
  { split; [exact Hnd|]. eapply Forall_impl; [|exact Hall].
    cbn. intros t [A B]. split; [exact A | lia]. }
  cbn [mem] in *. repeat split; try assumption.
  apply Forall_forall. intros t Hin. rewrite Forall_forall in Hall'.
  destruct (Hall' t Hin) as [A B]. specialize (Ht' t Hin).
  split; [exact A | lia].
Qed.

(** X27.  The collection is sound in every session of the program, provided
    only that [std::sort] permutes: when [main] exits, whatever was typed
    and whatever tasks.txt held, the ids of the tasks differ from one
    another, are positive and lie below the counter, and every task passes
    [validateTask]. *)
Theorem main_keeps_store_sound (mc : machine) (fuel : nat) (fs : fsys)
    (input : text) (s : Session) :
  (forall comp l, Permutation l (sort_impl mc comp l)) ->
  main mc fuel fs input = Returned tt s ->
  store_sound (world s).
Proof.
  intros Hsort H.
  destruct (main_returned _ _ _ _ _ H) as (w & s1 & Hl & Hm & ->).
  cbn [world].
  assert (Hperm : forall comp s2,
            store_sound (world s2) ->
            store_sound (sort_tasks mc comp (world s2))).
  { intros comp s2 (Hk & Hnd & Hall).
    pose proof (Hsort comp (tasks (world s2))) as Hp.
    repeat split; cbn [sort_tasks set_tasks tasks nextId]; [exact Hk | |].
    - eapply Permutation_NoDup; [apply Permutation_map, Hp | exact Hnd].
    - eapply Permutation_Forall; eassumption. }
  assert (Hr : respects
      (fun a b => store_sound (world a) -> store_sound (world b))
      (menu_loop mc fuel)).
  { apply respects_menu_loop; try (intros; assumption).
    - intros s2 s3 s4 A B C. apply B, A, C.
    - intros s2 d p due. cbn [world].
      apply (step_store_sound _ _ (OpAdd d p due) eq_refl).
    - intros s2 i d p c due. cbn [world].
      apply (step_store_sound _ _ (OpUpdate i d p c due) eq_refl).
    - intros s2 i. cbn [world].
      apply (step_store_sound _ _ (OpDelete i) eq_refl).
    - intros s2 a. apply Hperm.
    - intros s2 a. apply Hperm.
    - intros s2. cbn [world].
      apply (step_store_sound _ _ (OpSave TASKS_TXT) eq_refl). }
  apply (Hr _ _ _ Hm). cbn [world].
  apply (step_store_sound _ _ (OpLoad TASKS_TXT) Hl).
  repeat split; [cbn; lia | constructor | constructor].
Qed.

Lemma insertion_sort_permutes (comp : Task -> Task -> bool) (l : list Task) :
  Permutation l (insertion_sort comp l).
Proof.
  assert (Hins : forall t k, Permutation (t :: k) (insert_sorted comp t k)).
  { intros t k. induction k as [|a k IH]; cbn [insert_sorted];
      [apply Permutation_refl|].
    destruct (comp t a); [apply Permutation_refl|].
    eapply perm_trans; [apply perm_swap|]. apply perm_skip, IH. }
  induction l as [|t l IH]; cbn [insertion_sort fold_right];
    [apply perm_nil|].
  eapply perm_trans; [apply perm_skip, IH | apply Hins].
Qed.

Lemma main_keeps_store_sound_witness : store_sound (world sample_exit).
Proof.
  apply (main_keeps_store_sound sample_machine 8 (disk_with None) sample_input
           sample_exit).
  - intros comp l. apply insertion_sort_permutes.
  - exact sample_main.
Defined.

(** X28.  Choice 10 writes "Tasks saved to file." whether or not the file
    was written: when tasks.txt cannot be opened for writing, the turn of the
    menu leaves the files as they are, writes the error to [cerr] and the
    message of success to [cout]. *)
Theorem save_choice_reports_success (mc : machine) (fuel : nat)
    (ws rest : text) (s : Session) :
  skipws ws = [] -> ends_number rest ->
  cin s = mkIstream (ws ++ txt "10" ++ rest) false false ->
  writable (disk (world s)) TASKS_TXT = false ->
  menu_turn mc fuel s =
    Returned true
      (mkSession (say [MSG_CANNOT_SAVE] (world s))
                 (mkIstream rest false false)
                 (cout s ++ [Text MENU; Text SAVED])).
Proof.
  intros Hws Hrest Hcin Hw. unfold menu_turn.
  unfold bind at 1. cbn [print].
  unfold bind at 1. unfold extract at 1. cbn [cin world cout].
  rewrite Hcin. unfold read_int32. rewrite read_int_skip by exact Hws.
  change (txt "10") with (show_Z 10).
  rewrite read_int_show_Z; [|split; in_range | exact Hrest].
  unfold bind at 1. cbn [cin_fails cin failbit].
  unfold bind at 1. unfold case_save. unfold bind at 1.
  cbn [call world cin cout print ret].
  unfold saveTasksToFile. rewrite Hw. rewrite <- app_assoc. reflexivity.
Qed.

Lemma save_choice_reports_success_witness :
  menu_turn sample_machine 0
    (mkSession (initial_world (mkFsys (fun _ => None) (fun _ => false)))
               (mkIstream ([] ++ txt "10" ++ [NEWLINE]) false false) []) =
    Returned true
      (mkSession (say [MSG_CANNOT_SAVE]
                      (initial_world (mkFsys (fun _ => None) (fun _ => false))))
                 (mkIstream [NEWLINE] false false)
                 ([] ++ [Text MENU; Text SAVED])).
Proof.
  apply (save_choice_reports_success sample_machine 0 [] [NEWLINE]
           (mkSession (initial_world (mkFsys (fun _ => None) (fun _ => false)))
                      (mkIstream ([] ++ txt "10" ++ [NEWLINE]) false false)
                      [])).
  - reflexivity.
  - reflexivity.
  - reflexivity.
  - reflexivity.
Defined.

Lemma prompts_keep_store (mc : machine) (fuel : nat) :
  respects same_store (promptForPriority fuel) /\
  respects same_store (promptForDueDate mc fuel).
Proof.
  split; [apply respects_promptForPriority | apply respects_promptForDueDate];
    try apply same_store_refl; try apply same_store_trans;
    intros; repeat split.
Qed.

(** X29.  Choice 1 writes "Task added successfully." whether or not a task
    was added.  When the line typed for the description is empty, and the
    two prompts return, [addTask] refuses the task: the collection and the
    counter are as before, the error is the last thing written to [cerr],
    and the message of success is the last thing written to [cout]. *)
Theorem add_choice_reports_success_when_rejected (mc : machine) (fuel : nat)
    (junk rest : text) (s s' : Session) :
  ~ In NEWLINE junk ->
  cin s = mkIstream (junk ++ NEWLINE :: NEWLINE :: rest) false false ->
  case_add mc fuel s = Returned tt s' ->
  tasks (world s') = tasks (world s) /\
  nextId (world s') = nextId (world s) /\
  (exists msgs, cerr (world s') = msgs ++ [MSG_EMPTY_DESCRIPTION]) /\
  (exists out,
     cout s' = out ++ [Text (txt "Task added successfully." ++ [NEWLINE])]).
Proof.
  intros Hjunk Hcin. unfold case_add.
  unfold bind at 1. unfold cin_ignore_line at 1. unfold extract at 1.
  cbn [cin world cout]. rewrite Hcin. unfold ignore.
  cbn [good eofbit failbit negb andb buf].
  rewrite take_until_app by exact Hjunk.
  unfold bind at 1. cbn [print].
  unfold bind at 1. unfold extract at 1. cbn [cin world cout].
  unfold getline. cbn [good eofbit failbit negb andb buf take_until].
  change (Ascii.eqb NEWLINE NEWLINE) with true. cbv iota.
  unfold bind at 1.
  destruct (promptForPriority fuel _) as [prio s2| |] eqn:E2; try discriminate.
  unfold bind at 1.
  destruct (promptForDueDate mc fuel s2) as [due s3| |] eqn:E3;
    try discriminate.
  destruct (prompts_keep_store mc fuel) as [Hp Hd].
  apply Hp in E2. apply Hd in E3.
  destruct E2 as (A1 & A2 & _). destruct E3 as (B1 & B2 & _).
  cbn [world] in A1, A2.
  unfold bind at 1. cbn [call print_line print]. intros H.
  injection H as <-. cbn [world cout].
  unfold addTask, validateTask. cbn [say tasks nextId cerr].
  split; [congruence|]. split; [congruence|].
  split; eexists; reflexivity.
Qed.

Lemma add_choice_reports_success_when_rejected_witness :
  tasks (world (mkSession
                  (say [MSG_EMPTY_DESCRIPTION] (initial_world (disk_with None)))
                  (mkIstream [NEWLINE] false false)
                  [Text (txt "Enter task description: ");
                   Text PROMPT_PRIORITY; Text PROMPT_DUE_DATE;
                   Text (txt "Task added successfully." ++ [NEWLINE])]))
  = tasks (world (mkSession (initial_world (disk_with None))
                    (mkIstream ([] ++ NEWLINE :: NEWLINE ::
                                file_of_lines ["3"; "2024 1 5"]%string)
                               false false) [])) /\
  nextId (world (mkSession
                   (say [MSG_EMPTY_DESCRIPTION] (initial_world (disk_with None)))
                   (mkIstream [NEWLINE] false false)
                   [Text (txt "Enter task description: ");
                    Text PROMPT_PRIORITY; Text PROMPT_DUE_DATE;
                    Text (txt "Task added successfully." ++ [NEWLINE])]))
  = nextId (world (mkSession (initial_world (disk_with None))
                     (mkIstream ([] ++ NEWLINE :: NEWLINE ::
                                 file_of_lines ["3"; "2024 1 5"]%string)
                                false false) [])) /\
  (exists msgs,
     cerr (world (mkSession
                    (say [MSG_EMPTY_DESCRIPTION]
                         (initial_world (disk_with None)))
                    (mkIstream [NEWLINE] false false)
                    [Text (txt "Enter task description: ");
                     Text PROMPT_PRIORITY; Text PROMPT_DUE_DATE;
                     Text (txt "Task added successfully." ++ [NEWLINE])]))
     = msgs ++ [MSG_EMPTY_DESCRIPTION]) /\
  (exists out,
     cout (mkSession
             (say [MSG_EMPTY_DESCRIPTION] (initial_world (disk_with None)))
             (mkIstream [NEWLINE] false false)
             [Text (txt "Enter task description: ");
              Text PROMPT_PRIORITY; Text PROMPT_DUE_DATE;
              Text (txt "Task added successfully." ++ [NEWLINE])])
     = out ++ [Text (txt "Task added successfully." ++ [NEWLINE])]).
Proof.
  apply (add_choice_reports_success_when_rejected sample_machine 2 []
           (file_of_lines ["3"; "2024 1 5"]%string)
           (mkSession (initial_world (disk_with None))
              (mkIstream ([] ++ NEWLINE :: NEWLINE ::
                          file_of_lines ["3"; "2024 1 5"]%string)
                         false false) [])).
  - intros [].
  - reflexivity.
  - vm_compute. reflexivity.
Defined.

Lemma run_app (p p1 p2 : process) (os1 os2 : list op) :
  run p os1 p1 -> run p1 os2 p2 -> run p (os1 ++ os2) p2.
Proof.
  induction 1 as [|p o p' os p1 He _ IH]; intros H2; [exact H2|].
  cbn [app]. eapply run_cons; [exact He | apply IH, H2].
Qed.

Lemma alike_refl (w : World) : alike w w.
Proof. repeat split. Qed.

Lemma performs_nothing (a b : Session) :
  alike (world a) (world b) -> performs a b.
Proof.
  intros (E1 & E2 & E3) p (P1 & P2 & P3). exists [], p.
  split; [reflexivity|]. split; [apply run_nil|].
  repeat split; congruence.
Qed.

(** One operation that is no load, carried out by a function that does not
    look at [cerr]. *)
Lemma performs_op (o : op) (f : World -> World) (a : Session)
    (c : istream) (out : list out_item) :
  is_load o = false ->
  (forall w, step w o (f w)) ->
  (forall w v, alike w v -> alike (f w) (f v)) ->
  performs a (mkSession (f (world a)) c out).
Proof.
  intros Ho Hstep Hf p Hp.
  exists [o],
    (mkProcess (f (mem p))
       (ever p ++ new_ids (mem p) o (f (mem p)))
       (if restarts (mem p) o (f (mem p)) then []
        else since_restart p ++ new_ids (mem p) o (f (mem p)))).
  split; [cbn; rewrite Ho; reflexivity|]. split.
  - eapply run_cons; [|apply run_nil]. repeat split. apply Hstep.
  - cbn [world mem]. apply Hf, Hp.
Qed.

(** X30.  The program is one of the processes: when [main] exits, its tasks,
    its counter and its files are those of a process that began with the
    load of tasks.txt and went on with operations none of which is a load,
    provided [std::sort] keeps its contract.  So what holds of every such
    process holds of the program. *)
Theorem main_is_a_process (mc : machine) (fuel : nat) (fs : fsys)
    (input : text) (s : Session) :
  (forall a l, std_sort (by_priority a) l (sort_impl mc (by_priority a) l)) ->
  (forall a l, std_sort (by_dueDate a) l (sort_impl mc (by_dueDate a) l)) ->
  main mc fuel fs input = Returned tt s ->
  exists os p,
    run (boot fs) (OpLoad TASKS_TXT :: os) p /\
    load_only_first (OpLoad TASKS_TXT :: os) = true /\
    alike (world s) (mem p).
Proof.
  intros Hsp Hsd H.
  destruct (main_returned _ _ _ _ _ H) as (w & s1 & Hl & Hm & ->).
  assert (Hr : respects performs (menu_loop mc fuel)).
  { apply respects_menu_loop.
    - intros a. apply performs_nothing, alike_refl.
    - intros s2 s3 s4 A B p Hp.
      destruct (A p Hp) as (os1 & p1 & F1 & R1 & A1).
      destruct (B p1 A1) as (os2 & p2 & F2 & R2 & A2).
      exists (os1 ++ os2), p2. split; [|split].
      + rewrite forallb_app, F1, F2. reflexivity.
      + eapply run_app; eassumption.
      + exact A2.
    - intros a items. apply performs_nothing, alike_refl.
    - intros a c. apply performs_nothing, alike_refl.
    - intros a msgs. apply performs_nothing. repeat split.
    - intros a d p due. apply (performs_op (OpAdd d p due));
        [reflexivity | reflexivity |].
      intros u v (E1 & E2 & E3). unfold addTask.
      destruct (validateTask d p) as [[|] m];
        unfold Task_new, push_back, set_tasks, set_nextId, say, alike; cbn;
        rewrite ?E1, ?E2, ?E3; repeat split.
    - intros a i d p c due. apply (performs_op (OpUpdate i d p c due));
        [reflexivity | reflexivity |].
      intros u v (E1 & E2 & E3). unfold updateTask. rewrite E1.
      destruct (update_loop _ _ _ _ _ _) as [[ts m]|]; unfold alike; cbn;
        repeat split; congruence.
    - intros a i. apply (performs_op (OpDelete i));
        [reflexivity | reflexivity |].
      intros u v (E1 & E2 & E3). unfold deleteTask. rewrite E1.
      destruct (Nat.eqb _ _); unfold alike; cbn; repeat split; congruence.
    - intros a asc.
      apply (performs_op (OpSortByPriority asc)
                         (sort_tasks mc (by_priority asc))); [reflexivity | |].
      + intros u. split; [apply Hsp | reflexivity].
      + intros u v (E1 & E2 & E3). unfold alike. cbn.
        repeat split; congruence.
    - intros a asc.
      apply (performs_op (OpSortByDueDate asc)
                         (sort_tasks mc (by_dueDate asc))); [reflexivity | |].
      + intros u. split; [apply Hsd | reflexivity].
      + intros u v (E1 & E2 & E3). unfold alike. cbn.
        repeat split; congruence.
    - intros a. apply (performs_op (OpSave TASKS_TXT));
        [reflexivity | reflexivity |].
      intros u v (E1 & E2 & E3). unfold saveTasksToFile. rewrite E1, E3.
      destruct (writable _ _);
        [|unfold alike; cbn; repeat split; congruence].
      destruct (save_loop _ _ _). unfold alike. cbn.
      repeat split; congruence. }
  destruct (Hr _ _ _ Hm
              (mkProcess w (new_ids (initial_world fs) (OpLoad TASKS_TXT) w)
                 (if restarts (initial_world fs) (OpLoad TASKS_TXT) w then []
                  else new_ids (initial_world fs) (OpLoad TASKS_TXT) w))
              (alike_refl w))
    as (os & p & Hnl & Hrun & Hal).
  exists os, p. split; [|split].
  - eapply run_cons; [|exact Hrun]. repeat split. exact Hl.
  - exact Hnl.
  - exact Hal.
Qed.

Lemma main_is_a_process_witness :
  exists os p,
    run (boot (disk_with None)) (OpLoad TASKS_TXT :: os) p /\
    load_only_first (OpLoad TASKS_TXT :: os) = true /\
    alike (world sample_exit) (mem p).
Proof.
  apply (main_is_a_process sample_machine 8 (disk_with None) sample_input
           sample_exit).
  - intros a l. apply (std_sort_insertion_sort priority a).
  - intros a l. apply (std_sort_insertion_sort dueDate a).
  - exact sample_main.
Defined.

End Program.
